(** * Bluepass message bus: a shallow embedding of [bluepass/messagebus.py]

    The development follows the layout of the Python module:
    - [Json]: the decoded values that messages are made of;
    - [Scanner]: the frame scanner [find_message_end];
    - [Bus]: one [MessageBusConnection] with its queues, call table,
      watches and timers, and the [MessageBusHandler] registry;
    - [Server]: the fan-out [MessageBusServer.call_method] and the
      rendezvous it blocks on.

    Python integers are unbounded and are modelled by [Z]; a Python
    string used as a buffer is a [list ascii]; dictionaries are [gmap]s. *)

From Stdlib Require Import ZArith QArith Ascii String Lia Bool.
From stdpp Require Import base tactics option list gmap strings.

Set Warnings "-register-all".
Local Open Scope Z_scope.

(** ** Decoded JSON values *)

Module Json.

Inductive json : Type :=
  | JNull
  | JBool (b : bool)
  | JInt (z : Z)
  | JStr (s : string)
  | JList (l : list json)
  | JDict (d : gmap string json).

(** A message is a Python [dict] with string keys. *)
Abbreviation message := (gmap string json).

(** [key in message] *)
Definition has_key (m : message) (k : string) : bool :=
  match m !! k with Some _ => true | None => false end.

(** Modelled from the spec: [bluepass.error.StructuredError], an error
    carrying a named code, a human-readable message and optional data;
    [asdict()] exposes them as [error_name], [error_message] and
    [error_detail]. *)
Record structured_error : Type := {
  error_name : json;
  error_message : json;
  error_detail : json
}.

End Json.
Export Json.

(** ** Python exceptions and results *)

Inductive exn : Type :=
  | ValueError
  | KeyError
  | TypeError
  | RuntimeError
  | UnicodeDecodeError
  | OtherException
  | StructuredError (e : structured_error).

Inductive pyresult (A : Type) : Type :=
  | Return (a : A)
  | Raise (e : exn).
Arguments Return {A} a.
Arguments Raise {A} e.

(** ** Characters *)

Definition lbrace : ascii := "{"%char.
Definition rbrace : ascii := "}"%char.
Definition dquote : ascii := "034"%char.
Definition backslash : ascii := "\"%char.

(** [ch.isspace()] on the characters of a unicode buffer (the inbound
    buffer is built from [buf.decode('ascii')]): TAB..CR, FS..US, SPACE,
    and in the Latin-1 range NEL and NBSP. *)
Definition isspace (ch : ascii) : bool :=
  let n := N_of_ascii ch in
  (((9 <=? n) && (n <=? 13)) || ((28 <=? n) && (n <=? 32))
   || (n =? 133) || (n =? 160))%N.

Module Scanner.

(** [s_preamble, s_object, s_string, s_string_escape = range(4)] *)
Inductive scan_state : Type :=
  | s_preamble
  | s_object
  | s_string
  | s_string_escape.

Definition is_object (st : scan_state) : bool :=
  match st with s_object => true | _ => false end.

(** One pass of the body of the [for] loop, up to the final test:
    the new [(state, depth)], or [ValueError]. *)
Definition scan_char (state : scan_state) (depth : Z) (ch : ascii)
  : pyresult (scan_state * Z) :=
  match state with
  | s_preamble =>
      if Ascii.eqb ch lbrace then Return (s_object, 1)
      else if negb (isspace ch) then Raise ValueError
      else Return (state, depth)
  | s_object =>
      if Ascii.eqb ch lbrace then Return (state, depth + 1)
      else if Ascii.eqb ch rbrace then Return (state, depth - 1)
      else if Ascii.eqb ch dquote then Return (s_string, depth)
      else Return (state, depth)
  | s_string =>
      if Ascii.eqb ch dquote then Return (s_object, depth)
      else if Ascii.eqb ch backslash then Return (s_string_escape, depth)
      else Return (state, depth)
  | s_string_escape => Return (s_string, depth)
  end.

(** The loop [for i in range(len(buf))], entered at index [i] with the
    rest of the buffer still to read; falling off the end returns -1. *)
Fixpoint scan (state : scan_state) (depth : Z) (i : Z) (buf : list ascii)
  : pyresult Z :=
  match buf with
  | [] => Return (-1)
  | ch :: rest =>
      match scan_char state depth ch with
      | Raise e => Raise e
      | Return (state', depth') =>
          if is_object state' && (depth' =? 0) then Return i
          else scan state' depth' (i + 1) rest
      end
  end.

Definition find_message_end (buf : list ascii) : pyresult Z :=
  scan s_preamble 0 0 buf.

(** The characters of [buf] in front of its first opening brace (all of
    [buf] when it has none). *)
Fixpoint preamble (buf : list ascii) : list ascii :=
  match buf with
  | [] => []
  | ch :: rest => if Ascii.eqb ch lbrace then [] else ch :: preamble rest
  end.

End Scanner.

(** ** The connection and the handler registry *)

Module Bus.

(** Library code the module imports: [bluepass.util.json], [fnmatch]
    and the defaults of [StructuredError]'s constructor. *)
Class library : Type := {
  (** [json.loads], [None] when decoding raises *)
  json_loads : list ascii -> option json;
  (** [json.dumps(message, indent=2)] *)
  json_dumps : message -> list ascii;
  (** [fnmatch(name, pattern)] *)
  fnmatch : string -> string -> bool;
  (** the [error_message] of a structured error built from a name alone *)
  omitted_error_message : json
}.

(** Modelled from the spec: [StructuredError(name, message)] and its
    subclass [MessageBusError]; an error built without data has null
    [error_detail]. *)
Definition MessageBusError `{library} (name : json) (msg : option json)
  : structured_error :=
  {| error_name := name;
     error_message := default omitted_error_message msg;
     error_detail := JNull |}.

(** *** Values as Python sees them *)

(** What a value hashes to when it is used as a dictionary key: [True]
    and [False] are the integers 1 and 0, lists and dictionaries are
    unhashable. *)
Inductive pykey : Type :=
  | key_int (z : Z)
  | key_str (s : string)
  | key_none.

Definition hash_key (v : json) : pyresult pykey :=
  match v with
  | JNull => Return key_none
  | JBool b => Return (key_int (if b then 1 else 0))
  | JInt z => Return (key_int z)
  | JStr s => Return (key_str s)
  | JList _ | JDict _ => Raise TypeError
  end.

(** [len(args)] *)
Definition py_len (v : json) : pyresult Z :=
  match v with
  | JList l => Return (Z.of_nat (length l))
  | JDict d => Return (Z.of_nat (size d))
  | JStr s => Return (Z.of_nat (String.length s))
  | _ => Raise TypeError
  end.

(** The positional arguments of [handler( *args )]. *)
Definition py_star (v : json) : list json :=
  match v with
  | JList l => l
  | JDict d => (fun kv => JStr (fst kv)) <$> map_to_list d
  | JStr s => (fun ch => JStr (String ch EmptyString)) <$> list_ascii_of_string s
  | _ => []
  end.

(** *** Handlers *)

(** [inspect.getargspec(handler)]: [self] is counted in [spec_args]. *)
Record argspec : Type := {
  spec_args : nat;
  spec_defaults : nat;
  spec_varargs : bool
}.

(** What a handler body does to the dispatch context while it runs,
    and how it ends. *)
Inductive handler_action : Type :=
  | early_response_action (value : json)
  | delay_response_action.

Inductive handler_end : Type :=
  | handler_returns (response : json)
  | handler_raises_structured (e : structured_error)
  | handler_raises_other.

Record handler_run : Type := {
  run_actions : list handler_action;
  run_end : handler_end
}.

Record handler_fn : Type := {
  h_callable : bool;
  h_spec : argspec;
  h_call : list json -> handler_run
}.

(** [MessageBusHandler]: the two tables filled by [_init_handlers]. *)
Record registry : Type := {
  methods : gmap string handler_fn;
  signal_handlers : gmap string handler_fn
}.

(** *** Connection state *)

(** The callable given as [callback=] to [call_method]: an opaque user
    function, or the [waiter.switch] wrapper of the blocking variants. *)
Inductive reply_callback : Type :=
  | user_callback (n : nat)
  | waiter_switch (w : nat).

(** The closure [method_return_callback] of the base [call_method]: it
    captures [message['id']], [callback] and [timer]. *)
Record method_return_callback : Type := {
  mrc_id : Z;
  mrc_callback : reply_callback;
  mrc_timer : nat
}.

(** A started timer: [create_timer(timeout, callback)]. *)
Record timer : Type := {
  timer_delay : Q;
  timer_callback : method_return_callback
}.

(** Entries of the hub's [run_callback] queue. *)
Inductive loop_callback : Type :=
  | run_dispatch
  | run_method_return (f : method_return_callback) (reply : message)
  | run_greenlet (msg : message).

(** What the connection does to its surroundings. *)
Inductive event : Type :=
  | ev_shutdown
  | ev_socket_close
  | ev_recv
  | ev_send (data : list ascii)
  | ev_lifecycle (callback : nat) (name : string)
  | ev_reply (callback : reply_callback) (msg : message)
  | ev_trace (msg : list ascii) (incoming : bool).

(** The attributes set by [__init__], the class attributes, and the part
    of the hub that belongs to this connection: [_read_event] and
    [_write_event] hold the watches' [active] flag, [hub_timers] the
    started timers, [hub_callbacks] the pending [run_callback]s. *)
Record conn : Type := {
  handler : option registry;
  name : string;
  peer_name : string;
  next_serial : Z;
  closed : bool;
  tracefile : option string;
  callbacks : list nat;
  method_calls : gmap Z method_return_callback;
  _read_event : bool;
  _write_event : bool;
  _inbuf : list ascii;
  _outbuf : list ascii;
  _incoming : list (list ascii);
  _outgoing : list (list ascii);
  _reading : bool;
  _writing : bool;
  timeout : Q;
  max_message_size : Z;
  max_incoming_messages : Z;
  hub_timers : gmap nat timer;
  next_timer : nat;
  hub_callbacks : list loop_callback
}.

Definition set_next_serial (v : Z) (c : conn) : conn :=
  Build_conn (handler c) (name c) (peer_name c) v (closed c) (tracefile c)
    (callbacks c) (method_calls c) (_read_event c) (_write_event c)
    (_inbuf c) (_outbuf c) (_incoming c) (_outgoing c) (_reading c)
    (_writing c) (timeout c) (max_message_size c) (max_incoming_messages c)
    (hub_timers c) (next_timer c) (hub_callbacks c).

Definition set_closed (v : bool) (c : conn) : conn :=
  Build_conn (handler c) (name c) (peer_name c) (next_serial c) v
    (tracefile c) (callbacks c) (method_calls c) (_read_event c)
    (_write_event c) (_inbuf c) (_outbuf c) (_incoming c) (_outgoing c)
    (_reading c) (_writing c) (timeout c) (max_message_size c)
    (max_incoming_messages c) (hub_timers c) (next_timer c)
    (hub_callbacks c).

Definition set_tracefile (v : option string) (c : conn) : conn :=
  Build_conn (handler c) (name c) (peer_name c) (next_serial c) (closed c) v
    (callbacks c) (method_calls c) (_read_event c) (_write_event c)
    (_inbuf c) (_outbuf c) (_incoming c) (_outgoing c) (_reading c)
    (_writing c) (timeout c) (max_message_size c) (max_incoming_messages c)
    (hub_timers c) (next_timer c) (hub_callbacks c).

Definition set_callbacks (v : list nat) (c : conn) : conn :=
  Build_conn (handler c) (name c) (peer_name c) (next_serial c) (closed c)
    (tracefile c) v (method_calls c) (_read_event c) (_write_event c)
    (_inbuf c) (_outbuf c) (_incoming c) (_outgoing c) (_reading c)
    (_writing c) (timeout c) (max_message_size c) (max_incoming_messages c)
    (hub_timers c) (next_timer c) (hub_callbacks c).

Definition set_method_calls (v : gmap Z method_return_callback) (c : conn) : conn :=
  Build_conn (handler c) (name c) (peer_name c) (next_serial c) (closed c)
    (tracefile c) (callbacks c) v (_read_event c) (_write_event c)
    (_inbuf c) (_outbuf c) (_incoming c) (_outgoing c) (_reading c)
    (_writing c) (timeout c) (max_message_size c) (max_incoming_messages c)
    (hub_timers c) (next_timer c) (hub_callbacks c).

Definition set_read_event (v : bool) (c : conn) : conn :=
  Build_conn (handler c) (name c) (peer_name c) (next_serial c) (closed c)
    (tracefile c) (callbacks c) (method_calls c) v (_write_event c)
    (_inbuf c) (_outbuf c) (_incoming c) (_outgoing c) (_reading c)
    (_writing c) (timeout c) (max_message_size c) (max_incoming_messages c)
    (hub_timers c) (next_timer c) (hub_callbacks c).

Definition set_write_event (v : bool) (c : conn) : conn :=
  Build_conn (handler c) (name c) (peer_name c) (next_serial c) (closed c)
    (tracefile c) (callbacks c) (method_calls c) (_read_event c) v
    (_inbuf c) (_outbuf c) (_incoming c) (_outgoing c) (_reading c)
    (_writing c) (timeout c) (max_message_size c) (max_incoming_messages c)
    (hub_timers c) (next_timer c) (hub_callbacks c).

Definition set_inbuf (v : list ascii) (c : conn) : conn :=
  Build_conn (handler c) (name c) (peer_name c) (next_serial c) (closed c)
    (tracefile c) (callbacks c) (method_calls c) (_read_event c)
    (_write_event c) v (_outbuf c) (_incoming c) (_outgoing c) (_reading c)
    (_writing c) (timeout c) (max_message_size c) (max_incoming_messages c)
    (hub_timers c) (next_timer c) (hub_callbacks c).

Definition set_outbuf (v : list ascii) (c : conn) : conn :=
  Build_conn (handler c) (name c) (peer_name c) (next_serial c) (closed c)
    (tracefile c) (callbacks c) (method_calls c) (_read_event c)
    (_write_event c) (_inbuf c) v (_incoming c) (_outgoing c) (_reading c)
    (_writing c) (timeout c) (max_message_size c) (max_incoming_messages c)
    (hub_timers c) (next_timer c) (hub_callbacks c).

Definition set_incoming (v : list (list ascii)) (c : conn) : conn :=
  Build_conn (handler c) (name c) (peer_name c) (next_serial c) (closed c)
    (tracefile c) (callbacks c) (method_calls c) (_read_event c)
    (_write_event c) (_inbuf c) (_outbuf c) v (_outgoing c) (_reading c)
    (_writing c) (timeout c) (max_message_size c) (max_incoming_messages c)
    (hub_timers c) (next_timer c) (hub_callbacks c).

Definition set_outgoing (v : list (list ascii)) (c : conn) : conn :=
  Build_conn (handler c) (name c) (peer_name c) (next_serial c) (closed c)
    (tracefile c) (callbacks c) (method_calls c) (_read_event c)
    (_write_event c) (_inbuf c) (_outbuf c) (_incoming c) v (_reading c)
    (_writing c) (timeout c) (max_message_size c) (max_incoming_messages c)
    (hub_timers c) (next_timer c) (hub_callbacks c).

Definition set_reading (v : bool) (c : conn) : conn :=
  Build_conn (handler c) (name c) (peer_name c) (next_serial c) (closed c)
    (tracefile c) (callbacks c) (method_calls c) (_read_event c)
    (_write_event c) (_inbuf c) (_outbuf c) (_incoming c) (_outgoing c) v
    (_writing c) (timeout c) (max_message_size c) (max_incoming_messages c)
    (hub_timers c) (next_timer c) (hub_callbacks c).

Definition set_writing (v : bool) (c : conn) : conn :=
  Build_conn (handler c) (name c) (peer_name c) (next_serial c) (closed c)
    (tracefile c) (callbacks c) (method_calls c) (_read_event c)
    (_write_event c) (_inbuf c) (_outbuf c) (_incoming c) (_outgoing c)
    (_reading c) v (timeout c) (max_message_size c)
    (max_incoming_messages c) (hub_timers c) (next_timer c)
    (hub_callbacks c).

Definition set_hub_timers (v : gmap nat timer) (c : conn) : conn :=
  Build_conn (handler c) (name c) (peer_name c) (next_serial c) (closed c)
    (tracefile c) (callbacks c) (method_calls c) (_read_event c)
    (_write_event c) (_inbuf c) (_outbuf c) (_incoming c) (_outgoing c)
    (_reading c) (_writing c) (timeout c) (max_message_size c)
    (max_incoming_messages c) v (next_timer c) (hub_callbacks c).

Definition set_next_timer (v : nat) (c : conn) : conn :=
  Build_conn (handler c) (name c) (peer_name c) (next_serial c) (closed c)
    (tracefile c) (callbacks c) (method_calls c) (_read_event c)
    (_write_event c) (_inbuf c) (_outbuf c) (_incoming c) (_outgoing c)
    (_reading c) (_writing c) (timeout c) (max_message_size c)
    (max_incoming_messages c) (hub_timers c) v (hub_callbacks c).

Definition set_hub_callbacks (v : list loop_callback) (c : conn) : conn :=
  Build_conn (handler c) (name c) (peer_name c) (next_serial c) (closed c)
    (tracefile c) (callbacks c) (method_calls c) (_read_event c)
    (_write_event c) (_inbuf c) (_outbuf c) (_incoming c) (_outgoing c)
    (_reading c) (_writing c) (timeout c) (max_message_size c)
    (max_incoming_messages c) (hub_timers c) (next_timer c) v.

(** [__init__] *)
Definition init (h : option registry) (nm peer : string) : conn :=
  {| handler := h; name := nm; peer_name := peer;
     next_serial := 1; closed := false; tracefile := None;
     callbacks := []; method_calls := ∅;
     _read_event := true; _write_event := true;
     _inbuf := []; _outbuf := []; _incoming := []; _outgoing := [];
     _reading := true; _writing := true;
     timeout := 30%Q; max_message_size := 1024000;
     max_incoming_messages := 100;
     hub_timers := ∅; next_timer := 0%nat; hub_callbacks := [] |}.

(** *** Stateful code

    A method of the connection takes the connection, and gives back a
    value or the exception it raised, the connection as it left it, and
    the effects it had on its surroundings, in order. *)

Definition M (A : Type) : Type := conn -> pyresult A * conn * list event.

Definition ret {A} (a : A) : M A := fun c => (Return a, c, []).

Definition raise {A} (e : exn) : M A := fun c => (Raise e, c, []).

Definition bind {A B} (m : M A) (k : A -> M B) : M B :=
  fun c =>
    match m c with
    | (Return a, c1, e1) =>
        match k a c1 with (r, c2, e2) => (r, c2, e1 ++ e2) end
    | (Raise x, c1, e1) => (Raise x, c1, e1)
    end.

Definition get : M conn := fun c => (Return c, c, []).

Definition modify (f : conn -> conn) : M unit := fun c => (Return tt, f c, []).

Definition emit (evs : list event) : M unit := fun c => (Return tt, c, evs).

Definition lift {A} (r : pyresult A) : M A := fun c => (r, c, []).

(** [try: m except Exception as x: h x] *)
Definition try_except {A} (m : M A) (h : exn -> M A) : M A :=
  fun c =>
    match m c with
    | (Return a, c1, e1) => (Return a, c1, e1)
    | (Raise x, c1, e1) =>
        match h x c1 with (r, c2, e2) => (r, c2, e1 ++ e2) end
    end.

Notation "'let*' x ':=' m 'in' k" := (bind m (fun x => k))
  (at level 10, x name, m at level 100, k at level 200).
Notation "m ;; k" := (bind m (fun _ => k))
  (at level 100, k at level 200, right associativity).

(** The state and the effects of running [m] from [c]. *)
Definition state_of {A} (r : pyresult A * conn * list event) : conn := snd (fst r).
Definition events_of {A} (r : pyresult A * conn * list event) : list event := snd r.
Definition result_of {A} (r : pyresult A * conn * list event) : pyresult A := fst (fst r).

(** [message[key]] *)
Definition getitem (m : message) (k : string) : pyresult json :=
  match m !! k with Some v => Return v | None => Raise KeyError end.

(** *** [GEventLoop] *)

Definition enable_watch_read : M unit :=
  modify (fun c => if _read_event c then c else set_read_event true c).

Definition disable_watch_read : M unit :=
  modify (fun c => if _read_event c then set_read_event false c else c).

Definition enable_watch_write : M unit :=
  modify (fun c => if _write_event c then c else set_write_event true c).

Definition disable_watch_write : M unit :=
  modify (fun c => if _write_event c then set_write_event false c else c).

(** [timer = create_timer(timeout, callback)]: the closure that is
    started refers to the timer that runs it. *)
Definition create_timer (delay : Q) (id : Z) (cb : reply_callback)
  : M method_return_callback :=
  let* c := get in
  let f := {| mrc_id := id; mrc_callback := cb; mrc_timer := next_timer c |} in
  let tm := {| timer_delay := delay; timer_callback := f |} in
  modify (fun c => set_next_timer (S (next_timer c))
                     (set_hub_timers (<[next_timer c := tm]> (hub_timers c)) c));;
  ret f.

Definition cancel_timer (timer : nat) : M unit :=
  modify (fun c => set_hub_timers (delete timer (hub_timers c)) c).

Definition create_callback (cb : loop_callback) : M unit :=
  modify (fun c => set_hub_callbacks (hub_callbacks c ++ [cb]) c).

(** *** [MessageBusConnectionBase] *)

Definition set_trace (file : option string) : M unit :=
  modify (set_tracefile file).

Definition add_callback (callback : nat) : M unit :=
  modify (fun c => set_callbacks (callbacks c ++ [callback]) c).

Definition _run_callbacks (ev : string) : M unit :=
  let* c := get in
  emit ((fun callback => ev_lifecycle callback ev) <$> callbacks c).

(** The I/O errors of [_do_trace] are caught inside it. *)
Definition _do_trace (msg : list ascii) (incoming : bool) : M unit :=
  emit [ev_trace msg incoming].

Definition close : M unit :=
  let* c := get in
  if closed c then ret tt
  else
    disable_watch_read;;
    disable_watch_write;;
    emit [ev_shutdown];;
    emit [ev_socket_close];;
    modify (set_closed true);;
    _run_callbacks "ConnectionClosed".

(** What [socket.recv(16384)] does: data (empty at end of file),
    [EWOULDBLOCK], or another socket error.  A pump is run with the
    results of its successive calls; when they are used up the socket
    would block. *)
Inductive recv_result : Type :=
  | recv_data (buf : list ascii)
  | recv_wouldblock
  | recv_failed.

Inductive send_result : Type :=
  | send_ok (nbytes : nat)
  | send_wouldblock
  | send_failed.

(** [buf.decode('ascii')] *)
Definition decode_ascii (buf : list ascii) : pyresult (list ascii) :=
  if forallb (fun ch => (N_of_ascii ch <? 128)%N) buf then Return buf
  else Raise UnicodeDecodeError.

(** The inner loop of [_do_read], [while self._inbuf: ...]; every pass
    shortens the buffer, so [length (_inbuf c)] passes are enough. *)
Fixpoint extract_messages (fuel : nat) : M unit :=
  match fuel with
  | O => ret tt
  | S fuel =>
      let* c := get in
      match _inbuf c with
      | [] => ret tt
      | _ :: _ =>
          let* pos := lift (Scanner.find_message_end (_inbuf c)) in
          if pos =? -1 then ret tt
          else
            let msg := take (Z.to_nat (pos + 1)) (_inbuf c) in
            modify (fun c => set_incoming (_incoming c ++ [msg]) c);;
            match tracefile c with
            | Some _ => _do_trace msg true
            | None => ret tt
            end;;
            modify (fun c => set_inbuf (drop (Z.to_nat (pos + 1)) (_inbuf c)) c);;
            extract_messages fuel
      end
  end.

(** The outer loop of [_do_read], [while True: ...]. *)
Fixpoint read_loop (recvs : list recv_result) {struct recvs} : M unit :=
  let* c := get in
  extract_messages (length (_inbuf c));;
  let* c := get in
  if max_message_size c <? Z.of_nat (length (_inbuf c)) then close
  else if max_incoming_messages c <? Z.of_nat (length (_incoming c)) then
    disable_watch_read;;
    modify (set_reading false)
  else
    emit [ev_recv];;
    match recvs with
    | [] => ret tt
    | recv_wouldblock :: _ => ret tt
    | recv_failed :: _ => close
    | recv_data [] :: _ => close
    | recv_data buf :: recvs =>
        let* s := lift (decode_ascii buf) in
        modify (fun c => set_inbuf (_inbuf c ++ s) c);;
        read_loop recvs
    end.

Definition _do_read (recvs : list recv_result) : M unit :=
  read_loop recvs;;
  let* c := get in
  match _incoming c with
  | [] => ret tt
  | _ :: _ => create_callback run_dispatch
  end.

(** The loop of [_do_write]. *)
Fixpoint write_loop (sends : list send_result) {struct sends} : M unit :=
  let* c := get in
  match _outbuf c, _outgoing c with
  | [], [] => ret tt
  | _, _ =>
      match _outbuf c, _outgoing c with
      | [], msg :: rest =>
          match tracefile c with
          | Some _ => _do_trace msg false
          | None => ret tt
          end;;
          modify (fun c => set_outbuf msg (set_outgoing rest c))
      | _, _ => ret tt
      end;;
      let* c := get in
      emit [ev_send (_outbuf c)];;
      match sends with
      | [] => ret tt
      | send_wouldblock :: _ => ret tt
      | send_failed :: _ => close
      | send_ok nbytes :: sends =>
          modify (fun c => set_outbuf (drop nbytes (_outbuf c)) c);;
          write_loop sends
      end
  end.

Definition _do_write (sends : list send_result) : M unit :=
  write_loop sends;;
  let* c := get in
  match _outbuf c with
  | [] => disable_watch_write;; modify (set_writing false)
  | _ :: _ => ret tt
  end.

Section Connection.
Context `{library}.

(** Modelled from the spec: [json.try_loads(serialized, dict)] of
    [bluepass.util.json] gives the decoded object, and [None] if decoding
    fails or if the root is not an object. *)
Definition try_loads (serialized : list ascii) : option message :=
  match json_loads serialized with
  | Some (JDict d) => Some d
  | _ => None
  end.

(** Modelled from the spec: [json.unpack(message, '{s:s}', ('jsonrpc',))]
    of [bluepass.util.json] gives the string stored under [jsonrpc] and
    raises [UnpackError] when there is none; [check_message] accepts the
    message if that string is ["2.0"]. *)
Definition check_message (m : message) : bool :=
  match m !! "jsonrpc" with
  | Some (JStr v) => String.eqb v "2.0"
  | _ => false
  end.

Definition push_outgoing (m : message) : M unit :=
  let serialized := json_dumps m in
  modify (fun c => set_outgoing (_outgoing c ++ [serialized]) c);;
  let* c := get in
  if negb (closed c) && negb (_writing c) then
    enable_watch_write;;
    modify (set_writing true)
  else ret tt.

Definition pop_incoming : M (option message) :=
  let* c := get in
  match _incoming c with
  | [] => ret None
  | serialized :: rest =>
      modify (set_incoming rest);;
      match try_loads serialized with
      | None => close;; ret None
      | Some m =>
          if negb (check_message m) then close;; ret None
          else
            let* c := get in
            (if negb (_reading c) && negb (closed c)
                && (Z.of_nat (length (_incoming c)) <? max_incoming_messages c)
             then enable_watch_read;; modify (set_reading true)
             else ret tt);;
            ret (Some m)
      end
  end.

Definition jsonrpc_header : message := {[ "jsonrpc" := JStr "2.0" ]}.

Definition send_method_return (m : message) (value : json) : M unit :=
  let reply := jsonrpc_header in
  let* id := lift (getitem m "id") in
  let reply := <["id" := id]> reply in
  let reply := <["result" := value]> reply in
  push_outgoing reply.

(** The [error] member built from [error.asdict()]. *)
Definition error_member (err : structured_error) : json :=
  JDict (<["data" := error_detail err]>
          (<["message" := error_message err]>
            {[ "code" := error_name err ]})).

Definition send_error (m : message) (error : structured_error) : M unit :=
  let reply := jsonrpc_header in
  let* id := lift (getitem m "id") in
  let reply := <["id" := id]> reply in
  let reply := <["error" := error_member error]> reply in
  push_outgoing reply.

Definition send_signal (signal : string) (args : list json) : M unit :=
  let m := jsonrpc_header in
  let m := <["method" := JStr signal]> m in
  let m := <["params" := JList args]> m in
  push_outgoing m.

(** [self.method_calls.pop(key, None)]: the keys of the table are
    integers, so a key of another hashable type finds nothing. *)
Definition method_calls_pop (key : json)
  : M (option method_return_callback) :=
  let* k := lift (hash_key key) in
  match k with
  | key_int z =>
      let* c := get in
      match method_calls c !! z with
      | Some f =>
          modify (fun c => set_method_calls (delete z (method_calls c)) c);;
          ret (Some f)
      | None => ret None
      end
  | _ => ret None
  end.

(** [MessageBusConnection.spawn]: [gevent.spawn] starts the greenlet
    from the hub's callback queue. *)
Definition spawn (m : message) : M unit :=
  create_callback (run_greenlet m).

(** The loop of [dispatch]; every pass takes a message off the queue. *)
Fixpoint dispatch_loop (fuel : nat) : M unit :=
  match fuel with
  | O => ret tt
  | S fuel =>
      let* popped := pop_incoming in
      match popped with
      | None => ret tt
      | Some m =>
          if bool_decide (m = ∅) then ret tt
          else
            (if has_key m "result" || has_key m "error" then
               let* key := lift (getitem m "id") in
               let* callback := method_calls_pop key in
               match callback with
               | Some f => create_callback (run_method_return f m)
               | None => ret tt
               end
             else
               let* c := get in
               match handler c with
               | Some _ => spawn m
               | None => ret tt
               end);;
            dispatch_loop fuel
      end
  end.

Definition dispatch : M unit :=
  let* c := get in
  dispatch_loop (S (length (_incoming c))).

(** The error response that [method_return_callback] builds when its
    timer fires. *)
Definition timeout_error (id : Z) : message :=
  let error := jsonrpc_header in
  let error := <["id" := JInt id]> error in
  let err := MessageBusError (JStr "Timeout") (Some (JStr "Method call timed out")) in
  <["error" := error_member err]> error.

(** [del self.method_calls[id]] *)
Definition method_calls_del (id : Z) : M unit :=
  let* c := get in
  match method_calls c !! id with
  | Some _ => modify (fun c => set_method_calls (delete id (method_calls c)) c)
  | None => raise KeyError
  end.

(** The closure [method_return_callback(reply=None)] of [call_method]. *)
Definition method_return_callback_run (f : method_return_callback)
    (reply : option message) : M unit :=
  match reply with
  | None =>
      let error := timeout_error (mrc_id f) in
      method_calls_del (mrc_id f);;
      emit [ev_reply (mrc_callback f) error]
  | Some reply =>
      cancel_timer (mrc_timer f);;
      emit [ev_reply (mrc_callback f) reply]
  end.

(** [call_method(method, *args, callback=..., timeout=...)] *)
Definition call_method (method : string) (args : list json)
    (callback : option reply_callback) (timeout_kw : option Q) : M unit :=
  let* c := get in
  let m := jsonrpc_header in
  let id := next_serial c in
  let m := <["id" := JInt id]> m in
  modify (set_next_serial (next_serial c + 1));;
  let m := <["method" := JStr method]> m in
  let m := <["params" := JList args]> m in
  push_outgoing m;;
  match callback with
  | None => ret tt
  | Some cb =>
      let delay := default (timeout c) timeout_kw in
      let* f := create_timer delay id cb in
      modify (fun c => set_method_calls (<[id := f]> (method_calls c)) c)
  end.

(** *** [MessageBusHandler] *)

(** [name in table] and [table[name]] *)
Definition lookup_handler (table : gmap string handler_fn) (name : json)
  : pyresult (option handler_fn) :=
  match hash_key name with
  | Raise e => Raise e
  | Return (key_str s) => Return (table !! s)
  | Return _ => Return None
  end.

Definition _check_callable (h : handler_fn) (args : json) : pyresult bool :=
  if negb (h_callable h) then Return false
  else
    let spec := h_spec h in
    let minargs := Z.of_nat (spec_args spec) in
    let minargs :=
      if (0 <? spec_defaults spec)%nat
      then minargs - Z.of_nat (spec_defaults spec) else minargs in
    let maxargs :=
      if spec_varargs spec then None else Some (Z.of_nat (spec_args spec)) in
    let minargs := minargs - 1 in
    let maxargs :=
      match maxargs with
      | Some m => if m =? 0 then Some m else Some (m - 1)
      | None => None
      end in
    match py_len args with
    | Raise e => Raise e
    | Return n =>
        Return ((minargs <=? n)
                && match maxargs with None => true | Some m => n <=? m end)
    end.

(** [early_response] and [delay_response]; the value is the new
    [self.local.response_sent]. *)
Definition early_response (m : message) (value : json) : M bool :=
  if negb (has_key m "id") then raise RuntimeError
  else send_method_return m value;; ret true.

Definition delay_response (m : message) : M bool :=
  if negb (has_key m "id") then raise RuntimeError
  else ret true.

Fixpoint handler_actions (m : message) (actions : list handler_action)
    (response_sent : bool) : M bool :=
  match actions with
  | [] => ret response_sent
  | early_response_action value :: actions =>
      let* sent := early_response m value in
      handler_actions m actions sent
  | delay_response_action :: actions =>
      let* sent := delay_response m in
      handler_actions m actions sent
  end.

(** [response = handler( *args )], with the [response_sent] it leaves. *)
Definition invoke (h : handler_fn) (m : message) (args : json)
  : M (bool * json) :=
  let run := h_call h (py_star args) in
  let* sent := handler_actions m (run_actions run) false in
  match run_end run with
  | handler_returns response => ret (sent, response)
  | handler_raises_structured e => raise (StructuredError e)
  | handler_raises_other => raise OtherException
  end.

Definition _dispatch_method_call (reg : registry) (m : message) : M unit :=
  let* name := lift (getitem m "method") in
  let* found := lift (lookup_handler (methods reg) name) in
  match found with
  | None =>
      let error := MessageBusError (JStr "NotFound") (Some (JStr "No such method call")) in
      send_error m error
  | Some h =>
      let args := default (JList []) (m !! "params") in
      let* ok := lift (_check_callable h args) in
      if negb ok then
        let error :=
          MessageBusError (JStr "InvalidCall") (Some (JStr "Wrong number of arguments")) in
        send_error m error
      else
        let* outcome :=
          try_except
            (let* r := invoke h m args in ret (Some r))
            (fun x =>
               match x with
               | StructuredError e => send_error m e;; ret None
               | _ =>
                   let error := MessageBusError (JStr "UncaughtException") None in
                   send_error m error;; ret None
               end) in
        match outcome with
        | None => ret tt
        | Some (response_sent, response) =>
            if negb response_sent then send_method_return m response
            else ret tt
        end
  end.

Definition _dispatch_signal (reg : registry) (m : message) : M unit :=
  let* found :=
    lift (match m !! "method" with
          | Some name => lookup_handler (signal_handlers reg) name
          | None => Return None
          end) in
  match found with
  | None => ret tt
  | Some h =>
      let args := default (JList []) (m !! "params") in
      let* ok := lift (_check_callable h args) in
      if negb ok then ret tt
      else
        try_except
          (invoke h m args;; ret tt)
          (fun _ => ret tt)
  end.

(** [MessageBusHandler.dispatch] *)
Definition handler_dispatch (reg : registry) (m : message) : M unit :=
  if has_key m "id" && has_key m "method" then _dispatch_method_call reg m
  else if negb (has_key m "id") && has_key m "method" then _dispatch_signal reg m
  else ret tt.

(** *** The hub *)

(** A started timer fires: it is one-shot, and runs the closure with
    no reply. *)
Definition fire_timer (t : nat) : M unit :=
  let* c := get in
  match hub_timers c !! t with
  | None => ret tt
  | Some tm =>
      modify (fun c => set_hub_timers (delete t (hub_timers c)) c);;
      method_return_callback_run (timer_callback tm) None
  end.

(** The hub runs the oldest pending callback. *)
Definition run_callback : M unit :=
  let* c := get in
  match hub_callbacks c with
  | [] => ret tt
  | cb :: rest =>
      modify (set_hub_callbacks rest);;
      match cb with
      | run_dispatch => dispatch
      | run_method_return f reply => method_return_callback_run f (Some reply)
      | run_greenlet m =>
          match handler c with
          | Some reg => handler_dispatch reg m
          | None => ret tt
          end
      end
  end.

(** What can happen to a connection: the hub calls one of its watchers,
    timers or callbacks, or its owner calls one of its methods. *)
Inductive op : Type :=
  | op_do_read (recvs : list recv_result)
  | op_do_write (sends : list send_result)
  | op_fire_timer (t : nat)
  | op_run_callback
  | op_close
  | op_dispatch
  | op_pop_incoming
  | op_push_outgoing (m : message)
  | op_send_method_return (m : message) (value : json)
  | op_send_error (m : message) (error : structured_error)
  | op_send_signal (signal : string) (args : list json)
  | op_call_method (method : string) (args : list json)
      (callback : option reply_callback) (timeout_kw : option Q)
  | op_add_callback (callback : nat)
  | op_set_trace (file : option string).

Definition step (o : op) : M unit :=
  match o with
  | op_do_read recvs => _do_read recvs
  | op_do_write sends => _do_write sends
  | op_fire_timer t => fire_timer t
  | op_run_callback => run_callback
  | op_close => close
  | op_dispatch => dispatch
  | op_pop_incoming => pop_incoming;; ret tt
  | op_push_outgoing m => push_outgoing m
  | op_send_method_return m value => send_method_return m value
  | op_send_error m error => send_error m error
  | op_send_signal signal args => send_signal signal args
  | op_call_method method args callback timeout_kw =>
      call_method method args callback timeout_kw
  | op_add_callback callback => add_callback callback
  | op_set_trace file => set_trace file
  end.

(** A history of the connection: the state it ends in and everything it
    did on the way.  An exception ends the operation that raised it,
    not the connection. *)
Fixpoint run (ops : list op) (c : conn) : conn * list event :=
  match ops with
  | [] => (c, [])
  | o :: ops =>
      let r := step o c in
      let r' := run ops (state_of r) in
      (fst r', events_of r ++ snd r')
  end.

End Connection.

End Bus.

(** ** The server and the blocking calls *)

Module Server.
Import Bus.

(** gevent's [Waiter], the rendezvous of the blocking calls: [greenlet]
    tells whether a caller is parked in [get()], [value] is what a
    [switch] stored while nobody was parked, and [returned] is what
    [get()] handed to the caller. *)
Record waiter : Type := {
  greenlet : bool;
  value : option message;
  returned : option message
}.

Definition Waiter : waiter :=
  {| greenlet := false; value := None; returned := None |}.

(** [waiter.switch(message)]: resume the parked caller with the message,
    or store it when nobody is parked. *)
Definition switch (msg : message) (w : waiter) : waiter :=
  if greenlet w then
    {| greenlet := false; value := value w; returned := Some msg |}
  else
    {| greenlet := false; value := Some msg; returned := returned w |}.

(** [waiter.get()]: take the stored value, or park. *)
Definition waiter_get (w : waiter) : waiter :=
  match value w with
  | Some msg => {| greenlet := false; value := value w; returned := Some msg |}
  | None => {| greenlet := true; value := None; returned := returned w |}
  end.

(** What the caller does with the reply once [get()] has returned:
    [raise MessageBusError(code, data)] or [return reply.get('result')]. *)
Definition call_outcome `{library} (reply : message) : pyresult json :=
  match reply !! "error" with
  | Some (JDict d) =>
      match d !! "code" with
      | Some code =>
          Raise (StructuredError
                   (MessageBusError code (Some (default JNull (d !! "data")))))
      | None => Raise KeyError
      end
  | Some _ => Raise TypeError
  | None => Return (default JNull (reply !! "result"))
  end.

(** [MessageBusServer], with the connection and waiter objects it
    refers to; [connections] lists connections by identity. *)
Record server : Type := {
  server_handler : registry;
  server_tracefile : option string;
  server_callbacks : list nat;
  connections : list nat;
  client_count : Z;
  objects : gmap nat conn;
  waiters : gmap nat waiter
}.

Definition set_connections (v : list nat) (s : server) : server :=
  Build_server (server_handler s) (server_tracefile s) (server_callbacks s)
    v (client_count s) (objects s) (waiters s).

Definition set_client_count (v : Z) (s : server) : server :=
  Build_server (server_handler s) (server_tracefile s) (server_callbacks s)
    (connections s) v (objects s) (waiters s).

Definition set_objects (v : gmap nat conn) (s : server) : server :=
  Build_server (server_handler s) (server_tracefile s) (server_callbacks s)
    (connections s) (client_count s) v (waiters s).

Definition set_waiters (v : gmap nat waiter) (s : server) : server :=
  Build_server (server_handler s) (server_tracefile s) (server_callbacks s)
    (connections s) (client_count s) (objects s) v.

(** What the server and its connections do to their surroundings. *)
Inductive server_event : Type :=
  | conn_event (i : nat) (e : event)
  | server_lifecycle (callback : nat) (name : string).

(** [__init__] *)
Definition server_init (h : registry) : server :=
  {| server_handler := h; server_tracefile := None; server_callbacks := [];
     connections := []; client_count := 0; objects := ∅; waiters := ∅ |}.

(** The lifecycle callback that [handle_connection] registers on every
    connection, [self._connection_event]. *)
Definition _connection_event_id : nat := 0%nat.

(** A new object identity. *)
Definition fresh {A} (m : gmap nat A) : nat :=
  S (foldr Nat.max 0%nat (fst <$> map_to_list m)).

(** [connections.remove(i)] *)
Fixpoint list_remove (i : nat) (l : list nat) : list nat :=
  match l with
  | [] => []
  | j :: l => if Nat.eqb i j then l else j :: list_remove i l
  end.

Section Server.
Context `{library}.

(** [handle_connection(socket, address)] *)
Definition handle_connection (peer : string) (s : server) : server :=
  let i := fresh (objects s) in
  let connection := init (Some (server_handler s)) "server" peer in
  let connection := state_of (set_trace (server_tracefile s) connection) in
  let connection := state_of (add_callback _connection_event_id connection) in
  let s := set_objects (<[i := connection]> (objects s)) s in
  let s := set_connections (connections s ++ [i]) s in
  set_client_count (client_count s + 1) s.

Definition _run_callbacks (name : string) (s : server) : list server_event :=
  (fun callback => server_lifecycle callback name) <$> server_callbacks s.

(** [_connection_event(event, connection)] *)
Definition _connection_event (name : string) (i : nat) (s : server)
  : server * list server_event :=
  let s :=
    if String.eqb name "ConnectionClosed"
    then set_connections (list_remove i (connections s)) s else s in
  (s, _run_callbacks name s
      ++ match connections s with
         | [] => _run_callbacks "LastConnectionClosed" s
         | _ :: _ => []
         end).

(** What an effect of connection [i] sets off in the server: a reply
    handed to a [waiter.switch] wrapper reaches its waiter, and a
    lifecycle event reaches [_connection_event]. *)
Definition react (i : nat) (e : event) (s : server)
  : server * list server_event :=
  match e with
  | ev_reply (waiter_switch w) msg =>
      (set_waiters (alter (switch msg) w (waiters s)) s, [])
  | ev_lifecycle callback name =>
      if Nat.eqb callback _connection_event_id
      then _connection_event name i s else (s, [])
  | _ => (s, [])
  end.

Fixpoint react_all (i : nat) (evs : list event) (s : server)
  : server * list server_event :=
  match evs with
  | [] => (s, [])
  | e :: evs =>
      let (s, out) := react i e s in
      let (s, outs) := react_all i evs s in
      (s, conn_event i e :: out ++ outs)
  end.

(** One operation of connection [i]. *)
Definition on_connection (i : nat) (m : M unit) (s : server)
  : server * list server_event :=
  match objects s !! i with
  | None => (s, [])
  | Some c =>
      let r := m c in
      react_all i (events_of r) (set_objects (<[i := state_of r]> (objects s)) s)
  end.

(** [client is None or fnmatch(connection.peer_name, client)] *)
Definition matches (client : option string) (c : conn) : bool :=
  match client with
  | None => true
  | Some pattern => fnmatch (peer_name c) pattern
  end.

(** The loop of [MessageBusServer.call_method]:
    [connection.call_method(name, *args, **kwargs)] on every matching
    connection, with the one callback in [kwargs]. *)
Fixpoint call_each (client : option string) (name : string)
    (args : list json) (callback : reply_callback) (timeout_kw : option Q)
    (ids : list nat) (s : server) : server * list server_event :=
  match ids with
  | [] => (s, [])
  | i :: ids =>
      match objects s !! i with
      | None => call_each client name args callback timeout_kw ids s
      | Some c =>
          if matches client c then
            let (s, out) :=
              on_connection i (call_method name args (Some callback) timeout_kw) s in
            let (s, outs) :=
              call_each client name args callback timeout_kw ids s in
            (s, out ++ outs)
          else call_each client name args callback timeout_kw ids s
      end
  end.

(** [MessageBusServer.call_method] up to the point where the caller is
    parked in [waiter.get()]; the value is the waiter to call
    [call_outcome] on. *)
Definition call_method_server (client : option string) (name : string)
    (args : list json) (timeout_kw : option Q) (s : server)
  : nat * server * list server_event :=
  let w := fresh (waiters s) in
  let s := set_waiters (<[w := Waiter]> (waiters s)) s in
  let (s, out) :=
    call_each client name args (waiter_switch w) timeout_kw (connections s) s in
  (w, set_waiters (alter waiter_get w (waiters s)) s, out).

(** [MessageBusConnection.call_method] without a [callback], up to the
    point where the caller is parked. *)
Definition call_method_blocking (i : nat) (method : string)
    (args : list json) (timeout_kw : option Q) (s : server)
  : nat * server * list server_event :=
  let w := fresh (waiters s) in
  let s := set_waiters (<[w := Waiter]> (waiters s)) s in
  let (s, out) :=
    on_connection i (call_method method args (Some (waiter_switch w)) timeout_kw) s in
  (w, set_waiters (alter waiter_get w (waiters s)) s, out).

(** What can happen to a server. *)
Inductive server_op : Type :=
  | accept (peer : string)
  | connection_op (i : nat) (o : op)
  | server_call (client : option string) (name : string) (args : list json)
      (timeout_kw : option Q)
  | blocking_call (i : nat) (method : string) (args : list json)
      (timeout_kw : option Q).

Definition server_step (o : server_op) (s : server)
  : server * list server_event :=
  match o with
  | accept peer => (handle_connection peer s, [])
  | connection_op i o => on_connection i (step o) s
  | server_call client name args timeout_kw =>
      let '(_, s, out) := call_method_server client name args timeout_kw s in
      (s, out)
  | blocking_call i method args timeout_kw =>
      let '(_, s, out) := call_method_blocking i method args timeout_kw s in
      (s, out)
  end.



End Server.

End Server.

(** ** The texts the scanner is meant for *)

Module Grammar.

Definition lbracket : ascii := "["%char.
Definition rbracket : ascii := "]"%char.
Definition comma : ascii := ","%char.
Definition colon : ascii := ":"%char.

(** JSON white space: space, TAB, LF, CR. *)
Definition json_ws (ch : ascii) : bool :=
  let n := N_of_ascii ch in ((n =? 32) || (n =? 9) || (n =? 10) || (n =? 13))%N.

(** The characters of numbers and of the literals [true], [false] and
    [null]: digits, letters, sign and point. *)
Definition scalar_char (ch : ascii) : bool :=
  let n := N_of_ascii ch in
  (((48 <=? n) && (n <=? 57)) || ((65 <=? n) && (n <=? 90))
   || ((97 <=? n) && (n <=? 122)) || (n =? 43) || (n =? 45) || (n =? 46))%N.

(** The inside of a string literal: characters other than the quote and
    the backslash, and backslash escapes.  (JSON allows fewer escapes and
    no control characters; every JSON string is of this form.) *)
Inductive json_chars : list ascii -> Prop :=
  | chars_nil : json_chars []
  | chars_plain ch s :
      ch <> dquote -> ch <> backslash -> json_chars s -> json_chars (ch :: s)
  | chars_escape ch s :
      json_chars s -> json_chars (backslash :: ch :: s).

(** The JSON grammar: values, and the object and array texts built from
    them, with white space allowed around every token. *)
Inductive json_value : list ascii -> Prop :=
  | value_scalar s :
      s <> [] -> forallb scalar_char s = true -> json_value s
  | value_string body :
      json_chars body -> json_value (dquote :: body ++ [dquote])
  | value_array_empty w :
      forallb json_ws w = true -> json_value (lbracket :: w ++ [rbracket])
  | value_array s :
      json_elements s -> json_value (lbracket :: s ++ [rbracket])
  | value_object o :
      json_object o -> json_value o
with json_element : list ascii -> Prop :=
  | element_intro w1 v w2 :
      forallb json_ws w1 = true -> json_value v -> forallb json_ws w2 = true ->
      json_element (w1 ++ v ++ w2)
with json_elements : list ascii -> Prop :=
  | elements_one e : json_element e -> json_elements e
  | elements_more e s :
      json_element e -> json_elements s -> json_elements (e ++ comma :: s)
with json_member : list ascii -> Prop :=
  | member_intro w1 key w2 e :
      forallb json_ws w1 = true -> json_chars key -> forallb json_ws w2 = true ->
      json_element e ->
      json_member (w1 ++ dquote :: key ++ dquote :: w2 ++ colon :: e)
with json_members : list ascii -> Prop :=
  | members_one m : json_member m -> json_members m
  | members_more m s :
      json_member m -> json_members s -> json_members (m ++ comma :: s)
with json_object : list ascii -> Prop :=
  | object_empty w :
      forallb json_ws w = true -> json_object (lbrace :: w ++ [rbrace])
  | object_members s :
      json_members s -> json_object (lbrace :: s ++ [rbrace]).

Scheme json_value_ind' := Minimality for json_value Sort Prop
  with json_element_ind' := Minimality for json_element Sort Prop
  with json_elements_ind' := Minimality for json_elements Sort Prop
  with json_member_ind' := Minimality for json_member Sort Prop
  with json_members_ind' := Minimality for json_members Sort Prop
  with json_object_ind' := Minimality for json_object Sort Prop.

Combined Scheme json_text_ind from json_value_ind', json_element_ind',
  json_elements_ind', json_member_ind', json_members_ind', json_object_ind'.

(** What the scanner sees of a text: characters that are neither brace
    nor quote, string literals, and brace pairs around such texts. *)
Inductive balanced : list ascii -> Prop :=
  | balanced_nil : balanced []
  | balanced_char ch s :
      ch <> lbrace -> ch <> rbrace -> ch <> dquote -> balanced s ->
      balanced (ch :: s)
  | balanced_string body s :
      json_chars body -> balanced s -> balanced (dquote :: body ++ dquote :: s)
  | balanced_braces b s :
      balanced b -> balanced s -> balanced (lbrace :: b ++ rbrace :: s).

End Grammar.

(** ** A small library instance to run the definitions on *)

Module Sample.
Import Bus Server.

(** Writes a text with ['] standing for the double quote. *)
Definition text (s : string) : list ascii :=
  (fun ch => if Ascii.eqb ch "'"%char then dquote else ch)
    <$> list_ascii_of_string s.

Definition frame_bare : list ascii := text "{'jsonrpc': '2.0'}".
Definition frame_old : list ascii := text "{'jsonrpc': '1.0', 'id': 1, 'method': 'echo'}".
Definition frame_request : list ascii :=
  text "{'jsonrpc': '2.0', 'id': 1, 'method': 'echo', 'params': ['hi']}".
Definition frame_reply : list ascii :=
  text "{'jsonrpc': '2.0', 'id': 1, 'result': 'hi'}".
Definition frame_late_reply : list ascii :=
  text "{'jsonrpc': '2.0', 'id': 7, 'result': 'hi'}".

Definition bare : message := {[ "jsonrpc" := JStr "2.0" ]}.
Definition request : message :=
  <["params" := JList [JStr "hi"]]>
    (<["method" := JStr "echo"]> (<["id" := JInt 1]> bare)).
Definition reply : message :=
  <["result" := JStr "hi"]> (<["id" := JInt 1]> bare).
Definition late_reply : message :=
  <["result" := JStr "hi"]> (<["id" := JInt 7]> bare).

(** A decoder that knows the frames above. *)
Definition loads (frame : list ascii) : option json :=
  if bool_decide (frame = frame_bare) then Some (JDict bare)
  else if bool_decide (frame = frame_old) then
    Some (JDict (<["method" := JStr "echo"]>
                  (<["id" := JInt 1]> {[ "jsonrpc" := JStr "1.0" ]})))
  else if bool_decide (frame = frame_request) then Some (JDict request)
  else if bool_decide (frame = frame_reply) then Some (JDict reply)
  else if bool_decide (frame = frame_late_reply) then Some (JDict late_reply)
  else None.

(** An encoder that writes the keys of the message. *)
Definition dumps (m : message) : list ascii :=
  list_ascii_of_string (String.concat "," (fst <$> map_to_list m)).

#[local] Instance sample_library : library :=
  {| json_loads := loads;
     json_dumps := dumps;
     fnmatch := fun name pattern => String.eqb pattern "*" || String.eqb name pattern;
     omitted_error_message := JNull |}.

(** A registry with [def echo(self, x): return x]. *)
Definition echo : handler_fn :=
  {| h_callable := true;
     h_spec := {| spec_args := 2; spec_defaults := 0; spec_varargs := false |};
     h_call := fun args =>
       {| run_actions := [];
          run_end := handler_returns (default JNull (head args)) |} |}.

Definition echo_registry : registry :=
  {| methods := {[ "echo" := echo ]}; signal_handlers := ∅ |}.

(** *** Scenarios *)

(** A connection with two lifecycle callbacks. *)
Definition watched : conn :=
  state_of (add_callback 2 (state_of (add_callback 1 (init None "server" "peer")))).

(** A burst of 101 frames, then one [pop_incoming]: the queue is back
    at the limit and the read watch is still off. *)
Definition burst : list ascii := concat (replicate 101 frame_bare).

Definition throttled : conn :=
  fst (run [op_do_read [recv_data burst]; op_pop_incoming]
           (init None "server" "peer")).


(** A frame with only [jsonrpc] in it arrives and is dispatched. *)
Definition shapeless : conn :=
  fst (run [op_do_read [recv_data frame_bare]; op_run_callback;
            op_run_callback]
           (init (Some echo_registry) "server" "peer")).

(** A call is made; its timer fires; and a reply with another
    identifier arrives. *)
Definition calling : conn :=
  state_of (call_method "ping" [] (Some (user_callback 0)) None
              (init None "server" "peer")).




(** The echo request without its arguments, and for a method that does
    not exist. *)
Definition request_without_params : message := delete "params" request.
Definition request_unknown : message := <["method" := JStr "nope"]> request.

End Sample.

(** ** What is observed of a connection *)

Module Views.
Import Bus.

#[global] Instance reply_callback_eq_dec : EqDecision reply_callback.
Proof. solve_decision. Defined.

(** The lifecycle callbacks that were told [ConnectionClosed], in the
    order in which they were called. *)
Fixpoint closed_events (evs : list event) : list nat :=
  match evs with
  | [] => []
  | ev_lifecycle callback nm :: evs =>
      if String.eqb nm "ConnectionClosed"
      then callback :: closed_events evs else closed_events evs
  | _ :: evs => closed_events evs
  end.

(** The replies handed to reply callbacks, in order. *)
Fixpoint replies (evs : list event) : list (reply_callback * message) :=
  match evs with
  | [] => []
  | ev_reply callback msg :: evs => (callback, msg) :: replies evs
  | _ :: evs => replies evs
  end.

(** The call a response belongs to: the integer its [id] hashes to. *)
Definition message_call (m : message) : option Z :=
  match m !! "id" with
  | Some v =>
      match hash_key v with
      | Return (key_int z) => Some z
      | _ => None
      end
  | None => None
  end.

(** [f] is the closure of call [k] made with callback [cb]. *)
Definition call_of (k : Z) (cb : reply_callback) (f : method_return_callback)
  : bool :=
  (mrc_id f =? k) && bool_decide (mrc_callback f = cb).

(** Call [k] with callback [cb] is outstanding in the call table. *)
Definition in_table (k : Z) (cb : reply_callback) (c : conn) : nat :=
  match method_calls c !! k with
  | Some f => if call_of k cb f then 1 else 0
  | None => 0
  end.

(** The replies to call [k] that wait in the hub's callback queue. *)
Fixpoint queued (k : Z) (cb : reply_callback) (q : list loop_callback) : nat :=
  match q with
  | [] => 0
  | run_method_return f _ :: q =>
      ((if call_of k cb f then 1 else 0) + queued k cb q)%nat
  | _ :: q => queued k cb q
  end.

(** The deliveries to [cb] for call [k]. *)
Fixpoint delivered (k : Z) (cb : reply_callback) (evs : list event) : nat :=
  match evs with
  | [] => 0
  | ev_reply cb' msg :: evs =>
      ((if bool_decide (cb' = cb) && bool_decide (message_call msg = Some k)
        then 1 else 0) + delivered k cb evs)%nat
  | _ :: evs => delivered k cb evs
  end.

Section Counting.
Context `{library}.

(** The identifiers that the [call_method]s of a history were given. *)
Fixpoint allocated (ops : list op) (c : conn) : list Z :=
  match ops with
  | [] => []
  | o :: ops =>
      match o with
      | op_call_method _ _ _ _ => [next_serial c]
      | _ => []
      end ++ allocated ops (state_of (step o c))
  end.

(** How often a history registered callback [cb] under identifier [k]. *)
Fixpoint registered (k : Z) (cb : reply_callback) (ops : list op) (c : conn)
  : nat :=
  match ops with
  | [] => 0
  | o :: ops =>
      (match o with
       | op_call_method _ _ (Some cb') _ =>
           if (next_serial c =? k)%Z && bool_decide (cb' = cb) then 1 else 0
       | _ => 0
       end + registered k cb ops (state_of (step o c)))%nat
  end.

End Counting.

(** The call table, the timers and the reply queue fit together: an
    outstanding entry is stored under its own identifier and its timer
    is started; a started timer knows its own name and, if its call is
    outstanding, runs the entry of that call; a queued reply belongs to
    a call that has left the table, and carries that call's identifier. *)
Record call_inv (c : conn) : Prop := {
  serial_pos : 1 <= next_serial c;
  table_ok : forall k f, method_calls c !! k = Some f ->
    mrc_id f = k /\ 1 <= k < next_serial c
    /\ exists d, hub_timers c !! mrc_timer f
                 = Some {| timer_delay := d; timer_callback := f |};
  timers_ok : forall t tm, hub_timers c !! t = Some tm ->
    mrc_timer (timer_callback tm) = t /\ (t < next_timer c)%nat
    /\ mrc_id (timer_callback tm) < next_serial c
    /\ forall g, method_calls c !! mrc_id (timer_callback tm) = Some g ->
                 g = timer_callback tm;
  queue_ok : forall f m, run_method_return f m ∈ hub_callbacks c ->
    method_calls c !! mrc_id f = None
    /\ mrc_id f < next_serial c /\ (mrc_timer f < next_timer c)%nat
    /\ message_call m = Some (mrc_id f)
    /\ forall tm, hub_timers c !! mrc_timer f = Some tm ->
                  timer_callback tm = f
}.

(** Flow control on an open connection: the [_reading] flag follows the
    read watch; the watch is off only while the queue holds at least
    [max_incoming_messages]; and a queue above the limit has the watch
    off, unless the scanner rejects the buffer. *)
Definition flow_inv (c : conn) : Prop :=
  closed c = false ->
  _reading c = _read_event c
  /\ (_read_event c = false ->
      max_incoming_messages c <= Z.of_nat (length (_incoming c)))
  /\ (max_incoming_messages c < Z.of_nat (length (_incoming c)) ->
      _read_event c = false
      \/ Scanner.find_message_end (_inbuf c) = Raise ValueError).

(** The replies that wait in the hub's callback queue. *)
Fixpoint returns (q : list loop_callback)
  : list (method_return_callback * message) :=
  match q with
  | [] => []
  | run_method_return f m :: q => (f, m) :: returns q
  | _ :: q => returns q
  end.

(** *** Relations between the two ends of a computation *)

(** [m] takes every connection to one that is [R]-related to it. *)
Definition respects (R : conn -> conn -> list event -> Prop) {A} (m : M A)
  : Prop :=
  forall c, R c (state_of (m c)) (events_of (m c)).

(** Life cycle: callbacks are only added; a closed connection stays
    closed and tells nobody again; an open one either stays open and
    silent, or closes and tells the callbacks registered by then. *)
Definition life_step (c c' : conn) (evs : list event) : Prop :=
  callbacks c `prefix_of` callbacks c'
  /\ (closed c = true -> closed c' = true /\ closed_events evs = [])
  /\ (closed c = false ->
      (closed c' = false /\ closed_events evs = [])
      \/ (closed c' = true
          /\ callbacks c `prefix_of` closed_events evs
          /\ closed_events evs `prefix_of` callbacks c')).

(** Nothing that concerns the outstanding calls has moved. *)
Definition call_step (c c' : conn) (evs : list event) : Prop :=
  next_serial c' = next_serial c
  /\ method_calls c' = method_calls c
  /\ hub_timers c' = hub_timers c
  /\ next_timer c' = next_timer c
  /\ returns (hub_callbacks c') = returns (hub_callbacks c)
  /\ replies evs = [].

(** Nothing that concerns flow control has moved, unless the connection
    was closed. *)
Definition flow_step (c c' : conn) (evs : list event) : Prop :=
  max_incoming_messages c' = max_incoming_messages c
  /\ (closed c' = true
      \/ (closed c' = closed c
          /\ _read_event c' = _read_event c
          /\ _reading c' = _reading c
          /\ _incoming c' = _incoming c
          /\ _inbuf c' = _inbuf c)).

(** The relations that the parts of the connection respect together. *)
Definition base_step (c c' : conn) (evs : list event) : Prop :=
  life_step c c' evs /\ call_step c c' evs /\ flow_step c c' evs.

Definition wire_step (c c' : conn) (evs : list event) : Prop :=
  life_step c c' evs /\ call_step c c' evs.

Definition table_step (c c' : conn) (evs : list event) : Prop :=
  life_step c c' evs /\ flow_step c c' evs.

(** Flow control stays as it should. *)
Definition flow_ok (c c' : conn) (evs : list event) : Prop :=
  max_incoming_messages c' = max_incoming_messages c
  /\ (flow_inv c -> flow_inv c').

(** The outstanding calls stay as they should, and every call is still
    where it was or has moved on: from the table to the queue, or from
    either to its callback. *)
Definition call_ok (c c' : conn) (evs : list event) : Prop :=
  call_inv c ->
  call_inv c'
  /\ next_serial c' = next_serial c
  /\ forall k cb,
       (in_table k cb c' + queued k cb (hub_callbacks c') + delivered k cb evs
        = in_table k cb c + queued k cb (hub_callbacks c))%nat.

End Views.

(** ** The streams through a connection *)

Module Streams.
Import Bus.


(** [frame] is one frame: the scanner finds its end at its last
    character. *)
Definition complete_frame (frame : list ascii) : bool :=
  match Scanner.find_message_end frame with
  | Return k => (0 <=? k) && (k =? Z.of_nat (length frame) - 1)
  | Raise _ => false
  end.

(** The messages written to the trace file, inbound or outbound. *)
Fixpoint traced (incoming : bool) (evs : list event) : list (list ascii) :=
  match evs with
  | [] => []
  | ev_trace msg inc :: evs =>
      if Bool.eqb inc incoming then msg :: traced incoming evs
      else traced incoming evs
  | _ :: evs => traced incoming evs
  end.

(** What a run of the read pump has done to a connection [c]: it has
    taken the chunks [chunks] from the socket and queued the frames
    [new]. *)
Definition pumped (c : conn) (chunks new : list (list ascii)) (c' : conn)
    (evs : list event) : Prop :=
  _incoming c' = _incoming c ++ new
  /\ concat new ++ _inbuf c' = _inbuf c ++ concat chunks
  /\ Forall (fun f => complete_frame f = true) new
  /\ traced true evs = match tracefile c with Some _ => new | None => [] end
  /\ traced false evs = []
  /\ tracefile c' = tracefile c
  /\ max_message_size c' = max_message_size c.

(** The buffer between two runs of the read pump: the scanner finds no
    frame in it, or rejects it; and on an open connection it is no
    longer than [max_message_size], unless the scanner rejects it. *)
Definition residue (c : conn) : Prop :=
  (Scanner.find_message_end (_inbuf c) = Return (-1)
   \/ Scanner.find_message_end (_inbuf c) = Raise ValueError)
  /\ (closed c = false ->
      Z.of_nat (length (_inbuf c)) <= max_message_size c
      \/ Scanner.find_message_end (_inbuf c) = Raise ValueError).

(** The inbound side is left alone, but for messages taken off the
    front of the queue. *)
Definition in_frame (c c' : conn) (evs : list event) : Prop :=
  _inbuf c' = _inbuf c
  /\ max_message_size c' = max_message_size c
  /\ _incoming c' `suffix_of` _incoming c.

(** The inbound side between two operations: every queued message is
    one complete frame, and the buffer is what the read pump leaves. *)
Definition read_inv (c : conn) : Prop :=
  Forall (fun f => complete_frame f = true) (_incoming c) /\ residue c.

(** What a run of the read pump comes to. *)
Definition read_outcome (c : conn) (recvs : list recv_result)
    (r : pyresult unit * conn * list event) : Prop :=
  exists chunks rest new,
    recvs = (recv_data <$> chunks) ++ rest
    /\ pumped c chunks new (state_of r) (events_of r)
    /\ residue (state_of r)
    /\ (result_of r = Return tt
        \/ result_of r = Raise ValueError
        \/ result_of r = Raise UnicodeDecodeError).

End Streams.

(** *** The outbound side *)

Module Outbound.
Import Bus Streams.

(** The characters still to be written: the rest of the message being
    sent, then the queued messages. *)
Definition pending (c : conn) : list ascii := _outbuf c ++ concat (_outgoing c).

(** The characters that the socket took: of every buffer offered to
    [send], the part that the call accepted. *)
Fixpoint transmitted (evs : list event) (sends : list send_result)
  : list ascii :=
  match evs with
  | [] => []
  | ev_send data :: evs =>
      match sends with
      | send_ok nbytes :: sends => take nbytes data ++ transmitted evs sends
      | _ => []
      end
  | _ :: evs => transmitted evs sends
  end.

(** What a run of the write pump comes to. *)
Definition write_outcome (c : conn) (sends : list send_result)
    (r : pyresult unit * conn * list event) : Prop :=
  exists moved,
    _outgoing c = moved ++ _outgoing (state_of r)
    /\ transmitted (events_of r) sends ++ pending (state_of r) = pending c
    /\ traced false (events_of r)
       = match tracefile c with Some _ => moved | None => [] end
    /\ traced true (events_of r) = []
    /\ result_of r = Return tt
    /\ tracefile (state_of r) = tracefile c
    /\ _writing (state_of r) = _writing c
    /\ (closed (state_of r) = false ->
        closed c = false
        /\ _write_event (state_of r) = _write_event c
        /\ _read_event (state_of r) = _read_event c
        /\ (Forall (fun m => m <> []) (_outgoing c) ->
            _outbuf (state_of r) = [] -> _outgoing (state_of r) = []))
    /\ (closed c = true -> state_of r = set_outbuf (_outbuf (state_of r))
                                          (set_outgoing (_outgoing (state_of r)) c))
    /\ (closed c = false -> closed (state_of r) = true ->
        _write_event (state_of r) = false /\ _read_event (state_of r) = false).

(** A closed connection watches its socket no more. *)
Definition quiet_inv (c : conn) : Prop :=
  closed c = true -> _read_event c = false /\ _write_event c = false.

(** On an open connection the [_writing] flag follows the write watch,
    no queued message is empty, and the watch is on while there is
    something to write. *)
Definition write_inv (c : conn) : Prop :=
  closed c = false ->
  _writing c = _write_event c
  /\ Forall (fun m => m <> []) (_outgoing c)
  /\ (_outbuf c <> [] \/ _outgoing c <> [] -> _write_event c = true).

Definition quiet_ok (c c' : conn) (evs : list event) : Prop :=
  quiet_inv c -> quiet_inv c'.

Definition write_ok (c c' : conn) (evs : list event) : Prop :=
  write_inv c -> write_inv c'.

End Outbound.

(** *** One message at an idle connection *)

Module Arrivals.
Import Bus Streams.

(** A connection with nothing under way on its inbound side. *)
Definition idle (c : conn) : Prop :=
  closed c = false /\ _inbuf c = [] /\ _incoming c = [] /\ hub_callbacks c = []
  /\ 0 <= max_message_size c /\ 1 <= max_incoming_messages c
  /\ _reading c = true.

(** What one frame for an idle connection causes at the socket and in
    the trace file. *)
Definition arrival (c : conn) (frame : list ascii) : list event :=
  [ev_recv]
  ++ match tracefile c with Some _ => [ev_trace frame true] | None => [] end
  ++ [ev_recv].

Section Carried.
Context `{library}.

(** [frame] holds the request or signal [m]. *)
Definition carries (frame : list ascii) (m : message) : Prop :=
  try_loads frame = Some m /\ check_message m = true
  /\ has_key m "result" = false /\ has_key m "error" = false.

End Carried.

End Arrivals.

(** ** What a handler answers early *)

Module Replies.
Import Bus.

(** The values that a handler body passes to [early_response]. *)
Fixpoint early_values (actions : list handler_action) : list json :=
  match actions with
  | [] => []
  | early_response_action value :: actions => value :: early_values actions
  | delay_response_action :: actions => early_values actions
  end.

End Replies.

(** ** The other operations of the server *)

Module ServerOps.
Import Bus Server.

Definition set_server_tracefile (v : option string) (s : server) : server :=
  Build_server (server_handler s) v (server_callbacks s) (connections s)
    (client_count s) (objects s) (waiters s).

Definition set_server_callbacks (v : list nat) (s : server) : server :=
  Build_server (server_handler s) (server_tracefile s) v (connections s)
    (client_count s) (objects s) (waiters s).

(** The elements at the odd positions of a list: the second, the
    fourth, and so on. *)
Fixpoint odds {A} (l : list A) : list A :=
  match l with
  | [] => []
  | _ :: l =>
      match l with
      | [] => []
      | b :: l' => b :: odds l'
      end
  end.

Section ServerOps.
Context `{library}.

(** [MessageBusServer.set_trace] *)
Definition server_set_trace (file : option string) (s : server) : server :=
  let s := set_server_tracefile file s in
  foldl (fun s i => (on_connection i (set_trace file) s).1) s (connections s).

(** [MessageBusServer.add_callback] *)
Definition server_add_callback (callback : nat) (s : server) : server :=
  set_server_callbacks (server_callbacks s ++ [callback]) s.

(** The loop of [get_client]. *)
Fixpoint get_client_loop (name : string) (ids : list nat) (s : server)
  : option nat :=
  match ids with
  | [] => None
  | i :: ids =>
      match objects s !! i with
      | Some c =>
          if fnmatch (peer_name c) name then Some i
          else get_client_loop name ids s
      | None => get_client_loop name ids s
      end
  end.

(** [MessageBusServer.get_client]: the connection, or [None]. *)
Definition get_client (name : string) (s : server) : option nat :=
  get_client_loop name (connections s) s.

(** The loop of [MessageBusServer.send_signal]. *)
Fixpoint signal_each (client : option string) (name : string)
    (args : list json) (ids : list nat) (s : server)
  : server * list server_event :=
  match ids with
  | [] => (s, [])
  | i :: ids =>
      match objects s !! i with
      | None => signal_each client name args ids s
      | Some c =>
          if matches client c then
            let (s, out) := on_connection i (send_signal name args) s in
            let (s, outs) := signal_each client name args ids s in
            (s, out ++ outs)
          else signal_each client name args ids s
      end
  end.

(** [MessageBusServer.send_signal] *)
Definition server_send_signal (client : option string) (name : string)
    (args : list json) (s : server) : server * list server_event :=
  signal_each client name args (connections s) s.

(** The loop of [stop], [for connection in self.connections:
    connection.close()]: the iterator of a Python list holds an index,
    and at every pass takes the element that the list has at that index
    by then; it stops when the index is past the end.  A pass that does
    not shorten the list moves on by one element, so [length] of the
    list bounds the number of passes. *)
Fixpoint stop_loop (fuel : nat) (index : nat) (s : server)
  : server * list server_event :=
  match fuel with
  | O => (s, [])
  | S fuel =>
      match connections s !! index with
      | None => (s, [])
      | Some i =>
          let (s, out) := on_connection i close s in
          let (s, outs) := stop_loop fuel (S index) s in
          (s, out ++ outs)
      end
  end.

(** [MessageBusServer.stop]; the [stop] of [StreamServer], which it
    calls first, closes the listening socket and leaves the server
    object alone. *)
Definition stop (s : server) : server * list server_event :=
  stop_loop (length (connections s)) 0 s.

(** What the owner of a server can ask of it. *)
Inductive command : Type :=
  | serve (o : server_op)
  | ask_set_trace (file : option string)
  | ask_add_callback (callback : nat)
  | ask_send_signal (client : option string) (name : string)
      (args : list json)
  | ask_stop.

Definition serve_step (r : command) (s : server)
  : server * list server_event :=
  match r with
  | serve o => server_step o s
  | ask_set_trace file => (server_set_trace file s, [])
  | ask_add_callback callback => (server_add_callback callback s, [])
  | ask_send_signal client name args => server_send_signal client name args s
  | ask_stop => stop s
  end.

Fixpoint serve_run (rs : list command) (s : server)
  : server * list server_event :=
  match rs with
  | [] => (s, [])
  | r :: rs =>
      let (s, out) := serve_step r s in
      let (s, outs) := serve_run rs s in
      (s, out ++ outs)
  end.

End ServerOps.

(** The server's own [_connection_event] is registered on a connection
    by [handle_connection], and by nobody else. *)
Definition tame_op (o : op) : bool :=
  match o with
  | op_add_callback callback => negb (Nat.eqb callback _connection_event_id)
  | _ => true
  end.

Definition tame (r : command) : bool :=
  match r with
  | serve (connection_op _ o) => tame_op o
  | _ => true
  end.

(** How many connections a history accepted. *)
Fixpoint accepted (rs : list command) : nat :=
  match rs with
  | [] => 0
  | serve (accept _) :: rs => S (accepted rs)
  | _ :: rs => accepted rs
  end.

(** The lifecycle events that the server's callbacks were told, in
    order. *)
Fixpoint server_lifecycles (out : list server_event) : list (nat * string) :=
  match out with
  | [] => []
  | server_lifecycle callback name :: out =>
      (callback, name) :: server_lifecycles out
  | _ :: out => server_lifecycles out
  end.

(** How often the server's [_connection_event] is among the callbacks
    of a connection. *)
Definition hooks (c : conn) : nat :=
  length (filter (fun callback => callback = _connection_event_id) (callbacks c)).

(** A step of a connection that leaves the registration of the
    server's callback alone, and tells callbacks of nothing but
    [ConnectionClosed]. *)
Definition hook_step (c c' : conn) (evs : list event) : Prop :=
  hooks c' = hooks c
  /\ Forall (fun e => match e with
                      | ev_lifecycle _ nm => nm = "ConnectionClosed"%string
                      | _ => True
                      end) evs.

(** The events that a connection's lifecycle sent to the server's
    [_connection_event], in order. *)
Fixpoint hook_events (evs : list event) : list string :=
  match evs with
  | [] => []
  | ev_lifecycle callback nm :: evs =>
      if Nat.eqb callback _connection_event_id then nm :: hook_events evs
      else hook_events evs
  | _ :: evs => hook_events evs
  end.

(** The server and its connections fit together: the list holds every
    open connection once, and no other; and every connection has the
    server's callback registered once. *)
Record server_inv (s : server) : Prop := {
  listed_once : NoDup (connections s);
  listed_open : forall i,
    i ∈ connections s <-> exists c, objects s !! i = Some c /\ closed c = false;
  hooked_once : forall i c, objects s !! i = Some c -> hooks c = 1%nat
}.

End ServerOps.

(** ** Two connected ends *)

Module Exchange.
Import Bus Streams Outbound Arrivals.

Section Exchange.
Context `{library}.

(** The write pump with a socket that takes all it is offered in one
    call and then would block: the connection afterwards, what went
    out, and the effects. *)
Definition flush (c : conn) : conn * list ascii * list event :=
  let sends := [send_ok (length (pending c))] in
  let r := _do_write sends c in
  (state_of r, transmitted (events_of r) sends, events_of r).

(** The read pump is given [data] in one chunk, and the hub then runs
    two callbacks. *)
Definition hear (data : list ascii) (c : conn) : conn * list event :=
  run [op_do_read [recv_data data]; op_run_callback; op_run_callback] c.

(** A call from connection [a] to its peer [b], and back: [a] makes the
    call and writes it out, [b] reads it and writes out what it has to
    say, and [a] reads that. *)
Definition round_trip (a b : conn) (method : string) (args : list json)
    (cb : reply_callback) (timeout_kw : option Q)
  : conn * conn * list event * list event :=
  let r0 := call_method method args (Some cb) timeout_kw a in
  let '(a1, sent, e1) := flush (state_of r0) in
  let '(b1, e2) := hear sent b in
  let '(b2, back, e3) := flush b1 in
  let '(a2, e4) := hear back a1 in
  (a2, b2, events_of r0 ++ e1 ++ e4, e2 ++ e3).

(** The library's encoder and decoder agree on message [m]: what is
    written for [m] is one frame of ASCII characters that reads back as
    [m]. *)
Definition codec (m : message) : Prop :=
  try_loads (json_dumps m) = Some m
  /\ complete_frame (json_dumps m) = true
  /\ decode_ascii (json_dumps m) = Return (json_dumps m).

End Exchange.
End Exchange.

(** ** More scenarios *)

Module Scenarios.
Import Bus Server Sample Streams Outbound Arrivals ServerOps Exchange.

(** A response that names no call. *)
Definition frame_orphan : list ascii := text "{'jsonrpc': '2.0', 'result': 'hi'}".
Definition orphan : message := <["result" := JStr "hi"]> bare.

Definition request_number : message := <["params" := JInt 5]> request.

(** A library whose encoder writes the frames that the sample decoder
    reads. *)
Definition framed_dumps (m : message) : list ascii :=
  if has_key m "method" then frame_request
  else if has_key m "result" then frame_reply
  else frame_bare.

Definition framed_loads (frame : list ascii) : option json :=
  if bool_decide (frame = frame_orphan) then Some (JDict orphan)
  else loads frame.

#[local] Instance framed_library : library :=
  {| json_loads := framed_loads;
     json_dumps := framed_dumps;
     fnmatch := fun name pattern => String.eqb pattern "*" || String.eqb name pattern;
     omitted_error_message := JNull |}.

(** A handler that answers early and then fails, and one for signals. *)
Definition hasty : handler_fn :=
  {| h_callable := true;
     h_spec := {| spec_args := 2; spec_defaults := 0; spec_varargs := false |};
     h_call := fun args =>
       {| run_actions := [early_response_action (JStr "soon")];
          run_end := handler_raises_other |} |}.

Definition hasty_registry : registry :=
  {| methods := {[ "echo" := hasty ]}; signal_handlers := {[ "echo" := hasty ]} |}.

(** A connection whose buffer holds a stray character. *)
Definition wedged : conn :=
  state_of (_do_read [recv_data (text "x")] (init None "server" "peer")).

(** A connection with one message to write. *)
Definition loaded : conn :=
  state_of (push_outgoing bare (init None "server" "peer")).


(** A connection with two requests in its queue. *)
Definition busy : conn :=
  state_of (_do_read [recv_data (frame_request ++ frame_request)]
              (init (Some echo_registry) "server" "peer")).

(** The two ends of a call. *)
Definition caller : conn := init None "client" "server".
Definition callee : conn := init (Some echo_registry) "server" "client".

(** A connection that has read the start of a frame. *)
Definition halfway : conn :=
  fst (run [op_do_read [recv_data (text "{'jsonrpc'")]]
           (init None "server" "peer")).

(** The caller after its call. *)
Definition asked : conn :=
  state_of (call_method "echo" [JStr "hi"] (Some (user_callback 0)) None caller).

(** A server with three clients; one with two, of which the first has
    gone; and one with a callback and a single client. *)
Definition trio : list command :=
  [serve (accept "A"); serve (accept "B"); serve (accept "C")].

Definition left_one : list command :=
  [serve (accept "A"); serve (accept "B"); serve (connection_op 1 op_close)].

Definition watched_solo : list command :=
  [ask_add_callback 7; serve (accept "A")].

Definition served : server := (serve_run trio (server_init echo_registry)).1.

Definition first_client : conn := default callee (objects served !! 1%nat).

Definition sole_client : conn :=
  default callee
    (objects (serve_run watched_solo (server_init echo_registry)).1 !! 1%nat).

End Scenarios.


(** * Properties *)

(** ** The frame scanner *)

Module ScannerFacts.
Import Scanner Grammar.

Ltac list_len :=
  repeat first [rewrite length_app | progress cbn [length]]; lia.

Lemma isspace_not_lbrace ch : isspace ch = true -> Ascii.eqb ch lbrace = false.
Proof.
  intros Hs. destruct (Ascii.eqb_spec ch lbrace) as [->|]; [|reflexivity].
  vm_compute in Hs. discriminate.
Qed.

(** The scanner reads over leading white space. *)
Lemma scan_preamble_space ws : forall d i rest,
  forallb isspace ws = true ->
  scan s_preamble d i (ws ++ rest) = scan s_preamble d (i + Z.of_nat (length ws)) rest.
Proof.
  induction ws as [|ch ws IH]; intros d i rest Hws; simpl.
  - f_equal. lia.
  - simpl in Hws. apply andb_prop in Hws as [Hch Hws].
    rewrite (isspace_not_lbrace _ Hch), Hch. simpl.
    rewrite IH by assumption. f_equal. lia.
Qed.

(** Inside a string the scanner reads up to the closing quote. *)
Lemma scan_string body : json_chars body -> forall d i rest,
  d <> 0 ->
  scan s_string d i (body ++ dquote :: rest)
  = scan s_object d (i + Z.of_nat (length body) + 1) rest.
Proof.
  induction 1 as [|ch s Hq Hb _ IH|ch s _ IH]; intros d i rest Hd.
  - simpl. destruct (Z.eqb_spec d 0); [lia|]. f_equal. lia.
  - cbn [app scan scan_char].
    destruct (Ascii.eqb_spec ch dquote); [contradiction|].
    destruct (Ascii.eqb_spec ch backslash); [contradiction|].
    cbn [is_object andb]. rewrite IH by assumption.
    f_equal. cbn [length]. lia.
  - cbn [app scan scan_char]. 
    replace (Ascii.eqb backslash dquote) with false by reflexivity.
    replace (Ascii.eqb backslash backslash) with true by reflexivity.
    cbn [is_object andb scan scan_char]. rewrite IH by assumption.
    f_equal. cbn [length]. lia.
Qed.

(** At positive depth the scanner reads over a balanced text without
    returning. *)
Lemma scan_balanced b : balanced b -> forall d i rest,
  1 <= d ->
  scan s_object d i (b ++ rest) = scan s_object d (i + Z.of_nat (length b)) rest.
Proof.
  induction 1 as [|ch s Hl Hr Hq _ IH|body s Hbody _ IH|b s _ IHb _ IHs];
    intros d i rest Hd.
  - simpl. f_equal. lia.
  - cbn [app scan scan_char].
    destruct (Ascii.eqb_spec ch lbrace); [contradiction|].
    destruct (Ascii.eqb_spec ch rbrace); [contradiction|].
    destruct (Ascii.eqb_spec ch dquote); [contradiction|].
    cbn [is_object andb]. destruct (Z.eqb_spec d 0); [lia|].
    rewrite IH by assumption. f_equal. cbn [length]. lia.
  - cbn [app scan scan_char].
    replace (Ascii.eqb dquote lbrace) with false by reflexivity.
    replace (Ascii.eqb dquote rbrace) with false by reflexivity.
    replace (Ascii.eqb dquote dquote) with true by reflexivity.
    cbn [is_object andb]. rewrite <- app_assoc. cbn [app].
    rewrite scan_string by (assumption || lia).
    rewrite IH by assumption. f_equal. list_len.
  - cbn [app scan scan_char].
    replace (Ascii.eqb lbrace lbrace) with true by reflexivity.
    cbn [is_object andb]. destruct (Z.eqb_spec (d + 1) 0); [lia|].
    rewrite <- app_assoc. cbn [app].
    rewrite IHb by lia. cbn [scan scan_char].
    replace (Ascii.eqb rbrace lbrace) with false by reflexivity.
    replace (Ascii.eqb rbrace rbrace) with true by reflexivity.
    cbn [is_object andb]. destruct (Z.eqb_spec (d + 1 - 1) 0); [lia|].
    replace (d + 1 - 1) with d by lia.
    rewrite IHs by assumption. f_equal. list_len.
Qed.

Lemma prefix_cons_cases {A} (p : list A) x l :
  p `prefix_of` x :: l -> p = [] \/ exists q, p = x :: q /\ q `prefix_of` l.
Proof.
  destruct p as [|y q]; [now left|]. intros Hp. right.
  pose proof (prefix_cons_inv_1 _ _ _ _ Hp) as ->.
  exists q. split; [reflexivity|]. exact (prefix_cons_inv_2 _ _ _ _ Hp).
Qed.

Lemma prefix_app_cases {A} (a : list A) : forall p b,
  p `prefix_of` a ++ b ->
  p `prefix_of` a \/ exists q, p = a ++ q /\ q `prefix_of` b.
Proof.
  induction a as [|x a IH]; intros p b Hp.
  - right. exists p. split; [reflexivity|assumption].
  - cbn [app] in Hp. apply prefix_cons_cases in Hp as [->|(q & -> & Hq)].
    + left. apply prefix_nil.
    + destruct (IH _ _ Hq) as [Hqa|(q' & -> & Hq')].
      * left. now apply prefix_cons.
      * right. exists q'. split; [reflexivity|assumption].
Qed.

(** Inside an unfinished string the scanner runs to the end of the
    buffer. *)
Lemma scan_string_prefix body : json_chars body -> forall p d i,
  p `prefix_of` body -> d <> 0 -> scan s_string d i p = Return (-1).
Proof.
  induction 1 as [|ch s Hq Hb _ IH|ch s _ IH]; intros p d i Hp Hd.
  - apply prefix_nil_inv in Hp as ->. reflexivity.
  - apply prefix_cons_cases in Hp as [->|(q & -> & Hq')]; [reflexivity|].
    cbn [scan scan_char].
    destruct (Ascii.eqb_spec ch dquote); [contradiction|].
    destruct (Ascii.eqb_spec ch backslash); [contradiction|].
    cbn [is_object andb]. now apply IH.
  - apply prefix_cons_cases in Hp as [->|(q & -> & Hq')]; [reflexivity|].
    cbn [scan scan_char].
    replace (Ascii.eqb backslash dquote) with false by reflexivity.
    replace (Ascii.eqb backslash backslash) with true by reflexivity.
    cbn [is_object andb].
    apply prefix_cons_cases in Hq' as [->|(q' & -> & Hq'')]; [reflexivity|].
    cbn [scan scan_char is_object andb]. now apply IH.
Qed.

(** At positive depth the scanner runs to the end of any beginning of
    a balanced text. *)
Lemma scan_balanced_prefix b : balanced b -> forall p d i,
  p `prefix_of` b -> 1 <= d -> scan s_object d i p = Return (-1).
Proof.
  induction 1 as [|ch s Hl Hr Hq _ IH|body s Hbody _ IH|b s Hb IHb _ IHs];
    intros p d i Hp Hd.
  - apply prefix_nil_inv in Hp as ->. reflexivity.
  - apply prefix_cons_cases in Hp as [->|(q & -> & Hq')]; [reflexivity|].
    cbn [scan scan_char].
    destruct (Ascii.eqb_spec ch lbrace); [contradiction|].
    destruct (Ascii.eqb_spec ch rbrace); [contradiction|].
    destruct (Ascii.eqb_spec ch dquote); [contradiction|].
    cbn [is_object andb]. destruct (Z.eqb_spec d 0); [lia|]. now apply IH.
  - apply prefix_cons_cases in Hp as [->|(q & -> & Hq')]; [reflexivity|].
    cbn [scan scan_char].
    replace (Ascii.eqb dquote lbrace) with false by reflexivity.
    replace (Ascii.eqb dquote rbrace) with false by reflexivity.
    replace (Ascii.eqb dquote dquote) with true by reflexivity.
    cbn [is_object andb].
    apply prefix_app_cases in Hq' as [Hin|(q' & -> & Hq'')].
    + apply scan_string_prefix with (body := body); [assumption..|lia].
    + apply prefix_cons_cases in Hq'' as [->|(q'' & -> & Hq3)].
      * apply scan_string_prefix with (body := body);
          [assumption|rewrite app_nil_r; reflexivity|lia].
      * rewrite scan_string by (assumption || lia). now apply IH.
  - apply prefix_cons_cases in Hp as [->|(q & -> & Hq')]; [reflexivity|].
    cbn [scan scan_char].
    replace (Ascii.eqb lbrace lbrace) with true by reflexivity.
    cbn [is_object andb]. destruct (Z.eqb_spec (d + 1) 0); [lia|].
    apply prefix_app_cases in Hq' as [Hin|(q' & -> & Hq'')].
    + apply IHb; [assumption|lia].
    + apply prefix_cons_cases in Hq'' as [->|(q'' & -> & Hq3)].
      * apply IHb; [rewrite app_nil_r; reflexivity|lia].
      * rewrite scan_balanced by (assumption || lia).
        cbn [scan scan_char].
        replace (Ascii.eqb rbrace lbrace) with false by reflexivity.
        replace (Ascii.eqb rbrace rbrace) with true by reflexivity.
        cbn [is_object andb]. destruct (Z.eqb_spec (d + 1 - 1) 0); [lia|].
        apply IHs; [assumption|lia].
Qed.

(** *** JSON texts are balanced *)

Lemma balanced_app a : balanced a -> forall b, balanced b -> balanced (a ++ b).
Proof.
  induction 1 as [|ch s Hl Hr Hq _ IH|body s Hbody _ IH|a s Ha IHa _ IHs];
    intros b Hb; cbn [app].
  - assumption.
  - apply balanced_char; auto.
  - rewrite <- app_assoc. cbn [app]. apply balanced_string; auto.
  - rewrite <- app_assoc. cbn [app]. apply balanced_braces; auto.
Qed.

Lemma balanced_ws w : forallb json_ws w = true -> balanced w.
Proof.
  induction w as [|ch w IH]; cbn [forallb]; intros Hw; [constructor|].
  apply andb_prop in Hw as [Hch Hw].
  apply balanced_char; auto; intros ->; vm_compute in Hch; discriminate.
Qed.

Lemma balanced_scalar s : forallb scalar_char s = true -> balanced s.
Proof.
  induction s as [|ch s IH]; cbn [forallb]; intros Hs; [constructor|].
  apply andb_prop in Hs as [Hch Hs].
  apply balanced_char; auto; intros ->; vm_compute in Hch; discriminate.
Qed.

Lemma balanced_punct ch s :
  ch = lbracket \/ ch = rbracket \/ ch = comma \/ ch = colon ->
  balanced s -> balanced (ch :: s).
Proof.
  intros Hch Hs. apply balanced_char; auto;
    intros ->; destruct Hch as [?|[?|[?|?]]]; discriminate.
Qed.

Lemma json_text_balanced :
  (forall s, json_value s -> balanced s)
  /\ (forall s, json_element s -> balanced s)
  /\ (forall s, json_elements s -> balanced s)
  /\ (forall s, json_member s -> balanced s)
  /\ (forall s, json_members s -> balanced s)
  /\ (forall s, json_object s ->
        exists b, balanced b /\ s = lbrace :: b ++ [rbrace]).
Proof.
  apply json_text_ind.
  - intros s _ Hs. now apply balanced_scalar.
  - intros body Hbody. apply balanced_string; [assumption|constructor].
  - intros w Hw. apply balanced_punct; [tauto|].
    apply balanced_app; [now apply balanced_ws|].
    apply balanced_punct; [tauto|constructor].
  - intros s _ Hs. apply balanced_punct; [tauto|].
    apply balanced_app; [assumption|].
    apply balanced_punct; [tauto|constructor].
  - intros o _ (b & Hb & ->). apply balanced_braces; [assumption|constructor].
  - intros w1 v w2 Hw1 _ Hv Hw2.
    apply balanced_app; [now apply balanced_ws|].
    apply balanced_app; [assumption|now apply balanced_ws].
  - intros e _ He. assumption.
  - intros e s _ He _ Hs. apply balanced_app; [assumption|].
    apply balanced_punct; [tauto|assumption].
  - intros w1 key w2 e Hw1 Hkey Hw2 _ He.
    apply balanced_app; [now apply balanced_ws|].
    apply balanced_string; [assumption|].
    apply balanced_app; [now apply balanced_ws|].
    apply balanced_punct; [tauto|assumption].
  - intros m _ Hm. assumption.
  - intros m s _ Hm _ Hs. apply balanced_app; [assumption|].
    apply balanced_punct; [tauto|assumption].
  - intros w Hw. exists w. split; [now apply balanced_ws|reflexivity].
  - intros s _ Hs. exists s. split; [assumption|reflexivity].
Qed.

Lemma json_object_balanced o :
  json_object o -> exists b, balanced b /\ o = lbrace :: b ++ [rbrace].
Proof. apply json_text_balanced. Qed.

(** *** Results of the scan *)

Lemma shift_result ch buf i (r : pyresult Z) :
  match r with
  | Return k =>
      k = -1
      \/ (i + 1 <= k < i + 1 + Z.of_nat (length buf)
          /\ buf !! Z.to_nat (k - (i + 1)) = Some rbrace)
  | Raise _ => False
  end ->
  match r with
  | Return k =>
      k = -1
      \/ (i <= k < i + Z.of_nat (length (ch :: buf))
          /\ (ch :: buf) !! Z.to_nat (k - i) = Some rbrace)
  | Raise _ => False
  end.
Proof.
  destruct r as [k|]; [|trivial]. intros [->|[Hr Hl]]; [now left|right].
  split; [cbn [length]; lia|].
  replace (Z.to_nat (k - i)) with (S (Z.to_nat (k - (i + 1)))) by lia.
  exact Hl.
Qed.

(** Past the opening brace the scanner never raises, and an index it
    returns is that of a closing brace in the part still to be read. *)
Lemma scan_inside buf : forall st d i,
  st <> s_preamble -> 1 <= d ->
  match scan st d i buf with
  | Return k =>
      k = -1
      \/ (i <= k < i + Z.of_nat (length buf)
          /\ buf !! Z.to_nat (k - i) = Some rbrace)
  | Raise _ => False
  end.
Proof.
  induction buf as [|ch buf IH]; intros st d i Hst Hd; [now left|].
  destruct st; [contradiction| | |]; cbn [scan scan_char].
  - destruct (Ascii.eqb_spec ch lbrace) as [->|].
    { cbn [is_object andb]. destruct (Z.eqb_spec (d + 1) 0); [lia|].
      apply shift_result, IH; [discriminate|lia]. }
    destruct (Ascii.eqb_spec ch rbrace) as [->|].
    { cbn [is_object andb]. destruct (Z.eqb_spec (d - 1) 0) as [Hz|Hz].
      - right. split; [cbn [length]; lia|].
        replace (i - i) with 0 by lia. reflexivity.
      - apply shift_result, IH; [discriminate|lia]. }
    destruct (Ascii.eqb_spec ch dquote) as [->|].
    { cbn [is_object andb]. apply shift_result, IH; [discriminate|lia]. }
    cbn [is_object andb]. destruct (Z.eqb_spec d 0); [lia|].
    apply shift_result, IH; [discriminate|lia].
  - destruct (Ascii.eqb ch dquote).
    { cbn [is_object andb]. destruct (Z.eqb_spec d 0); [lia|].
      apply shift_result, IH; [discriminate|lia]. }
    destruct (Ascii.eqb ch backslash); cbn [is_object andb];
      apply shift_result, IH; (discriminate || lia).
  - cbn [is_object andb]. apply shift_result, IH; [discriminate|lia].
Qed.

(** In the preamble the scanner raises at the first character that is
    neither white space nor the opening brace. *)
Lemma scan_preamble_cases buf : forall d i,
  match scan s_preamble d i buf with
  | Return k =>
      forallb isspace (preamble buf) = true
      /\ (k = -1
          \/ (i <= k < i + Z.of_nat (length buf)
              /\ buf !! Z.to_nat (k - i) = Some rbrace))
  | Raise e => e = ValueError /\ forallb isspace (preamble buf) = false
  end.
Proof.
  induction buf as [|ch buf IH]; intros d i; [now split; [|left]|].
  cbn [scan scan_char preamble].
  destruct (Ascii.eqb_spec ch lbrace) as [->|Hne].
  - cbn [is_object andb]. replace (1 =? 0) with false by reflexivity.
    pose proof (scan_inside buf s_object 1 (i + 1)) as Hin.
    specialize (Hin ltac:(discriminate) ltac:(lia)).
    apply (shift_result lbrace) in Hin.
    destruct (scan s_object 1 (i + 1) buf) as [k|]; [|contradiction].
    split; [reflexivity|exact Hin].
  - destruct (isspace ch) eqn:Hsp; cbn [negb forallb]; rewrite Hsp;
      [|now split].
    cbn [is_object andb]. specialize (IH d (i + 1)).
    destruct (scan s_preamble d (i + 1) buf) as [k|]; [|exact IH].
    destruct IH as [Hpre Hk]. split; [exact Hpre|].
    exact (shift_result ch buf i (Return k) Hk).
Qed.

(** C10: [find_message_end] is total; it returns, with -1 or the index
    of a closing brace inside the buffer, when every character in front
    of the first opening brace is white space, and raises [ValueError],
    and nothing else, when one of them is not. *)
Theorem find_message_end_safe (buf : list ascii) :
  match find_message_end buf with
  | Return i =>
      forallb isspace (preamble buf) = true
      /\ (i = -1
          \/ (0 <= i < Z.of_nat (length buf)
              /\ buf !! Z.to_nat i = Some rbrace))
  | Raise e => e = ValueError /\ forallb isspace (preamble buf) = false
  end.
Proof.
  unfold find_message_end. pose proof (scan_preamble_cases buf 0 0) as Hs.
  destruct (scan s_preamble 0 0 buf) as [k|]; [|exact Hs].
  destruct Hs as [Hpre [->|[Hr Hl]]]; (split; [exact Hpre|]); [now left|right].
  split; [lia|]. now replace (k - 0) with k in Hl by lia.
Qed.

(** C2: in a buffer made of white space, a complete JSON object and
    anything after it, the scanner returns the index of the last
    character of that object; in a buffer that stops inside the first
    object it returns -1; and it raises when the first character that is
    not white space is not an opening brace. *)
Theorem find_message_end_framing :
  (forall ws obj rest,
     forallb isspace ws = true -> json_object obj ->
     find_message_end (ws ++ obj ++ rest)
     = Return (Z.of_nat (length ws) + Z.of_nat (length obj) - 1))
  /\ (forall ws obj p,
       forallb isspace ws = true -> json_object obj ->
       p `prefix_of` obj -> p <> obj ->
       find_message_end (ws ++ p) = Return (-1))
  /\ (forall ws ch rest,
       forallb isspace ws = true -> isspace ch = false -> ch <> lbrace ->
       find_message_end (ws ++ ch :: rest) = Raise ValueError).
Proof.
  unfold find_message_end. repeat split.
  - intros ws obj rest Hws Hobj.
    apply json_object_balanced in Hobj as (b & Hb & ->).
    rewrite scan_preamble_space by assumption.
    cbn [app scan scan_char].
    replace (Ascii.eqb lbrace lbrace) with true by reflexivity.
    cbn [is_object andb]. replace (1 =? 0) with false by reflexivity.
    rewrite <- app_assoc. rewrite scan_balanced by (assumption || lia).
    cbn [app scan scan_char].
    replace (Ascii.eqb rbrace lbrace) with false by reflexivity.
    replace (Ascii.eqb rbrace rbrace) with true by reflexivity.
    cbn [is_object andb]. replace (1 - 1 =? 0) with true by reflexivity.
    f_equal. list_len.
  - intros ws obj p Hws Hobj Hp Hne.
    apply json_object_balanced in Hobj as (b & Hb & ->).
    rewrite <- (app_nil_r p), scan_preamble_space by assumption.
    rewrite app_nil_r.
    apply prefix_cons_cases in Hp as [->|(q & -> & Hq)]; [reflexivity|].
    cbn [scan scan_char].
    replace (Ascii.eqb lbrace lbrace) with true by reflexivity.
    cbn [is_object andb]. replace (1 =? 0) with false by reflexivity.
    apply prefix_app_cases in Hq as [Hin|(q' & -> & Hq')].
    + apply scan_balanced_prefix with (b := b); [assumption..|lia].
    + apply prefix_cons_cases in Hq' as [->|(q'' & -> & Hq'')].
      * apply scan_balanced_prefix with (b := b);
          [assumption|rewrite app_nil_r; reflexivity|lia].
      * apply prefix_nil_inv in Hq'' as ->. contradiction.
  - intros ws ch rest Hws Hch Hne.
    rewrite scan_preamble_space by assumption.
    cbn [scan scan_char].
    destruct (Ascii.eqb_spec ch lbrace); [contradiction|].
    now rewrite Hch.
Qed.

(** The first object of the framing scenario, whose string value is two
    closing braces. *)
Lemma sample_object : json_object (Sample.text "{'a':'}}'}").
Proof.
  apply (object_members
           ([] ++ dquote :: ["a"%char] ++ dquote :: [] ++ colon
               :: ([] ++ (dquote :: [rbrace; rbrace] ++ [dquote]) ++ []))).
  apply members_one, member_intro; [reflexivity| |reflexivity|].
  - apply chars_plain; [discriminate..|constructor].
  - apply element_intro; [reflexivity| |reflexivity].
    apply value_string. repeat (apply chars_plain; [discriminate..|]).
    constructor.
Qed.

Lemma find_message_end_framing_witness :
  find_message_end (Sample.text "  {'a':'}}'}{'b':1}") = Return 11
  /\ find_message_end (Sample.text "  {'a':'}") = Return (-1)
  /\ find_message_end (Sample.text " x{'a':1}") = Raise ValueError.
Proof.
  destruct find_message_end_framing as (Hfound & Hnotyet & Hfail).
  split; [|split].
  - apply (Hfound (Sample.text "  ") (Sample.text "{'a':'}}'}")
             (Sample.text "{'b':1}")); [reflexivity|exact sample_object].
  - apply (Hnotyet (Sample.text "  ") (Sample.text "{'a':'}}'}")
             (Sample.text "{'a':'}")); [reflexivity|exact sample_object| |].
    + exists (Sample.text "}'}"). reflexivity.
    + discriminate.
  - apply (Hfail (Sample.text " ") "x"%char (Sample.text "{'a':1}"));
      [reflexivity|reflexivity|discriminate].
Defined.

(** The two framing scenarios: a buffer with two spaces, an object whose
    string value is two closing braces, and a second object; and an
    object whose string value is an escaped quote. *)
Example framing_edge_first :
  find_message_end (Sample.text "  {'a':'}}'}{'b':1}") = Return 11.
Proof. reflexivity. Qed.

Example framing_edge_second :
  find_message_end (drop 12 (Sample.text "  {'a':'}}'}{'b':1}")) = Return 6.
Proof. reflexivity. Qed.

Example framing_escaped_quote :
  find_message_end (Sample.text "{'a':'\''}") = Return 9.
Proof. reflexivity. Qed.

End ScannerFacts.

(** ** The connection *)

Module BusFacts.
Import Bus Views.

(** *** Computations and relations *)

Section Respects.
Variable R : conn -> conn -> list event -> Prop.
Hypothesis R_refl : forall c, R c c [].
Hypothesis R_trans : forall c c1 c2 e1 e2,
  R c c1 e1 -> R c1 c2 e2 -> R c c2 (e1 ++ e2).

Lemma respects_ret {A} (a : A) : respects R (ret a).
Proof. intros c. apply R_refl. Qed.

Lemma respects_raise {A} (e : exn) : respects R (@raise A e).
Proof. intros c. apply R_refl. Qed.

Lemma respects_get : respects R get.
Proof. intros c. apply R_refl. Qed.

Lemma respects_lift {A} (r : pyresult A) : respects R (lift r).
Proof. intros c. apply R_refl. Qed.

Lemma respects_bind {A B} (m : M A) (k : A -> M B) :
  respects R m -> (forall a, respects R (k a)) -> respects R (bind m k).
Proof.
  intros Hm Hk c. specialize (Hm c). unfold bind, state_of, events_of in *.
  destruct (m c) as [[[a|x] c1] e1]; cbn in *; [|assumption].
  specialize (Hk a c1). unfold state_of, events_of in Hk.
  destruct (k a c1) as [[r c2] e2]; cbn in *. eapply R_trans; eassumption.
Qed.

(** After [get] the rest runs from the connection it was given. *)
Lemma respects_get_bind {A} (k : conn -> M A) :
  (forall c, R c (state_of (k c c)) (events_of (k c c))) ->
  respects R (bind get k).
Proof.
  intros Hk c. specialize (Hk c). unfold bind, get, state_of, events_of in *.
  destruct (k c c) as [[r c2] e2]; cbn in *. assumption.
Qed.

Lemma respects_try_except {A} (m : M A) (h : exn -> M A) :
  respects R m -> (forall x, respects R (h x)) -> respects R (try_except m h).
Proof.
  intros Hm Hh c. specialize (Hm c).
  unfold try_except, state_of, events_of in *.
  destruct (m c) as [[[a|x] c1] e1]; cbn in *; [assumption|].
  specialize (Hh x c1). unfold state_of, events_of in Hh.
  destruct (h x c1) as [[r c2] e2]; cbn in *. eapply R_trans; eassumption.
Qed.

End Respects.

(** *** The relations are reflexive and transitive *)

Lemma closed_events_app e1 e2 :
  closed_events (e1 ++ e2) = closed_events e1 ++ closed_events e2.
Proof.
  induction e1 as [|e e1 IH]; [reflexivity|].
  destruct e as [| | | |cb nm| |]; cbn; try assumption.
  destruct (String.eqb nm "ConnectionClosed"); cbn; now rewrite ?IH.
Qed.

Lemma replies_app e1 e2 : replies (e1 ++ e2) = replies e1 ++ replies e2.
Proof.
  induction e1 as [|e e1 IH]; [reflexivity|]. destruct e; cbn; now rewrite ?IH.
Qed.

Lemma delivered_app k cb e1 e2 :
  delivered k cb (e1 ++ e2) = (delivered k cb e1 + delivered k cb e2)%nat.
Proof.
  induction e1 as [|e e1 IH]; [reflexivity|].
  destruct e; cbn; try assumption. rewrite IH. lia.
Qed.

Lemma delivered_no_replies k cb evs : replies evs = [] -> delivered k cb evs = 0%nat.
Proof.
  induction evs as [|e evs IH]; [reflexivity|]. destruct e; cbn; auto.
  discriminate.
Qed.

Lemma life_refl c : life_step c c [].
Proof. repeat split; auto. Qed.

Lemma life_trans c c1 c2 e1 e2 :
  life_step c c1 e1 -> life_step c1 c2 e2 -> life_step c c2 (e1 ++ e2).
Proof.
  unfold life_step. intros (Hp1 & Hc1 & Ho1) (Hp2 & Hc2 & Ho2).
  rewrite closed_events_app.
  split; [etrans; eassumption|]. split.
  - intros Hc. destruct (Hc1 Hc) as [Hc1' ->].
    destruct (Hc2 Hc1') as [Hc2' ->]. now split.
  - intros Ho. destruct (Ho1 Ho) as [[Ho1' ->]|(Hc1' & Hl & Hu)].
    + destruct (Ho2 Ho1') as [[Ho2' ->]|(Hc2' & Hl & Hu)]; [now left|right].
      cbn. repeat split; [assumption| |assumption]. etrans; eassumption.
    + destruct (Hc2 Hc1') as [Hc2' ->]. right. rewrite app_nil_r.
      repeat split; [assumption..|]. etrans; eassumption.
Qed.

Lemma call_refl c : call_step c c [].
Proof. repeat split. Qed.

Lemma call_trans c c1 c2 e1 e2 :
  call_step c c1 e1 -> call_step c1 c2 e2 -> call_step c c2 (e1 ++ e2).
Proof.
  unfold call_step. intros (A1 & A2 & A3 & A4 & A5 & A6) (B1 & B2 & B3 & B4 & B5 & B6).
  rewrite replies_app, A6, B6. repeat split; congruence.
Qed.

Lemma flow_refl c : flow_step c c [].
Proof. split; [reflexivity|right]. repeat split. Qed.

Lemma flow_trans c c1 c2 e1 e2 :
  flow_step c c1 e1 -> flow_step c1 c2 e2 -> flow_step c c2 (e1 ++ e2).
Proof.
  unfold flow_step. intros [A0 A] [B0 B]. split; [congruence|].
  destruct B as [B|(B1 & B2 & B3 & B4 & B5)]; [now left|].
  destruct A as [A|(A1 & A2 & A3 & A4 & A5)]; [left; congruence|right].
  repeat split; congruence.
Qed.

Lemma base_refl c : base_step c c [].
Proof. split; [apply life_refl|split; [apply call_refl|apply flow_refl]]. Qed.

Lemma base_trans c c1 c2 e1 e2 :
  base_step c c1 e1 -> base_step c1 c2 e2 -> base_step c c2 (e1 ++ e2).
Proof.
  intros (A1 & A2 & A3) (B1 & B2 & B3).
  split; [eapply life_trans|split; [eapply call_trans|eapply flow_trans]];
    eassumption.
Qed.

Lemma wire_refl c : wire_step c c [].
Proof. split; [apply life_refl|apply call_refl]. Qed.

Lemma wire_trans c c1 c2 e1 e2 :
  wire_step c c1 e1 -> wire_step c1 c2 e2 -> wire_step c c2 (e1 ++ e2).
Proof.
  intros (A1 & A2) (B1 & B2).
  split; [eapply life_trans|eapply call_trans]; eassumption.
Qed.

Lemma table_refl c : table_step c c [].
Proof. split; [apply life_refl|apply flow_refl]. Qed.

Lemma table_trans c c1 c2 e1 e2 :
  table_step c c1 e1 -> table_step c1 c2 e2 -> table_step c c2 (e1 ++ e2).
Proof.
  intros (A1 & A2) (B1 & B2).
  split; [eapply life_trans|eapply flow_trans]; eassumption.
Qed.

Lemma flow_ok_refl c : flow_ok c c [].
Proof. now split. Qed.

Lemma flow_ok_trans c c1 c2 e1 e2 :
  flow_ok c c1 e1 -> flow_ok c1 c2 e2 -> flow_ok c c2 (e1 ++ e2).
Proof. intros [A0 A] [B0 B]. split; [congruence|auto]. Qed.

Lemma call_ok_refl c : call_ok c c [].
Proof.
  intros Hc. split; [assumption|split; [reflexivity|]]. intros k cb. cbn. lia.
Qed.

Lemma call_ok_trans c c1 c2 e1 e2 :
  call_ok c c1 e1 -> call_ok c1 c2 e2 -> call_ok c c2 (e1 ++ e2).
Proof.
  intros A B Hc. destruct (A Hc) as (Hc1 & As & Ak).
  destruct (B Hc1) as (Hc2 & Bs & Bk).
  split; [assumption|split; [congruence|]].
  intros k cb. rewrite delivered_app. specialize (Ak k cb).
  specialize (Bk k cb). lia.
Qed.

(** *** What the parts of the connection respect *)

Create HintDb respects.

Ltac respects_go Rrefl Rtrans :=
  repeat first
    [ solve [eauto 4 with respects]
    | apply (respects_ret _ Rrefl)
    | apply (respects_raise _ Rrefl)
    | apply (respects_get _ Rrefl)
    | apply (respects_lift _ Rrefl)
    | apply (respects_bind _ Rtrans); [|intros ?]
    | apply (respects_try_except _ Rtrans); [|intros ?]
    | match goal with
      | |- respects _ (match ?x with _ => _ end) => destruct x
      end ].

Ltac unfold_steps :=
  unfold base_step, wire_step, table_step, life_step, call_step, flow_step.

Ltac leaf :=
  let c := fresh "c" in
  intros c; unfold modify, emit, state_of, events_of; cbn;
  repeat match goal with
         | |- context [if ?b then _ else _] => destruct b eqn:?
         end;
  unfold_steps; cbn; intuition (auto; try congruence).

Section Steps.
Context `{library}.

Lemma closed_events_lifecycle l :
  closed_events ((fun callback => ev_lifecycle callback "ConnectionClosed") <$> l) = l.
Proof. induction l as [|x l IH]; cbn; [reflexivity|]. now rewrite IH. Qed.

Lemma replies_lifecycle nm l :
  replies ((fun callback => ev_lifecycle callback nm) <$> l) = [].
Proof. induction l as [|x l IH]; cbn; [reflexivity|assumption]. Qed.

Lemma base_close : respects base_step close.
Proof.
  intros c. unfold close, _run_callbacks, disable_watch_read,
    disable_watch_write, bind, get, modify, emit, ret, state_of, events_of.
  cbn. destruct (closed c) eqn:Hc; cbn; [apply base_refl|].
  unfold_steps.
  destruct (_read_event c); cbn; destruct (_write_event c); cbn;
    rewrite closed_events_lifecycle, replies_lifecycle;
    (repeat split; [reflexivity|congruence|auto..]).
Qed.

#[local] Hint Resolve base_close : respects.

Lemma base_enable_watch_write : respects base_step enable_watch_write.
Proof. leaf. Qed.

Lemma base_disable_watch_write : respects base_step disable_watch_write.
Proof. leaf. Qed.

Lemma base_set_trace file : respects base_step (set_trace file).
Proof. leaf. Qed.

Lemma base_do_trace msg incoming : respects base_step (_do_trace msg incoming).
Proof. leaf. Qed.

#[local] Hint Resolve base_enable_watch_write base_disable_watch_write
  base_set_trace base_do_trace : respects.

Lemma base_push_outgoing m : respects base_step (push_outgoing m).
Proof.
  unfold push_outgoing. respects_go base_refl base_trans; leaf.
Qed.

#[local] Hint Resolve base_push_outgoing : respects.

Lemma returns_app q1 q2 : returns (q1 ++ q2) = returns q1 ++ returns q2.
Proof.
  induction q1 as [|x q1 IH]; [reflexivity|]. destruct x; cbn; now rewrite ?IH.
Qed.

Lemma base_create_callback_dispatch : respects base_step (create_callback run_dispatch).
Proof.
  intros c. unfold create_callback, modify, state_of, events_of; cbn.
  unfold_steps; cbn. rewrite returns_app, app_nil_r. intuition auto.
Qed.

Lemma base_spawn m : respects base_step (spawn m).
Proof.
  intros c. unfold spawn, create_callback, modify, state_of, events_of; cbn.
  unfold_steps; cbn. rewrite returns_app, app_nil_r. intuition auto.
Qed.

Lemma base_send_method_return m value :
  respects base_step (send_method_return m value).
Proof. unfold send_method_return. respects_go base_refl base_trans. Qed.

Lemma base_send_error m error : respects base_step (send_error m error).
Proof. unfold send_error. respects_go base_refl base_trans. Qed.

Lemma base_send_signal signal args : respects base_step (send_signal signal args).
Proof. unfold send_signal. respects_go base_refl base_trans. Qed.

#[local] Hint Resolve base_create_callback_dispatch base_spawn
  base_send_method_return base_send_error base_send_signal : respects.

Lemma base_early_response m value : respects base_step (early_response m value).
Proof. unfold early_response. respects_go base_refl base_trans. Qed.

Lemma base_delay_response m : respects base_step (delay_response m).
Proof. unfold delay_response. respects_go base_refl base_trans. Qed.

#[local] Hint Resolve base_early_response base_delay_response : respects.

Lemma base_handler_actions m actions : forall sent,
  respects base_step (handler_actions m actions sent).
Proof.
  induction actions as [|a actions IH]; intros sent; cbn [handler_actions];
    respects_go base_refl base_trans.
Qed.

#[local] Hint Resolve base_handler_actions : respects.

Lemma base_invoke h m args : respects base_step (invoke h m args).
Proof. unfold invoke. respects_go base_refl base_trans. Qed.

#[local] Hint Resolve base_invoke : respects.

Lemma base_dispatch_method_call reg m :
  respects base_step (_dispatch_method_call reg m).
Proof. unfold _dispatch_method_call. respects_go base_refl base_trans. Qed.

Lemma base_dispatch_signal reg m : respects base_step (_dispatch_signal reg m).
Proof. unfold _dispatch_signal. respects_go base_refl base_trans. Qed.

#[local] Hint Resolve base_dispatch_method_call base_dispatch_signal : respects.

Lemma base_handler_dispatch reg m : respects base_step (handler_dispatch reg m).
Proof. unfold handler_dispatch. respects_go base_refl base_trans. Qed.

Lemma base_write_loop sends : respects base_step (write_loop sends).
Proof.
  induction sends as [|x sends IH]; cbn [write_loop];
    respects_go base_refl base_trans; leaf.
Qed.

#[local] Hint Resolve base_handler_dispatch base_write_loop : respects.

Lemma base_do_write sends : respects base_step (_do_write sends).
Proof. unfold _do_write. respects_go base_refl base_trans; leaf. Qed.

#[local] Hint Resolve base_do_write : respects.

(** The read side leaves the calls alone. *)

Lemma base_wire {A} (m : M A) : respects base_step m -> respects wire_step m.
Proof. intros Hm c. destruct (Hm c) as (? & ? & ?). now split. Qed.

Lemma base_table {A} (m : M A) : respects base_step m -> respects table_step m.
Proof. intros Hm c. destruct (Hm c) as (? & ? & ?). now split. Qed.

#[local] Hint Resolve base_wire base_table : respects.

Lemma wire_enable_watch_read : respects wire_step enable_watch_read.
Proof. leaf. Qed.

Lemma wire_disable_watch_read : respects wire_step disable_watch_read.
Proof. leaf. Qed.

#[local] Hint Resolve wire_enable_watch_read wire_disable_watch_read : respects.

Lemma wire_extract_messages fuel : respects wire_step (extract_messages fuel).
Proof.
  induction fuel as [|fuel IH]; cbn [extract_messages];
    respects_go wire_refl wire_trans; leaf.
Qed.

#[local] Hint Resolve wire_extract_messages : respects.

Lemma wire_read_loop recvs : respects wire_step (read_loop recvs).
Proof.
  induction recvs as [|x recvs IH]; cbn [read_loop];
    respects_go wire_refl wire_trans; leaf.
Qed.

#[local] Hint Resolve wire_read_loop : respects.

Lemma wire_do_read recvs : respects wire_step (_do_read recvs).
Proof. unfold _do_read. respects_go wire_refl wire_trans. Qed.

Lemma wire_pop_incoming : respects wire_step pop_incoming.
Proof. unfold pop_incoming. respects_go wire_refl wire_trans; leaf. Qed.

#[local] Hint Resolve wire_do_read wire_pop_incoming : respects.

(** The call table leaves the life cycle and the flow control alone. *)

Lemma table_method_calls_pop key : respects table_step (method_calls_pop key).
Proof. unfold method_calls_pop. respects_go table_refl table_trans; leaf. Qed.

Lemma table_method_calls_del id : respects table_step (method_calls_del id).
Proof. unfold method_calls_del. respects_go table_refl table_trans; leaf. Qed.

Lemma table_create_timer delay id cb : respects table_step (create_timer delay id cb).
Proof. unfold create_timer. respects_go table_refl table_trans; leaf. Qed.

Lemma table_cancel_timer t : respects table_step (cancel_timer t).
Proof. leaf. Qed.

Lemma table_create_callback cb : respects table_step (create_callback cb).
Proof. leaf. Qed.

#[local] Hint Resolve table_method_calls_pop table_method_calls_del
  table_create_timer table_cancel_timer table_create_callback : respects.

Lemma table_method_return_callback_run f reply :
  respects table_step (method_return_callback_run f reply).
Proof.
  unfold method_return_callback_run. respects_go table_refl table_trans; leaf.
Qed.

#[local] Hint Resolve table_method_return_callback_run : respects.

Lemma table_fire_timer t : respects table_step (fire_timer t).
Proof. unfold fire_timer. respects_go table_refl table_trans; leaf. Qed.

Lemma table_call_method method args callback timeout_kw :
  respects table_step (call_method method args callback timeout_kw).
Proof. unfold call_method. respects_go table_refl table_trans; leaf. Qed.

#[local] Hint Resolve table_fire_timer table_call_method : respects.

(** *** The life cycle *)

Lemma wire_life {A} (m : M A) : respects wire_step m -> respects life_step m.
Proof. intros Hm c. now destruct (Hm c). Qed.

Lemma table_life {A} (m : M A) : respects table_step m -> respects life_step m.
Proof. intros Hm c. now destruct (Hm c). Qed.

Lemma base_life {A} (m : M A) : respects base_step m -> respects life_step m.
Proof. intros Hm c. now destruct (Hm c). Qed.

#[local] Hint Resolve wire_life table_life base_life : respects.

Lemma life_add_callback callback : respects life_step (add_callback callback).
Proof.
  intros c. unfold add_callback, modify, state_of, events_of; cbn.
  unfold life_step; cbn. split; [now apply prefix_app_r|]. intuition auto.
Qed.

#[local] Hint Resolve life_add_callback : respects.

Lemma life_dispatch_loop fuel : respects life_step (dispatch_loop fuel).
Proof.
  induction fuel as [|fuel IH]; cbn [dispatch_loop];
    respects_go life_refl life_trans.
Qed.

#[local] Hint Resolve life_dispatch_loop : respects.

Lemma life_dispatch : respects life_step dispatch.
Proof. unfold dispatch. respects_go life_refl life_trans. Qed.

#[local] Hint Resolve life_dispatch : respects.

Lemma life_run_callback : respects life_step run_callback.
Proof. unfold run_callback. respects_go life_refl life_trans; leaf. Qed.

#[local] Hint Resolve life_run_callback : respects.

Lemma life_step_op o : respects life_step (step o).
Proof. destruct o; cbn [step]; respects_go life_refl life_trans. Qed.

End Steps.

#[export] Hint Resolve
  base_close base_enable_watch_write base_disable_watch_write
  base_set_trace base_do_trace base_push_outgoing
  base_create_callback_dispatch base_spawn base_send_method_return
  base_send_error base_send_signal base_early_response
  base_delay_response base_handler_actions base_invoke
  base_dispatch_method_call base_dispatch_signal base_handler_dispatch
  base_write_loop base_do_write base_wire
  base_table wire_enable_watch_read wire_disable_watch_read
  wire_extract_messages wire_read_loop wire_do_read
  wire_pop_incoming table_method_calls_pop table_method_calls_del
  table_create_timer table_cancel_timer table_create_callback
  table_method_return_callback_run table_fire_timer table_call_method
  wire_life table_life base_life
  life_add_callback life_dispatch_loop life_dispatch
  life_run_callback life_step_op
  : respects.

Section Life.
Context `{library}.

Lemma life_run ops : forall c, life_step c (fst (run ops c)) (snd (run ops c)).
Proof.
  induction ops as [|o ops IH]; intros c; cbn [run fst snd];
    [apply life_refl|].
  eapply life_trans; [apply life_step_op|apply IH].
Qed.

Lemma close_when_closed c : closed c = true -> close c = (Return tt, c, []).
Proof. intros Hc. unfold close, bind, get. cbn. now rewrite Hc. Qed.

Lemma close_when_open c :
  closed c = false ->
  closed (state_of (close c)) = true
  /\ closed_events (events_of (close c)) = callbacks c.
Proof.
  intros Hc. unfold close, _run_callbacks, disable_watch_read,
    disable_watch_write, bind, get, modify, emit, ret, state_of, events_of.
  cbn. rewrite Hc. cbn.
  destruct (_read_event c); cbn; destruct (_write_event c); cbn;
    now rewrite closed_events_lifecycle.
Qed.

(** C9: [close()] on a closed connection changes nothing and does
    nothing; once a connection is closed no history, with however many
    [close()] calls, tells a callback [ConnectionClosed] again; and a
    history of an open connection either leaves it open, with nobody
    told, or closes it and has told each callback registered at that
    moment once. *)
Theorem close_idempotent :
  (forall c, closed c = true -> close c = (Return tt, c, []))
  /\ (forall c, closed c = false ->
       closed (state_of (close c)) = true
       /\ closed_events (events_of (close c)) = callbacks c)
  /\ (forall ops c, closed c = true ->
       closed (fst (run ops c)) = true
       /\ closed_events (snd (run ops c)) = [])
  /\ (forall ops c, closed c = false ->
       (closed (fst (run ops c)) = false
        /\ closed_events (snd (run ops c)) = [])
       \/ (closed (fst (run ops c)) = true
           /\ callbacks c `prefix_of` closed_events (snd (run ops c))
           /\ closed_events (snd (run ops c))
                `prefix_of` callbacks (fst (run ops c)))).
Proof.
  split; [exact close_when_closed|]. split; [exact close_when_open|].
  split; intros ops c Hc; destruct (life_run ops c) as (_ & Hclosed & Hopen);
    auto.
Qed.

End Life.

(** *** Flow control *)

Section Flow.
Context `{library}.

Lemma close_closed c : closed (state_of (close c)) = true.
Proof.
  destruct (closed c) eqn:Hc.
  - now rewrite close_when_closed.
  - now apply close_when_open.
Qed.

Lemma flow_step_ok c c' evs : flow_step c c' evs -> flow_ok c c' evs.
Proof.
  intros [Hmax Hs]. split; [assumption|]. intros Hinv Hopen.
  destruct Hs as [Hs|(A1 & A2 & A3 & A4 & A5)]; [congruence|].
  unfold flow_inv in Hinv. rewrite A1, A2, A3, A4, A5, Hmax in *. auto.
Qed.

Lemma base_flow_ok {A} (m : M A) : respects base_step m -> respects flow_ok m.
Proof. intros Hm c. apply flow_step_ok, Hm. Qed.

Lemma table_flow_ok {A} (m : M A) : respects table_step m -> respects flow_ok m.
Proof. intros Hm c. apply flow_step_ok, Hm. Qed.

(** A closed connection has nothing left to keep. *)
Lemma flow_ok_closed c c' evs :
  max_incoming_messages c' = max_incoming_messages c ->
  closed c' = true -> flow_ok c c' evs.
Proof. intros Hmax Hc. split; [assumption|]. intros _ Ho. congruence. Qed.

Lemma flow_close_from c0 c evs0 :
  max_incoming_messages c = max_incoming_messages c0 ->
  flow_ok c0 (state_of (close c)) evs0.
Proof.
  intros Hmax. apply flow_ok_closed; [|apply close_closed].
  destruct (base_close c) as (_ & _ & Hm & _). congruence.
Qed.

Lemma flow_pop_incoming : respects flow_ok pop_incoming.
Proof.
  intros c. unfold pop_incoming, bind, get, modify, ret, state_of, events_of.
  cbn -[close]. destruct (_incoming c) as [|frame rest] eqn:Hin; cbn -[close];
    [apply flow_ok_refl|].
  assert (Hclose : forall evs0,
    flow_ok c (state_of (close (set_incoming rest c))) evs0)
    by (intros; now apply flow_close_from).
  unfold state_of in Hclose.
  destruct (try_loads frame) as [m|]; cbn -[close].
  2:{ destruct (close (set_incoming rest c)) as [[[] c2] e2]; cbn; apply Hclose. }
  destruct (check_message m); cbn -[close].
  2:{ destruct (close (set_incoming rest c)) as [[[] c2] e2]; cbn; apply Hclose. }
  clear Hclose. unfold enable_watch_read, modify. 
  destruct (_reading c) eqn:Hr, (closed c) eqn:Hc; cbn;
    try (apply flow_ok_closed; [reflexivity|assumption]).
  - split; [reflexivity|]. intros Hinv _. cbn.
    destruct (Hinv Hc) as (H1 & H2 & H3). rewrite Hin in *. cbn [length] in *.
    repeat split; [congruence|intros Hre; congruence|].
    intros Hlt. apply H3. lia.
  - destruct (Z.of_nat (length rest) <? max_incoming_messages c) eqn:Hlt; cbn.
    + apply Z.ltb_lt in Hlt.
      split; [now destruct (_read_event c)|]. intros _ _.
      destruct (_read_event c) eqn:Hre; cbn; repeat split;
        try congruence; lia.
    + split; [reflexivity|]. intros Hinv _. cbn.
      destruct (Hinv Hc) as (H1 & H2 & H3). rewrite Hin in *. cbn [length] in *.
      apply Z.ltb_ge in Hlt.
      repeat split; [congruence|intros _; lia|]. intros Hlt'. apply H3. lia.
Qed.

Lemma find_message_end_raises buf e :
  Scanner.find_message_end buf = Raise e ->
  Scanner.find_message_end buf = Raise ValueError.
Proof.
  unfold Scanner.find_message_end. intros He.
  pose proof (ScannerFacts.scan_preamble_cases buf 0 0) as Hs.
  rewrite He in Hs. destruct Hs as [-> _]. assumption.
Qed.

(** The inner loop of the read pump only adds to the queue, and stops
    with an exception only at a buffer that the scanner rejects. *)
Lemma extract_messages_flow fuel : forall c,
  closed (state_of (extract_messages fuel c)) = closed c
  /\ _read_event (state_of (extract_messages fuel c)) = _read_event c
  /\ _reading (state_of (extract_messages fuel c)) = _reading c
  /\ max_incoming_messages (state_of (extract_messages fuel c))
     = max_incoming_messages c
  /\ (length (_incoming c)
      <= length (_incoming (state_of (extract_messages fuel c))))%nat
  /\ (forall e, result_of (extract_messages fuel c) = Raise e ->
      Scanner.find_message_end (_inbuf (state_of (extract_messages fuel c)))
      = Raise ValueError).
Proof.
  induction fuel as [|fuel IH]; intros c; cbn [extract_messages].
  { cbn. repeat split; try lia. discriminate. }
  unfold bind, get, lift, modify, _do_trace, emit, ret, state_of, events_of,
    result_of in *.
  cbn -[extract_messages Scanner.find_message_end].
  destruct (_inbuf c) as [|ch buf] eqn:Hbuf;
    [cbn; repeat split; try lia; discriminate|].
  destruct (Scanner.find_message_end (ch :: buf)) as [pos|e] eqn:Hpos;
    cbn -[extract_messages Scanner.find_message_end].
  2:{ repeat split; try lia. intros e' _. rewrite Hbuf.
      now apply find_message_end_raises in Hpos. }
  destruct (pos =? -1); cbn -[extract_messages Scanner.find_message_end];
    [repeat split; try lia; discriminate|].
  destruct (tracefile c); cbn -[extract_messages Scanner.find_message_end];
    match goal with
    | |- context [extract_messages fuel ?c2] =>
        specialize (IH c2); destruct (extract_messages fuel c2) as [[r c3] e3]
    end;
    cbn in IH; destruct IH as (I1 & I2 & I3 & I4 & I5 & I6);
    cbn; rewrite length_app in I5; cbn in I5;
    (repeat split; [assumption..|lia|assumption]).
Qed.

(** A queue that has only grown, under unchanged watch and flags, is
    fine if it is within the limit or the scanner rejects the buffer. *)
Lemma flow_ok_grown c c' evs :
  closed c' = closed c -> _read_event c' = _read_event c ->
  _reading c' = _reading c ->
  max_incoming_messages c' = max_incoming_messages c ->
  (length (_incoming c) <= length (_incoming c'))%nat ->
  (max_incoming_messages c' < Z.of_nat (length (_incoming c')) ->
   Scanner.find_message_end (_inbuf c') = Raise ValueError) ->
  flow_ok c c' evs.
Proof.
  intros A1 A2 A3 A4 A5 A6. split; [assumption|]. intros Hinv Ho.
  rewrite A1 in Ho. destruct (Hinv Ho) as (H1 & H2 & H3).
  rewrite A2, A3, A4 in *. repeat split; [assumption| |auto].
  intros Hre. specialize (H2 Hre). lia.
Qed.

Lemma flow_ok_events c c' evs evs' : flow_ok c c' evs -> flow_ok c c' evs'.
Proof. trivial. Qed.

Lemma flow_read_loop_state recvs : forall c evs,
  flow_ok c (state_of (read_loop recvs c)) evs.
Proof.
  induction recvs as [|x recvs IH]; intros c evs; cbn [read_loop];
    unfold bind, get, state_of; cbn -[extract_messages close read_loop];
    pose proof (extract_messages_flow (length (_inbuf c)) c)
      as (E1 & E2 & E3 & E4 & E5 & E6);
    destruct (extract_messages (length (_inbuf c)) c) as [[r c1] e1];
    cbn in E1, E2, E3, E4, E5, E6;
    (destruct r as [[]|e]; cbn -[close read_loop];
     [|apply flow_ok_grown; eauto]);
    (destruct (max_message_size c1 <? Z.of_nat (length (_inbuf c1)));
     [pose proof (flow_close_from c c1 evs (eq_sym (eq_sym E4))) as Hcl;
      unfold state_of in Hcl; destruct (close c1) as [[r2 c2] e2];
      exact Hcl|]);
    (destruct (max_incoming_messages c1 <? Z.of_nat (length (_incoming c1)))
       eqn:Hmax; cbn -[close read_loop]).
  - apply Z.ltb_lt in Hmax. split.
    + destruct (_read_event c1); cbn; assumption.
    + intros _ _. destruct (_read_event c1) eqn:Hre; cbn;
        rewrite ?Hre; repeat split; auto; lia.
  - apply Z.ltb_ge in Hmax. apply flow_ok_grown; auto. lia.
  - apply Z.ltb_lt in Hmax. split.
    + destruct (_read_event c1); cbn; assumption.
    + intros _ _. destruct (_read_event c1) eqn:Hre; cbn;
        rewrite ?Hre; repeat split; auto; lia.
  - apply Z.ltb_ge in Hmax.
    assert (Hstay : flow_ok c c1 evs) by (apply flow_ok_grown; auto; lia).
    assert (Hcl : flow_ok c (state_of (close c1)) evs)
      by (apply flow_close_from; congruence).
    unfold state_of in Hcl.
    destruct x as [[|ch buf]| |]; cbn -[close read_loop decode_ascii];
      try (destruct (close c1) as [[r2 c2] e2]; exact Hcl); try exact Hstay.
    destruct (decode_ascii (ch :: buf)) as [s|e]; cbn -[read_loop];
      [|exact Hstay].
    match goal with
    | |- context [read_loop recvs ?c3] =>
        specialize (IH c3 evs); unfold state_of in IH;
        destruct (read_loop recvs c3) as [[r4 c4] e4]
    end.
    cbn. destruct IH as [Imax Iinv]. cbn in Imax. split; [congruence|].
    intros Hinv. apply Iinv. intros Ho. cbn in Ho |- *.
    destruct Hstay as [_ Hstay].
    destruct (Hstay Hinv Ho) as (H1 & H2 & H3).
    repeat split; [assumption..|]. intros Hlt. lia.
Qed.

Lemma flow_read_loop recvs : respects flow_ok (read_loop recvs).
Proof. intros c. apply flow_read_loop_state. Qed.

#[local] Hint Resolve base_flow_ok table_flow_ok flow_pop_incoming
  flow_read_loop : respects.

Lemma flow_do_read recvs : respects flow_ok (_do_read recvs).
Proof. unfold _do_read. respects_go flow_ok_refl flow_ok_trans. Qed.

Lemma flow_add_callback callback : respects flow_ok (add_callback callback).
Proof. intros c. now split. Qed.

Lemma flow_dispatch_loop fuel : respects flow_ok (dispatch_loop fuel).
Proof.
  induction fuel as [|fuel IH]; cbn [dispatch_loop];
    respects_go flow_ok_refl flow_ok_trans.
Qed.

#[local] Hint Resolve flow_do_read flow_add_callback flow_dispatch_loop
  : respects.

Lemma flow_dispatch : respects flow_ok dispatch.
Proof. unfold dispatch. respects_go flow_ok_refl flow_ok_trans. Qed.

#[local] Hint Resolve flow_dispatch : respects.

Lemma flow_run_callback : respects flow_ok run_callback.
Proof.
  unfold run_callback. respects_go flow_ok_refl flow_ok_trans.
Qed.

#[local] Hint Resolve flow_run_callback : respects.

Lemma flow_step_op o : respects flow_ok (step o).
Proof. destruct o; cbn [step]; respects_go flow_ok_refl flow_ok_trans. Qed.

Lemma flow_run ops : forall c, flow_ok c (fst (run ops c)) (snd (run ops c)).
Proof.
  induction ops as [|o ops IH]; intros c; cbn [run fst snd];
    [apply flow_ok_refl|].
  eapply flow_ok_trans; [apply flow_step_op|apply IH].
Qed.

Lemma flow_inv_init h nm peer : flow_inv (init h nm peer).
Proof. intros _. cbn. repeat split; [discriminate|lia]. Qed.

(** A pass of the read pump that returns on an open connection leaves
    the watch off if the queue is above the limit. *)
Lemma read_loop_throttles recvs : forall c,
  result_of (read_loop recvs c) = Return tt ->
  closed (state_of (read_loop recvs c)) = false ->
  max_incoming_messages (state_of (read_loop recvs c))
  < Z.of_nat (length (_incoming (state_of (read_loop recvs c)))) ->
  _read_event (state_of (read_loop recvs c)) = false.
Proof.
  induction recvs as [|x recvs IH]; intros c; cbn [read_loop];
    unfold bind, get, state_of, result_of;
    cbn -[extract_messages close read_loop];
    destruct (extract_messages (length (_inbuf c)) c) as [[r c1] e1];
    (destruct r as [[]|e]; cbn -[close read_loop]; [|discriminate]);
    (destruct (max_message_size c1 <? Z.of_nat (length (_inbuf c1)));
     [pose proof (close_closed c1) as Hcl; unfold state_of in Hcl;
      destruct (close c1) as [[r2 c2] e2]; cbn in *; congruence|]);
    (destruct (max_incoming_messages c1 <? Z.of_nat (length (_incoming c1)))
       eqn:Hmax; cbn -[close read_loop];
     [destruct (_read_event c1) eqn:Hre; cbn; auto|apply Z.ltb_ge in Hmax]).
  - intros _ _ Hlt. lia.
  - assert (Hcl : closed (state_of (close c1)) = true) by apply close_closed.
    unfold state_of in Hcl.
    destruct x as [[|ch buf]| |]; cbn -[close read_loop decode_ascii];
      try (destruct (close c1) as [[r2 c2] e2]; cbn in *; congruence);
      try (intros _ _ Hlt; lia).
    destruct (decode_ascii (ch :: buf)) as [s|e]; cbn -[read_loop];
      [|discriminate].
    match goal with
    | |- context [read_loop recvs ?c3] =>
        specialize (IH c3); unfold state_of, result_of in IH;
        destruct (read_loop recvs c3) as [[r4 c4] e4]
    end.
    cbn in *. exact IH.
Qed.

Lemma do_read_throttles recvs c :
  result_of (_do_read recvs c) = Return tt ->
  closed (state_of (_do_read recvs c)) = false ->
  max_incoming_messages (state_of (_do_read recvs c))
  < Z.of_nat (length (_incoming (state_of (_do_read recvs c)))) ->
  _read_event (state_of (_do_read recvs c)) = false.
Proof.
  pose proof (read_loop_throttles recvs c) as Hloop.
  unfold _do_read, bind, get, create_callback, modify, ret, state_of,
    result_of in *.
  destruct (read_loop recvs c) as [[[[]|e] c1] e1]; cbn in *; [|discriminate].
  destruct (_incoming c1) eqn:Hin; cbn; rewrite ?Hin; auto.
Qed.

(** [pop_incoming] turns the watch back on exactly when the queue it
    leaves is below the limit. *)
Lemma pop_incoming_unthrottles c frame rest m :
  closed c = false -> _reading c = false ->
  _incoming c = frame :: rest ->
  try_loads frame = Some m -> check_message m = true ->
  _read_event (state_of (pop_incoming c))
  = if Z.of_nat (length rest) <? max_incoming_messages c then true
    else _read_event c.
Proof.
  intros Hc Hr Hin Hm Hok.
  unfold pop_incoming, bind, get, modify, ret, enable_watch_read, state_of.
  cbn. rewrite Hin. cbn. rewrite Hm, Hok. cbn. rewrite Hr, Hc. cbn.
  destruct (Z.of_nat (length rest) <? max_incoming_messages c); cbn;
    [|reflexivity].
  now destruct (_read_event c) eqn:Hre; cbn.
Qed.

(** C6, amended: on an open connection reached from a new one, the read
    watch is off only while the queue holds at least
    [max_incoming_messages], and a queue above the limit has the watch
    off unless the scanner rejects the buffer; a pass of the read pump
    that returns leaves the watch off if the queue is above the limit;
    and [pop_incoming] turns it back on exactly when the queue it leaves
    is below the limit. *)
Theorem throttle_hysteresis :
  (forall ops h nm peer,
     let c := fst (run ops (init h nm peer)) in
     closed c = false ->
     (_read_event c = false ->
      max_incoming_messages c <= Z.of_nat (length (_incoming c)))
     /\ (max_incoming_messages c < Z.of_nat (length (_incoming c)) ->
         _read_event c = false
         \/ Scanner.find_message_end (_inbuf c) = Raise ValueError))
  /\ (forall recvs c,
       result_of (_do_read recvs c) = Return tt ->
       closed (state_of (_do_read recvs c)) = false ->
       max_incoming_messages (state_of (_do_read recvs c))
       < Z.of_nat (length (_incoming (state_of (_do_read recvs c)))) ->
       _read_event (state_of (_do_read recvs c)) = false)
  /\ (forall c frame rest m,
       closed c = false -> _reading c = false ->
       _incoming c = frame :: rest ->
       try_loads frame = Some m -> check_message m = true ->
       _read_event (state_of (pop_incoming c))
       = if Z.of_nat (length rest) <? max_incoming_messages c then true
         else _read_event c).
Proof.
  split; [|split; [exact do_read_throttles|exact pop_incoming_unthrottles]].
  intros ops h nm peer c Hc.
  destruct (flow_run ops (init h nm peer)) as [_ Hinv].
  destruct (Hinv (flow_inv_init h nm peer) Hc) as (_ & H2 & H3). now split.
Qed.

End Flow.

#[export] Hint Resolve base_flow_ok table_flow_ok flow_pop_incoming
  flow_read_loop flow_do_read flow_add_callback flow_dispatch_loop
  flow_dispatch flow_run_callback flow_step_op : respects.

(** *** The call table *)

Section Calls.
Context `{library}.

Lemma elem_returns f m q :
  run_method_return f m ∈ q <-> (f, m) ∈ returns q.
Proof.
  induction q as [|x q IH]; cbn; [now rewrite !elem_of_nil|].
  rewrite elem_of_cons, IH.
  destruct x; cbn; rewrite ?elem_of_cons; intuition congruence.
Qed.

Lemma queued_returns k cb q :
  queued k cb q
  = foldr (fun fm n => ((if call_of k cb fm.1 then 1 else 0) + n)%nat) 0%nat
      (returns q).
Proof.
  induction q as [|x q IH]; [reflexivity|]. destruct x; cbn; now rewrite ?IH.
Qed.

Lemma queued_app k cb q1 q2 :
  queued k cb (q1 ++ q2) = (queued k cb q1 + queued k cb q2)%nat.
Proof.
  induction q1 as [|x q1 IH]; [reflexivity|]. destruct x; cbn; rewrite ?IH; lia.
Qed.

Lemma call_step_ok c c' evs : call_step c c' evs -> call_ok c c' evs.
Proof.
  intros (A1 & A2 & A3 & A4 & A5 & A6) Hinv.
  split; [|split; [assumption|]].
  - destruct Hinv as [I1 I2 I3 I4]. split.
    + now rewrite A1.
    + intros k f. rewrite A1, A2, A3. apply I2.
    + intros t tm. rewrite A1, A2, A3, A4. apply I3.
    + intros f m. rewrite elem_returns, A1, A2, A3, A4, A5, <- elem_returns.
      apply I4.
  - intros k cb. rewrite (delivered_no_replies _ _ _ A6).
    rewrite !queued_returns, A5. unfold in_table. rewrite A2. lia.
Qed.

Lemma base_call_ok {A} (m : M A) : respects base_step m -> respects call_ok m.
Proof. intros Hm c. apply call_step_ok, Hm. Qed.

Lemma wire_call_ok {A} (m : M A) : respects wire_step m -> respects call_ok m.
Proof. intros Hm c. apply call_step_ok, Hm. Qed.

Lemma call_of_spec k cb f :
  call_of k cb f = true <-> mrc_id f = k /\ mrc_callback f = cb.
Proof.
  unfold call_of. rewrite andb_true_iff, Z.eqb_eq, bool_decide_eq_true.
  reflexivity.
Qed.

Lemma call_of_other k cb f : mrc_id f <> k -> call_of k cb f = false.
Proof.
  intros Hne. destruct (call_of k cb f) eqn:Hc; [|reflexivity].
  apply call_of_spec in Hc. tauto.
Qed.

(** A reply is matched: its entry leaves the table for the queue. *)
Lemma call_ok_resolve m :
  respects call_ok
    (let* key := lift (getitem m "id") in
     let* callback := method_calls_pop key in
     match callback with
     | Some f => create_callback (run_method_return f m)
     | None => ret tt
     end).
Proof.
  intros c Hinv.
  unfold method_calls_pop, create_callback, getitem, bind, lift, get, modify,
    ret, state_of, events_of.
  cbn. destruct (m !! "id") as [key|] eqn:Hid; cbn;
    [|now apply call_ok_refl].
  destruct (hash_key key) as [[z|s|]|e] eqn:Hkey; cbn;
    try (now apply call_ok_refl).
  destruct (method_calls c !! z) as [f|] eqn:Hz; cbn;
    [|now apply call_ok_refl].
  destruct Hinv as [I1 I2 I3 I4].
  destruct (I2 z f Hz) as (Hf & Hrange & d & Htimer).
  split; [|split; [reflexivity|]].
  - split; cbn.
    + assumption.
    + intros k g Hg. apply lookup_delete_Some in Hg as [Hne Hg].
      now apply I2.
    + intros t tm Ht. destruct (I3 t tm Ht) as (T1 & T2 & T3 & T4).
      repeat split; [assumption..|]. intros g Hg.
      apply lookup_delete_Some in Hg as [Hne Hg]. now apply T4.
    + intros f' m' Hin. apply elem_of_app in Hin as [Hin|Hin].
      * destruct (I4 f' m' Hin) as (Q1 & Q2 & Q3 & Q4 & Q5).
        repeat split; [|assumption..].
        rewrite lookup_delete_None. now right.
      * apply list_elem_of_singleton in Hin. injection Hin as -> ->.
        repeat split.
        -- rewrite Hf. apply lookup_delete_eq.
        -- lia.
        -- now destruct (I3 _ _ Htimer) as (_ & T2 & _).
        -- unfold message_call. now rewrite Hid, Hkey, Hf.
        -- intros tm Htm. rewrite Htimer in Htm. now injection Htm as <-.
  - intros k cb. cbn. rewrite queued_app. cbn. unfold in_table. cbn.
    destruct (decide (k = z)) as [->|Hne].
    + rewrite lookup_delete_eq, Hz. lia.
    + rewrite lookup_delete_ne by congruence.
      rewrite (call_of_other k cb f) by congruence. lia.
Qed.

#[local] Hint Resolve base_call_ok wire_call_ok call_ok_resolve : respects.

Lemma call_ok_dispatch_loop fuel : respects call_ok (dispatch_loop fuel).
Proof.
  induction fuel as [|fuel IH]; cbn [dispatch_loop];
    respects_go call_ok_refl call_ok_trans.
Qed.

#[local] Hint Resolve call_ok_dispatch_loop : respects.

Lemma call_ok_dispatch : respects call_ok dispatch.
Proof. unfold dispatch. respects_go call_ok_refl call_ok_trans. Qed.

Lemma call_ok_add_callback callback : respects call_ok (add_callback callback).
Proof. intros c. apply call_step_ok. repeat split. Qed.

#[local] Hint Resolve call_ok_dispatch call_ok_add_callback : respects.

Lemma message_call_timeout_error id : message_call (timeout_error id) = Some id.
Proof. reflexivity. Qed.

(** A timer fires: the entry of its call, if it is still outstanding,
    leaves the table for its callback. *)
Lemma call_ok_fire_timer t : respects call_ok (fire_timer t).
Proof.
  intros c Hinv.
  unfold fire_timer, method_return_callback_run, method_calls_del, bind, get,
    modify, emit, raise, ret, state_of, events_of.
  cbn. destruct (hub_timers c !! t) as [tm|] eqn:Ht; cbn;
    [|now apply call_ok_refl].
  destruct Hinv as [I1 I2 I3 I4].
  destruct (I3 t tm Ht) as (T1 & T2 & T3 & T4).
  assert (Hslot : forall k g, method_calls c !! k = Some g ->
            mrc_timer g = t -> g = timer_callback tm).
  { intros k g Hg Heq. destruct (I2 k g Hg) as (_ & _ & d & Hd).
    rewrite Heq, Ht in Hd. now injection Hd as ->. }
  destruct (method_calls c !! mrc_id (timer_callback tm)) as [g|] eqn:Hg; cbn.
  - pose proof (T4 g eq_refl) as ->.
    split; [|split; [reflexivity|]].
    + split; cbn.
      * assumption.
      * intros k g Hk. apply lookup_delete_Some in Hk as [Hne Hk].
        destruct (I2 k g Hk) as (G1 & G2 & d & G3).
        repeat split; [assumption|lia..|]. exists d.
        rewrite lookup_delete_ne; [assumption|]. intros Heq.
        apply Hne. rewrite <- G1. f_equal. symmetry. now apply (Hslot k).
      * intros t' tm' Ht'. apply lookup_delete_Some in Ht' as [Hne Ht'].
        destruct (I3 t' tm' Ht') as (U1 & U2 & U3 & U4).
        repeat split; [assumption..|]. intros g' Hg'.
        apply lookup_delete_Some in Hg' as [_ Hg']. now apply U4.
      * intros f m Hin. destruct (I4 f m Hin) as (Q1 & Q2 & Q3 & Q4 & Q5).
        repeat split; [|assumption..|].
        -- rewrite lookup_delete_None. now right.
        -- intros tm' Htm'. apply lookup_delete_Some in Htm' as [_ Htm'].
           now apply Q5.
    + intros k cb. cbn. unfold in_table. cbn.
      rewrite message_call_timeout_error.
      destruct (decide (k = mrc_id (timer_callback tm))) as [->|Hne].
      * rewrite lookup_delete_eq, Hg. unfold call_of. rewrite Z.eqb_refl.
        repeat case_bool_decide; cbn; congruence || lia.
      * rewrite lookup_delete_ne by congruence.
        repeat case_bool_decide; cbn; congruence || lia.
  - split; [|split; [reflexivity|]].
    + split; cbn.
      * assumption.
      * intros k g Hk. destruct (I2 k g Hk) as (G1 & G2 & d & G3).
        repeat split; [assumption|lia..|]. exists d.
        rewrite lookup_delete_ne; [assumption|]. intros Heq.
        pose proof (Hslot k g Hk (eq_sym Heq)) as ->. congruence.
      * intros t' tm' Ht'. apply lookup_delete_Some in Ht' as [Hne Ht'].
        now apply I3.
      * intros f m Hin. destruct (I4 f m Hin) as (Q1 & Q2 & Q3 & Q4 & Q5).
        repeat split; [assumption..|].
        intros tm' Htm'. apply lookup_delete_Some in Htm' as [_ Htm'].
        now apply Q5.
    + intros k cb. unfold in_table. cbn. lia.
Qed.

Lemma call_ok_bind {A B} (m : M A) (k : A -> M B) c :
  call_ok c (state_of (m c)) (events_of (m c)) ->
  (forall a, respects call_ok (k a)) ->
  call_ok c (state_of (bind m k c)) (events_of (bind m k c)).
Proof.
  intros Hm Hk. unfold bind, state_of, events_of in *.
  destruct (m c) as [[[a|x] c1] e1]; cbn in *; [|assumption].
  specialize (Hk a c1). unfold state_of, events_of in Hk.
  destruct (k a c1) as [[r c2] e2]; cbn in *.
  eapply call_ok_trans; eassumption.
Qed.

(** The hub runs a callback: a queued reply leaves the queue for its
    callback. *)
Lemma call_ok_run_callback : respects call_ok run_callback.
Proof.
  unfold run_callback. apply respects_get_bind. intros c.
  cbn beta. destruct (hub_callbacks c) as [|cb rest] eqn:Hq;
    [apply call_ok_refl|].
  destruct cb as [|f reply|m].
  - apply call_ok_bind; [|intros _; apply call_ok_dispatch].
    apply call_step_ok. unfold modify, state_of, events_of; cbn.
    repeat split. now rewrite Hq.
  - intros Hinv.
    unfold method_return_callback_run, cancel_timer, bind, modify, emit,
      state_of, events_of. cbn.
    destruct Hinv as [I1 I2 I3 I4].
    assert (Hhead : run_method_return f reply ∈ hub_callbacks c)
      by (rewrite Hq; apply list_elem_of_here).
    destruct (I4 f reply Hhead) as (Q1 & Q2 & Q3 & Q4 & Q5).
    split; [|split; [reflexivity|]].
    + split; cbn.
      * assumption.
      * intros k g Hk. destruct (I2 k g Hk) as (G1 & G2 & d & G3).
        repeat split; [assumption|lia..|]. exists d.
        rewrite lookup_delete_ne; [assumption|]. intros Heq.
        rewrite <- Heq in G3. apply Q5 in G3. cbn in G3. subst g.
        congruence.
      * intros t' tm' Ht'. apply lookup_delete_Some in Ht' as [Hne Ht'].
        now apply I3.
      * intros f' m' Hin.
        assert (Hin' : run_method_return f' m' ∈ hub_callbacks c)
          by (rewrite Hq; now apply list_elem_of_further).
        destruct (I4 f' m' Hin') as (R1 & R2 & R3 & R4 & R5).
        repeat split; [assumption..|].
        intros tm' Htm'. apply lookup_delete_Some in Htm' as [_ Htm'].
        now apply R5.
    + intros k cb. cbn. unfold in_table. cbn. rewrite Hq. cbn.
      rewrite Q4. unfold call_of.
      destruct (Z.eqb_spec (mrc_id f) k);
        repeat case_bool_decide; cbn; congruence || lia.
  - apply call_ok_bind.
    + apply call_step_ok. unfold modify, state_of, events_of; cbn.
      repeat split. now rewrite Hq.
    + intros _. destruct (handler c);
        [apply base_call_ok; auto with respects
        |apply (respects_ret _ call_ok_refl)].
Qed.

Lemma push_outgoing_returns m c :
  result_of (push_outgoing m c) = Return tt
  /\ _outgoing (state_of (push_outgoing m c)) = _outgoing c ++ [json_dumps m].
Proof.
  unfold push_outgoing, enable_watch_write, bind, get, modify, ret, state_of,
    result_of. cbn.
  destruct (negb (closed c) && negb (_writing c)); cbn; [|now split].
  now destruct (_write_event c).
Qed.

(** The request that [call_method] sends. *)
Lemma call_method_request method args callback timeout_kw c :
  result_of (call_method method args callback timeout_kw c) = Return tt
  /\ next_serial (state_of (call_method method args callback timeout_kw c))
     = next_serial c + 1
  /\ _outgoing (state_of (call_method method args callback timeout_kw c))
     = _outgoing c
       ++ [json_dumps
             (<["params" := JList args]>
                (<["method" := JStr method]>
                   (<["id" := JInt (next_serial c)]> jsonrpc_header)))].
Proof.
  unfold call_method, create_timer, bind, get, modify, ret, state_of, result_of.
  cbn -[push_outgoing].
  match goal with
  | |- context [push_outgoing ?m ?c1] =>
      destruct (push_outgoing_returns m c1) as [Hr Ho];
      destruct (base_push_outgoing m c1) as (_ & (Hs & _) & _);
      unfold state_of, result_of in Hr, Ho, Hs;
      destruct (push_outgoing m c1) as [[r c2] e2]
  end.
  cbn in Hr, Ho, Hs. subst r. destruct callback; cbn; auto.
Qed.

(** [call_method] keeps the table, the timers and the queue fitting
    together, and with a callback it adds one outstanding call, under the
    identifier it was given. *)
Lemma call_method_calls method args callback timeout_kw c :
  call_inv c ->
  call_inv (state_of (call_method method args callback timeout_kw c))
  /\ replies (events_of (call_method method args callback timeout_kw c)) = []
  /\ (forall cb0, callback = Some cb0 ->
      exists f,
        method_calls (state_of (call_method method args callback timeout_kw c))
          !! next_serial c = Some f
        /\ mrc_id f = next_serial c /\ mrc_callback f = cb0)
  /\ forall k cb,
       (in_table k cb (state_of (call_method method args callback timeout_kw c))
        + queued k cb
            (hub_callbacks
               (state_of (call_method method args callback timeout_kw c)))
        = in_table k cb c + queued k cb (hub_callbacks c)
          + match callback with
            | Some cb' =>
                if (next_serial c =? k)%Z && bool_decide (cb' = cb)
                then 1 else 0
            | None => 0
            end)%nat.
Proof.
  intros [I1 I2 I3 I4].
  assert (Hfresh : method_calls c !! next_serial c = None).
  { destruct (method_calls c !! next_serial c) as [g|] eqn:Hg; [|reflexivity].
    destruct (I2 _ _ Hg) as (_ & Hr & _). lia. }
  unfold call_method, create_timer, bind, get, modify, ret, state_of, events_of.
  cbn -[push_outgoing].
  match goal with
  | |- context [push_outgoing ?m ?c1] =>
      destruct (push_outgoing_returns m c1) as [Hr _];
      destruct (base_push_outgoing m c1)
        as (_ & (Hs & Ht & Hh & Hn & Hq & He) & _);
      unfold state_of, events_of, result_of in Hr, Hs, Ht, Hh, Hn, Hq, He;
      destruct (push_outgoing m c1) as [[r c2] e2]
  end.
  cbn in Hr, Hs, Ht, Hh, Hn, Hq, He. subst r.
  assert (Hqueue : forall f m, run_method_return f m ∈ hub_callbacks c2 ->
            run_method_return f m ∈ hub_callbacks c)
    by (intros f m; now rewrite !elem_returns, Hq).
  assert (Hcount : forall k cb,
            queued k cb (hub_callbacks c2) = queued k cb (hub_callbacks c))
    by (intros k cb; now rewrite !queued_returns, Hq).
  destruct callback as [cb0|]; cbn.
  - rewrite app_nil_r, He. split; [|split; [reflexivity|split]].
    + split; cbn; rewrite ?Hs, ?Ht, ?Hh, ?Hn.
      * lia.
      * intros k g Hg. apply lookup_insert_Some in Hg as [[<- <-]|[Hne Hg]].
        -- cbn. repeat split; try lia. eexists. apply lookup_insert_eq.
        -- destruct (I2 k g Hg) as (G1 & G2 & d & G3).
           repeat split; [assumption|lia..|]. exists d.
           rewrite lookup_insert_ne; [assumption|].
           destruct (I3 _ _ G3) as (_ & G4 & _). cbn in G4. lia.
      * intros t tm Htm. apply lookup_insert_Some in Htm as [[<- <-]|[Hne Htm]].
        -- cbn. repeat split; try lia. intros g Hg.
           rewrite lookup_insert_eq in Hg. now injection Hg as <-.
        -- destruct (I3 t tm Htm) as (T1 & T2 & T3 & T4).
           repeat split; [assumption|lia..|]. intros g Hg.
           rewrite lookup_insert_ne in Hg by lia. now apply T4.
      * intros f m Hin. destruct (I4 f m (Hqueue f m Hin))
          as (Q1 & Q2 & Q3 & Q4 & Q5).
        repeat split; [|lia..|assumption|].
        -- rewrite lookup_insert_ne by lia. assumption.
        -- intros tm Htm. rewrite lookup_insert_ne in Htm by lia.
           now apply Q5.
    + intros cb1 Hcb. injection Hcb as <-. eexists. rewrite Ht.
      split; [apply lookup_insert_eq|now split].
    + intros k cb. rewrite Hcount. unfold in_table. cbn. rewrite Ht.
      destruct (Z.eqb_spec (next_serial c) k) as [<-|Hne].
      * rewrite lookup_insert_eq, Hfresh. unfold call_of. cbn.
        rewrite Z.eqb_refl. cbn. case_bool_decide; lia.
      * rewrite lookup_insert_ne by assumption. cbn. lia.
  - rewrite app_nil_r, He. split; [|split; [reflexivity|split]].
    + split; rewrite ?Hs, ?Ht, ?Hh, ?Hn; cbn.
      * lia.
      * intros k g Hg. destruct (I2 k g Hg) as (G1 & G2 & G3).
        repeat split; [assumption|lia..|assumption].
      * intros t tm Htm. destruct (I3 t tm Htm) as (T1 & T2 & T3 & T4).
        repeat split; [assumption..|lia|assumption].
      * intros f m Hin. destruct (I4 f m (Hqueue f m Hin))
          as (Q1 & Q2 & Q3 & Q4 & Q5).
        repeat split; [assumption|lia|assumption..].
    + discriminate.
    + intros k cb. rewrite Hcount. unfold in_table. rewrite Ht. cbn. lia.
Qed.

#[local] Hint Resolve call_ok_fire_timer call_ok_run_callback : respects.

Lemma call_ok_step_other o :
  match o with op_call_method _ _ _ _ => False | _ => True end ->
  respects call_ok (step o).
Proof.
  destruct o; intros Ho; try contradiction; cbn [step];
    respects_go call_ok_refl call_ok_trans.
Qed.

(** Every operation keeps the books: what was outstanding or queued is
    outstanding, queued or delivered, and a [call_method] with a
    callback adds one outstanding call. *)
Lemma calls_step_op o c :
  call_inv c ->
  call_inv (state_of (step o c))
  /\ next_serial c <= next_serial (state_of (step o c))
  /\ forall k cb,
       (in_table k cb (state_of (step o c))
        + queued k cb (hub_callbacks (state_of (step o c)))
        + delivered k cb (events_of (step o c))
        = in_table k cb c + queued k cb (hub_callbacks c)
          + registered k cb [o] c)%nat.
Proof.
  intros Hinv.
  destruct (match o with op_call_method _ _ _ _ => false | _ => true end)
    eqn:Hkind.
  - assert (Hok : respects call_ok (step o))
      by (apply call_ok_step_other; now destruct o).
    destruct (Hok c Hinv) as (Hinv' & Hs & Hk).
    split; [assumption|split; [lia|]]. intros k cb.
    rewrite Hk. destruct o; try discriminate; cbn [registered]; lia.
  - destruct o; try discriminate. cbn [step].
    destruct (call_method_calls method args callback timeout_kw c Hinv)
      as (Hinv' & Hrep & _ & Hk).
    destruct (call_method_request method args callback timeout_kw c)
      as (_ & Hs & _).
    split; [assumption|split; [lia|]]. intros k cb.
    rewrite (delivered_no_replies _ _ _ Hrep), Hk. cbn [registered].
    destruct callback; lia.
Qed.

Lemma registered_cons k cb o ops c :
  registered k cb (o :: ops) c
  = (registered k cb [o] c + registered k cb ops (state_of (step o c)))%nat.
Proof. cbn [registered]. lia. Qed.

Lemma calls_run ops : forall c,
  call_inv c ->
  call_inv (fst (run ops c))
  /\ next_serial c <= next_serial (fst (run ops c))
  /\ forall k cb,
       (in_table k cb (fst (run ops c))
        + queued k cb (hub_callbacks (fst (run ops c)))
        + delivered k cb (snd (run ops c))
        = in_table k cb c + queued k cb (hub_callbacks c)
          + registered k cb ops c)%nat.
Proof.
  induction ops as [|o ops IH]; intros c Hinv.
  - cbn. split; [assumption|split; [lia|]]. intros k cb. lia.
  - destruct (calls_step_op o c Hinv) as (Hinv1 & Hs1 & Hk1).
    destruct (IH _ Hinv1) as (Hinv2 & Hs2 & Hk2).
    cbn [run fst snd]. split; [assumption|split; [lia|]]. intros k cb.
    rewrite delivered_app, registered_cons.
    specialize (Hk1 k cb). specialize (Hk2 k cb). lia.
Qed.

Lemma call_inv_init h nm peer : call_inv (init h nm peer).
Proof.
  split; cbn; [lia|intros k f Hk|intros t tm Ht|intros f m Hin].
  - now rewrite lookup_empty in Hk.
  - now rewrite lookup_empty in Ht.
  - now apply elem_of_nil in Hin.
Qed.

Lemma step_next_serial o c :
  call_inv c ->
  next_serial (state_of (step o c))
  = next_serial c
    + match o with op_call_method _ _ _ _ => 1 | _ => 0 end.
Proof.
  intros Hinv.
  destruct (match o with op_call_method _ _ _ _ => false | _ => true end)
    eqn:Hkind.
  - assert (Hok : respects call_ok (step o))
      by (apply call_ok_step_other; now destruct o).
    destruct (Hok c Hinv) as (_ & Hs & _).
    destruct o; try discriminate; lia.
  - destruct o; try discriminate. cbn [step].
    now destruct (call_method_request method args callback timeout_kw c)
      as (_ & Hs & _).
Qed.


(** The identifiers given out by a history count up from [next_serial]. *)
Lemma allocated_run ops : forall c,
  call_inv c ->
  allocated ops c
  = (fun i => next_serial c + Z.of_nat i)
      <$> seq 0 (length (allocated ops c))
  /\ next_serial (fst (run ops c))
     = next_serial c + Z.of_nat (length (allocated ops c)).
Proof.
  induction ops as [|o ops IH]; intros c Hinv; [cbn; split; [reflexivity|lia]|].
  destruct (calls_step_op o c Hinv) as (Hinv1 & _ & _).
  pose proof (step_next_serial o c Hinv) as Hs.
  destruct (IH (state_of (step o c)) Hinv1) as [Hal Hnext].
  cbn [allocated run fst]. rewrite Hnext, Hs.
  destruct o; cbn [app length];
    try (rewrite Z.add_0_r in *; split; [rewrite Hs in Hal; exact Hal|lia]).
  split; [|lia].
  cbn [seq fmap list_fmap]. f_equal; [lia|].
  rewrite Hal at 1. rewrite <- fmap_S_seq, <- list_fmap_compose.
  apply list_fmap_ext. intros _ i _. unfold compose. rewrite Hs. lia.
Qed.

(** C8: the identifiers that the [call_method]s of a history are given
    are 1, 2, 3, ... in this order, and [next_serial] is the next one; an
    outstanding entry is stored under the identifier of its own request,
    which is below [next_serial], so no two entries share one; and
    [call_method] sends its request under [next_serial], where no entry
    is outstanding, and registers its callback there. *)
Theorem serials_unique_increasing ops h nm peer :
  let c0 := init h nm peer in
  let c := fst (run ops c0) in
  allocated ops c0 = Z.of_nat <$> seq 1 (length (allocated ops c0))
  /\ next_serial c = 1 + Z.of_nat (length (allocated ops c0))
  /\ (forall k f, method_calls c !! k = Some f ->
       mrc_id f = k /\ 1 <= k < next_serial c)
  /\ (forall k1 k2 f1 f2,
       method_calls c !! k1 = Some f1 -> method_calls c !! k2 = Some f2 ->
       mrc_id f1 = mrc_id f2 -> k1 = k2)
  /\ (forall method args callback timeout_kw,
       let c' := state_of (call_method method args callback timeout_kw c) in
       _outgoing c'
       = _outgoing c
         ++ [json_dumps
               (<["params" := JList args]>
                  (<["method" := JStr method]>
                     (<["id" := JInt (next_serial c)]> jsonrpc_header)))]
       /\ next_serial c' = next_serial c + 1
       /\ method_calls c !! next_serial c = None
       /\ forall cb, callback = Some cb ->
            exists f, method_calls c' !! next_serial c = Some f
                      /\ mrc_id f = next_serial c /\ mrc_callback f = cb).
Proof.
  intros c0 c.
  pose proof (call_inv_init h nm peer) as Hinv0. fold c0 in Hinv0.
  destruct (allocated_run ops c0 Hinv0) as [Hal Hnext].
  destruct (calls_run ops c0 Hinv0) as (Hinv & _ & _). fold c in Hinv, Hnext.
  assert (Htable : forall k f, method_calls c !! k = Some f ->
            mrc_id f = k /\ 1 <= k < next_serial c).
  { intros k f Hk. destruct (table_ok c Hinv k f Hk) as (? & ? & _).
    now split. }
  split; [|split; [exact Hnext|split; [exact Htable|split]]].
  - rewrite Hal at 1. rewrite <- fmap_S_seq, <- list_fmap_compose.
    apply list_fmap_ext. intros _ i _. unfold compose. cbn [init next_serial c0].
    lia.
  - intros k1 k2 f1 f2 H1 H2 Heq.
    destruct (Htable _ _ H1) as [<- _]. destruct (Htable _ _ H2) as [<- _].
    exact Heq.
  - intros method args callback timeout_kw c'.
    destruct (call_method_request method args callback timeout_kw c)
      as (_ & Hs & Ho).
    destruct (call_method_calls method args callback timeout_kw c Hinv)
      as (_ & _ & Hentry & _).
    split; [exact Ho|split; [exact Hs|split; [|exact Hentry]]].
    destruct (method_calls c !! next_serial c) as [g|] eqn:Hg; [|reflexivity].
    destruct (Htable _ _ Hg) as [_ Hr]. lia.
Qed.



End Calls.

#[export] Hint Resolve base_call_ok wire_call_ok call_ok_resolve
  call_ok_dispatch_loop call_ok_dispatch call_ok_add_callback
  call_ok_fire_timer call_ok_run_callback : respects.

(** *** The envelope, timeouts and late replies *)

Section Envelope.
Context `{library}.

Lemma pop_incoming_empty c :
  _incoming c = [] -> pop_incoming c = (Return None, c, []).
Proof. intros Hin. unfold pop_incoming, bind, get. cbn. now rewrite Hin. Qed.

(** A frame that is not a JSON object with [jsonrpc] equal to "2.0"
    closes the connection. *)
Lemma pop_incoming_rejects c frame rest :
  _incoming c = frame :: rest ->
  (forall m, try_loads frame = Some m -> check_message m = false) ->
  result_of (pop_incoming c) = Return None
  /\ closed (state_of (pop_incoming c)) = true
  /\ _incoming (state_of (pop_incoming c)) = rest.
Proof.
  intros Hin Hbad.
  unfold pop_incoming, bind, get, modify, ret, state_of, result_of.
  cbn -[close]. rewrite Hin. cbn -[close].
  pose proof (close_closed (set_incoming rest c)) as Hc.
  destruct (base_close (set_incoming rest c)) as (_ & _ & _ & Hf).
  assert (Hq : _incoming (state_of (close (set_incoming rest c))) = rest).
  { unfold close, _run_callbacks, disable_watch_read, disable_watch_write,
      bind, get, modify, emit, ret, state_of. cbn.
    destruct (closed c); cbn; [reflexivity|].
    destruct (_read_event c); cbn; now destruct (_write_event c). }
  assert (Hr : result_of (close (set_incoming rest c)) = Return tt).
  { unfold close, _run_callbacks, disable_watch_read, disable_watch_write,
      bind, get, modify, emit, ret, result_of. cbn.
    now destruct (closed c). }
  unfold state_of, result_of in Hc, Hq, Hr.
  destruct (try_loads frame) as [m|] eqn:Hm; cbn -[close].
  - rewrite (Hbad m eq_refl). cbn -[close].
    destruct (close (set_incoming rest c)) as [[r c2] e2]. cbn in *.
    subst r. now cbn.
  - destruct (close (set_incoming rest c)) as [[r c2] e2]. cbn in *.
    subst r. now cbn.
Qed.

(** A JSON object with [jsonrpc] equal to "2.0" is handed on, whatever
    else it holds, and the connection stays as open or closed as it was. *)
Lemma pop_incoming_accepts c frame rest m :
  _incoming c = frame :: rest ->
  try_loads frame = Some m -> check_message m = true ->
  result_of (pop_incoming c) = Return (Some m)
  /\ events_of (pop_incoming c) = []
  /\ closed (state_of (pop_incoming c)) = closed c
  /\ _incoming (state_of (pop_incoming c)) = rest
  /\ method_calls (state_of (pop_incoming c)) = method_calls c
  /\ hub_timers (state_of (pop_incoming c)) = hub_timers c
  /\ hub_callbacks (state_of (pop_incoming c)) = hub_callbacks c
  /\ handler (state_of (pop_incoming c)) = handler c.
Proof.
  intros Hin Hm Hok.
  unfold pop_incoming, enable_watch_read, bind, get, modify, ret, state_of,
    events_of, result_of.
  cbn. rewrite Hin. cbn. rewrite Hm, Hok. cbn.
  destruct (negb (_reading c) && negb (closed c)
            && (Z.of_nat (length rest) <? max_incoming_messages c)); cbn;
    [destruct (_read_event c); cbn|]; now repeat split.
Qed.

Lemma check_message_spec m :
  check_message m = true <-> m !! "jsonrpc" = Some (JStr "2.0").
Proof.
  unfold check_message. destruct (m !! "jsonrpc") as [[| | |v| |]|];
    try (split; [discriminate|intros [=]]).
  rewrite String.eqb_eq. split; [now intros ->|now intros [= ->]].
Qed.

Lemma check_message_nonempty m :
  check_message m = true -> bool_decide (m = ∅) = false.
Proof.
  intros Hok. apply check_message_spec in Hok. apply bool_decide_eq_false.
  intros ->. now rewrite lookup_empty in Hok.
Qed.

(** A response that finds no outstanding entry is dropped. *)
Lemma dispatch_unmatched_reply c frame m key k :
  _incoming c = [frame] ->
  try_loads frame = Some m -> check_message m = true ->
  has_key m "result" || has_key m "error" = true ->
  m !! "id" = Some key -> hash_key key = Return k ->
  (forall z, k = key_int z -> method_calls c !! z = None) ->
  result_of (dispatch c) = Return tt
  /\ events_of (dispatch c) = []
  /\ closed (state_of (dispatch c)) = closed c
  /\ _incoming (state_of (dispatch c)) = []
  /\ method_calls (state_of (dispatch c)) = method_calls c
  /\ hub_timers (state_of (dispatch c)) = hub_timers c
  /\ hub_callbacks (state_of (dispatch c)) = hub_callbacks c.
Proof.
  intros Hin Hm Hok Hkind Hid Hkey Hnone.
  destruct (pop_incoming_accepts c frame [] m Hin Hm Hok)
    as (P1 & P2 & P3 & P4 & P5 & P6 & P7 & P8).
  assert (Heq : dispatch c = (Return tt, state_of (pop_incoming c), [])).
  { unfold dispatch, bind at 1, get. rewrite Hin. cbn [length dispatch_loop].
    unfold bind at 1. unfold state_of, events_of, result_of in *.
    destruct (pop_incoming c) as [[r c1] e1].
    cbn in P1, P2, P3, P4, P5, P6, P7. subst r e1.
    rewrite (check_message_nonempty m Hok), Hkind.
    unfold method_calls_pop, getitem, bind, lift, get, ret. rewrite Hid.
    cbn -[pop_incoming]. rewrite Hkey. cbn -[pop_incoming].
    assert (Hrest : pop_incoming c1 = (Return None, c1, []))
      by now apply pop_incoming_empty.
    destruct k as [z| |]; cbn -[pop_incoming];
      rewrite ?P5, ?(Hnone _ eq_refl); cbn -[pop_incoming];
      rewrite Hrest; reflexivity. }
  rewrite Heq. now repeat split.
Qed.

(** An accepted message that is neither a response nor a request nor a
    signal is passed to the handler, which ignores it. *)
Lemma dispatch_shapeless c frame m :
  _incoming c = [frame] ->
  try_loads frame = Some m -> check_message m = true ->
  has_key m "result" = false -> has_key m "error" = false ->
  has_key m "method" = false ->
  result_of (dispatch c) = Return tt
  /\ events_of (dispatch c) = []
  /\ closed (state_of (dispatch c)) = closed c
  /\ forall reg, handler_dispatch reg m = ret tt.
Proof.
  intros Hin Hm Hok Hres Herr Hmeth.
  destruct (pop_incoming_accepts c frame [] m Hin Hm Hok)
    as (P1 & P2 & P3 & P4 & P5 & P6 & P7 & P8).
  assert (Heq : exists c', dispatch c = (Return tt, c', [])
                           /\ closed c' = closed c).
  { unfold dispatch, bind at 1, get. rewrite Hin. cbn [length dispatch_loop].
    unfold bind at 1. unfold state_of, events_of, result_of in *.
    destruct (pop_incoming c) as [[r c1] e1].
    cbn in P1, P2, P3, P4, P5, P6, P7, P8. subst r e1.
    rewrite (check_message_nonempty m Hok), Hres, Herr.
    unfold spawn, create_callback, bind, get, modify, ret.
    cbn -[pop_incoming].
    destruct (handler c1); cbn -[pop_incoming];
      rewrite pop_incoming_empty by (cbn; assumption); cbn;
      eexists; (split; [reflexivity|cbn; assumption]). }
  destruct Heq as (c' & Heq & Hc). rewrite Heq. cbn.
  repeat split; [assumption|].
  intros reg. unfold handler_dispatch. rewrite Hmeth.
  now rewrite !andb_false_r.
Qed.

(** C5, amended: a frame that does not decode to a JSON object with
    [jsonrpc] equal to the string "2.0" closes the connection; a frame
    that does is accepted whatever else it holds, and leaves the
    connection as it was; one that is none of request, response and
    signal is then ignored. *)
Theorem invalid_envelope_closes :
  (forall c frame rest,
     _incoming c = frame :: rest ->
     (forall m, try_loads frame = Some m -> check_message m = false) ->
     result_of (pop_incoming c) = Return None
     /\ closed (state_of (pop_incoming c)) = true)
  /\ (forall c frame rest m,
       _incoming c = frame :: rest ->
       try_loads frame = Some m -> check_message m = true ->
       result_of (pop_incoming c) = Return (Some m)
       /\ closed (state_of (pop_incoming c)) = closed c)
  /\ (forall m, check_message m = true <-> m !! "jsonrpc" = Some (JStr "2.0"))
  /\ (forall c frame m,
       _incoming c = [frame] ->
       try_loads frame = Some m -> check_message m = true ->
       has_key m "result" = false -> has_key m "error" = false ->
       has_key m "method" = false ->
       result_of (dispatch c) = Return tt
       /\ events_of (dispatch c) = []
       /\ closed (state_of (dispatch c)) = closed c
       /\ forall reg, handler_dispatch reg m = ret tt).
Proof.
  split; [|split; [|split; [exact check_message_spec|exact dispatch_shapeless]]].
  - intros c frame rest Hin Hbad.
    destruct (pop_incoming_rejects c frame rest Hin Hbad) as (? & ? & _).
    now split.
  - intros c frame rest m Hin Hm Hok.
    destruct (pop_incoming_accepts c frame rest m Hin Hm Hok)
      as (? & _ & ? & _).
    now split.
Qed.

(** C7: when the timer of an outstanding call fires, the entry is
    removed and its callback is handed the error response with code
    "Timeout", message "Method call timed out" and null data; and a
    response whose [id] has no outstanding entry is dropped: nothing is
    delivered or scheduled and the connection is not closed. *)
Theorem timeout_and_late_reply :
  (forall c t tm g,
     hub_timers c !! t = Some tm ->
     method_calls c !! mrc_id (timer_callback tm) = Some g ->
     fire_timer t c
     = (Return tt,
        set_method_calls
          (delete (mrc_id (timer_callback tm)) (method_calls c))
          (set_hub_timers (delete t (hub_timers c)) c),
        [ev_reply (mrc_callback (timer_callback tm))
           (timeout_error (mrc_id (timer_callback tm)))]))
  /\ (forall id,
       timeout_error id
       = <["error" :=
             JDict (<["data" := JNull]>
                      (<["message" := JStr "Method call timed out"]>
                         {[ "code" := JStr "Timeout" ]}))]>
           (<["id" := JInt id]> {[ "jsonrpc" := JStr "2.0" ]}))
  /\ (forall c frame m key k,
       _incoming c = [frame] ->
       try_loads frame = Some m -> check_message m = true ->
       has_key m "result" || has_key m "error" = true ->
       m !! "id" = Some key -> hash_key key = Return k ->
       (forall z, k = key_int z -> method_calls c !! z = None) ->
       result_of (dispatch c) = Return tt
       /\ events_of (dispatch c) = []
       /\ closed (state_of (dispatch c)) = closed c
       /\ _incoming (state_of (dispatch c)) = []
       /\ method_calls (state_of (dispatch c)) = method_calls c
       /\ hub_timers (state_of (dispatch c)) = hub_timers c
       /\ hub_callbacks (state_of (dispatch c)) = hub_callbacks c).
Proof.
  split; [|split; [reflexivity|exact dispatch_unmatched_reply]].
  intros c t tm g Ht Hg.
  unfold fire_timer, method_return_callback_run, method_calls_del, bind, get,
    modify, emit. cbn. rewrite Ht. cbn. rewrite Hg. reflexivity.
Qed.

End Envelope.

(** *** The handler registry *)

Section Handler.
Context `{library}.

(** The arity test, for a bound method: [self] is not an argument. *)
Lemma check_callable_spec h args n :
  h_callable h = true -> (1 <= spec_args (h_spec h))%nat ->
  py_len args = Return n ->
  _check_callable h args
  = Return ((Z.of_nat (spec_args (h_spec h)) - 1
              - Z.of_nat (spec_defaults (h_spec h)) <=? n)
            && (spec_varargs (h_spec h)
                || (n <=? Z.of_nat (spec_args (h_spec h)) - 1))).
Proof.
  intros Hc Hself Hn. unfold _check_callable. rewrite Hc, Hn. cbn [negb].
  f_equal. f_equal.
  - destruct (Nat.ltb_spec 0 (spec_defaults (h_spec h)));
      apply Z.eqb_eq || idtac; f_equal; lia.
  - destruct (spec_varargs (h_spec h)); [reflexivity|]. cbn [orb].
    destruct (Z.eqb_spec (Z.of_nat (spec_args (h_spec h))) 0); [lia|].
    reflexivity.
Qed.

Lemma send_method_return_eq m id value c :
  m !! "id" = Some id ->
  send_method_return m value c
  = push_outgoing (<["result" := value]> (<["id" := id]> jsonrpc_header)) c.
Proof.
  intros Hid. unfold send_method_return, getitem, bind, lift. rewrite Hid.
  cbn -[push_outgoing].
  match goal with
  | |- context [push_outgoing ?x c] => now destruct (push_outgoing x c) as [[r c1] e1]
  end.
Qed.

Lemma send_error_eq m id error c :
  m !! "id" = Some id ->
  send_error m error c
  = push_outgoing
      (<["error" := error_member error]> (<["id" := id]> jsonrpc_header)) c.
Proof.
  intros Hid. unfold send_error, getitem, bind, lift. rewrite Hid.
  cbn -[push_outgoing].
  match goal with
  | |- context [push_outgoing ?x c] => now destruct (push_outgoing x c) as [[r c1] e1]
  end.
Qed.

(** With an [id] in the message, the handler's early and delayed
    responses go through, and leave [response_sent] set. *)
Lemma handler_actions_returns m id actions : forall sent c,
  m !! "id" = Some id ->
  result_of (handler_actions m actions sent c)
  = Return (match actions with [] => sent | _ :: _ => true end).
Proof.
  induction actions as [|a actions IH]; intros sent c Hid; [reflexivity|].
  assert (Hhas : has_key m "id" = true) by (unfold has_key; now rewrite Hid).
  destruct a as [value|]; cbn [handler_actions];
    unfold early_response, delay_response, bind, ret, result_of in *;
    rewrite Hhas; cbn -[push_outgoing send_method_return handler_actions].
  - rewrite (send_method_return_eq m id value c Hid).
    destruct (push_outgoing_returns
                (<["result" := value]> (<["id" := id]> jsonrpc_header)) c)
      as [Hr _].
    unfold result_of in Hr. destruct (push_outgoing _ c) as [[r c1] e1].
    cbn in Hr. subst r. cbn -[handler_actions].
    specialize (IH true c1 Hid).
    destruct (handler_actions m actions true c1) as [[r2 c2] e2].
    cbn in *. rewrite IH. now destruct actions.
  - specialize (IH true c Hid).
    destruct (handler_actions m actions true c) as [[r2 c2] e2].
    cbn in *. rewrite IH. now destruct actions.
Qed.

(** Once the handler is found and the arity test passes, the dispatcher
    runs the handler and then sends the reply that fits how it ended. *)
Lemma dispatch_method_call_invoked reg m id name h c :
  m !! "id" = Some id -> m !! "method" = Some name ->
  lookup_handler (methods reg) name = Return (Some h) ->
  _check_callable h (default (JList []) (m !! "params")) = Return true ->
  _dispatch_method_call reg m c
  = (let* sent :=
       handler_actions m
         (run_actions (h_call h (py_star (default (JList []) (m !! "params")))))
         false in
     match run_end (h_call h (py_star (default (JList []) (m !! "params")))) with
     | handler_returns response =>
         if sent then ret tt
         else push_outgoing
                (<["result" := response]> (<["id" := id]> jsonrpc_header))
     | handler_raises_structured e =>
         push_outgoing
           (<["error" := error_member e]> (<["id" := id]> jsonrpc_header))
     | handler_raises_other =>
         push_outgoing
           (<["error" :=
                error_member (MessageBusError (JStr "UncaughtException") None)]>
              (<["id" := id]> jsonrpc_header))
     end) c.
Proof.
  intros Hid Hname Hfound Hcheck.
  unfold _dispatch_method_call, invoke, try_except, getitem, bind, lift, ret,
    raise.
  rewrite Hname. cbn -[handler_actions push_outgoing send_error
                       send_method_return].
  rewrite Hfound. cbn -[handler_actions push_outgoing send_error
                        send_method_return].
  rewrite Hcheck. cbn -[handler_actions push_outgoing send_error
                        send_method_return].
  pose proof (handler_actions_returns m id
    (run_actions (h_call h (py_star (default (JList []) (m !! "params")))))
    false c Hid) as Hact.
  unfold result_of in Hact.
  destruct (handler_actions m _ false c) as [[r c1] e1]. cbn in Hact.
  subst r. cbn -[push_outgoing send_error send_method_return].
  destruct (run_end _) as [response|e|];
    cbn -[push_outgoing send_error send_method_return].
  - destruct (match run_actions _ with [] => false | _ :: _ => true end);
      cbn -[push_outgoing send_error send_method_return];
      [now rewrite !app_nil_r|].
    rewrite (send_method_return_eq m id response c1 Hid).
    destruct (push_outgoing _ c1) as [[r2 c2] e2]. cbn.
    now rewrite !app_nil_r.
  - rewrite (send_error_eq m id e c1 Hid).
    destruct (push_outgoing_returns
                (<["error" := error_member e]> (<["id" := id]> jsonrpc_header))
                c1) as [Hr _].
    unfold result_of in Hr. destruct (push_outgoing _ c1) as [[r2 c2] e2].
    cbn in Hr. subst r2. cbn. now rewrite !app_nil_r.
  - rewrite (send_error_eq m id _ c1 Hid).
    match goal with
    | |- context [push_outgoing ?x c1] =>
        destruct (push_outgoing_returns x c1) as [Hr _];
        unfold result_of in Hr; destruct (push_outgoing x c1) as [[r2 c2] e2]
    end.
    cbn in Hr. subst r2. cbn. now rewrite !app_nil_r.
Qed.

(** C3: for a request, that is a message with [id] and [method]: an
    unknown method name is answered with the error [NotFound]; a known
    method called with fewer arguments than it has parameters without
    defaults, or with more than it has parameters when it is not
    variadic, is answered with [InvalidCall], whatever its body is; a
    handler that raises a structured error is answered with that error,
    one that raises anything else with [UncaughtException]; and a
    handler that returns with [response_sent] still false is answered
    with its return value as [result]. *)
Theorem dispatch_method_call_replies reg m id name c :
  m !! "id" = Some id -> m !! "method" = Some name ->
  (lookup_handler (methods reg) name = Return None ->
   _dispatch_method_call reg m c
   = push_outgoing
       (<["error" :=
            error_member
              (MessageBusError (JStr "NotFound")
                 (Some (JStr "No such method call")))]>
          (<["id" := id]> jsonrpc_header)) c)
  /\ (forall h n,
       lookup_handler (methods reg) name = Return (Some h) ->
       h_callable h = true -> (1 <= spec_args (h_spec h))%nat ->
       py_len (default (JList []) (m !! "params")) = Return n ->
       let required :=
         Z.of_nat (spec_args (h_spec h)) - 1
         - Z.of_nat (spec_defaults (h_spec h)) in
       let total := Z.of_nat (spec_args (h_spec h)) - 1 in
       let run := h_call h (py_star (default (JList []) (m !! "params"))) in
       (n < required \/ (spec_varargs (h_spec h) = false /\ total < n) ->
        _dispatch_method_call reg m c
        = push_outgoing
            (<["error" :=
                 error_member
                   (MessageBusError (JStr "InvalidCall")
                      (Some (JStr "Wrong number of arguments")))]>
               (<["id" := id]> jsonrpc_header)) c)
       /\ (required <= n /\ (spec_varargs (h_spec h) = true \/ n <= total) ->
           (forall e, run_end run = handler_raises_structured e ->
              _dispatch_method_call reg m c
              = (handler_actions m (run_actions run) false;;
                 push_outgoing
                   (<["error" := error_member e]>
                      (<["id" := id]> jsonrpc_header))) c)
           /\ (run_end run = handler_raises_other ->
               _dispatch_method_call reg m c
               = (handler_actions m (run_actions run) false;;
                  push_outgoing
                    (<["error" :=
                         error_member
                           (MessageBusError (JStr "UncaughtException") None)]>
                       (<["id" := id]> jsonrpc_header))) c)
           /\ (forall response,
                 run_end run = handler_returns response ->
                 run_actions run = [] ->
                 _dispatch_method_call reg m c
                 = push_outgoing
                     (<["result" := response]>
                        (<["id" := id]> jsonrpc_header)) c))).
Proof.
  intros Hid Hname. split.
  - intros Hnone.
    unfold _dispatch_method_call, getitem, bind, lift.
    rewrite Hname. cbn -[send_error push_outgoing]. rewrite Hnone. cbn -[send_error push_outgoing].
    rewrite (send_error_eq m id _ c Hid).
    match goal with
    | |- context [push_outgoing ?x c] =>
        now destruct (push_outgoing x c) as [[r1 c1] e1]
    end.
  - intros h n Hfound Hcall Hself Hlen required total run.
    pose proof (check_callable_spec h _ n Hcall Hself Hlen) as Hcheck.
    fold required total in Hcheck. split.
    + intros Hbad.
      assert (Hfalse : _check_callable h (default (JList []) (m !! "params"))
                       = Return false).
      { rewrite Hcheck. f_equal. apply andb_false_iff.
        destruct Hbad as [Hlow|[Hvar Hhigh]].
        - left. apply Z.leb_gt. exact Hlow.
        - right. rewrite Hvar. apply Z.leb_gt. exact Hhigh. }
      unfold _dispatch_method_call, getitem, bind, lift.
      rewrite Hname. cbn -[send_error push_outgoing]. rewrite Hfound. cbn -[send_error push_outgoing].
      rewrite Hfalse. cbn -[send_error push_outgoing].
      rewrite (send_error_eq m id _ c Hid).
      match goal with
      | |- context [push_outgoing ?x c] =>
          now destruct (push_outgoing x c) as [[r1 c1] e1]
      end.
    + intros [Hlow Hhigh].
      assert (Htrue : _check_callable h (default (JList []) (m !! "params"))
                      = Return true).
      { rewrite Hcheck. f_equal. apply andb_true_iff. split.
        - apply Z.leb_le. exact Hlow.
        - destruct Hhigh as [->|Hhigh]; [reflexivity|].
          apply orb_true_iff. right. apply Z.leb_le. exact Hhigh. }
      pose proof (dispatch_method_call_invoked reg m id name h c Hid Hname
                    Hfound Htrue) as Heq.
      fold run in Heq. split; [|split].
      * intros e He. rewrite Heq, He. reflexivity.
      * intros He. rewrite Heq, He. reflexivity.
      * intros response He Hacts. rewrite Heq, He, Hacts.
        unfold bind. cbn -[push_outgoing].
        match goal with
        | |- context [push_outgoing ?x c] =>
            now destruct (push_outgoing x c) as [[r1 c1] e1]
        end.
Qed.

End Handler.

End BusFacts.

(** ** The server *)

Module ServerFacts.
Import Bus Views BusFacts Server.

Section Fanout.
Context `{library}.

(** *** The rendezvous *)



Lemma fresh_unused {A} (m : gmap nat A) : m !! fresh m = None.
Proof.
  destruct (m !! fresh m) as [a|] eqn:Hm; [|reflexivity]. exfalso.
  apply elem_of_map_to_list in Hm.
  assert (Hle : forall l : list (nat * A), forall k a,
            (k, a) ∈ l -> (k <= foldr Nat.max 0 l.*1)%nat).
  { induction l as [|[k' a'] l IH]; intros k a0 Hin.
    - now apply elem_of_nil in Hin.
    - cbn. apply elem_of_cons in Hin as [[= -> ->]|Hin]; [lia|].
      specialize (IH _ _ Hin). lia. }
  specialize (Hle _ _ _ Hm). unfold fresh in Hle. lia.
Qed.

(** *** Replies reach their waiter *)







(** *** Registration *)

(** [call_method] with a callback: no effect outside the connection,
    the same peer, and the entry it leaves in the call table. *)
Lemma call_method_entry method args cb timeout_kw c :
  events_of (call_method method args (Some cb) timeout_kw c) = []
  /\ peer_name (state_of (call_method method args (Some cb) timeout_kw c))
     = peer_name c
  /\ method_calls (state_of (call_method method args (Some cb) timeout_kw c))
     = <[next_serial c :=
           {| mrc_id := next_serial c; mrc_callback := cb;
              mrc_timer := next_timer c |}]> (method_calls c).
Proof.
  unfold call_method, create_timer, push_outgoing, enable_watch_write, bind,
    get, modify, ret, state_of, events_of.
  cbn. destruct (negb (closed c) && negb (_writing c)); cbn;
    [destruct (_write_event c); cbn|]; now repeat split.
Qed.

Lemma on_connection_call i method args cb timeout_kw s c :
  objects s !! i = Some c ->
  on_connection i (call_method method args (Some cb) timeout_kw) s
  = (set_objects
       (<[i := state_of (call_method method args (Some cb) timeout_kw c)]>
          (objects s)) s, []).
Proof.
  intros Hc. unfold on_connection. rewrite Hc.
  destruct (call_method_entry method args cb timeout_kw c) as (-> & _).
  reflexivity.
Qed.



(** *** The histories of a server *)




End Fanout.

End ServerFacts.

(** ** The scanner on a growing buffer *)

Module ScannerStream.
Import Scanner ScannerFacts.

(** An index the scanner returns lies in the part it was given. *)
Lemma scan_range buf : forall st d i k,
  scan st d i buf = Return k ->
  k = -1 \/ i <= k < i + Z.of_nat (length buf).
Proof.
  induction buf as [|ch buf IH]; intros st d i k; cbn [scan].
  { intros [= <-]. now left. }
  destruct (scan_char st d ch) as [[st' d']|e]; [|discriminate].
  destruct (is_object st' && (d' =? 0)).
  - intros [= <-]. right. cbn [length]. lia.
  - intros Hk. apply IH in Hk. cbn [length]. lia.
Qed.

(** What the scanner has found it finds again, at the same place, in
    the frame alone and in the buffer with more data behind it. *)
Lemma scan_found more buf : forall st d i k,
  scan st d i buf = Return k -> 0 <= i -> 0 <= k ->
  scan st d i (buf ++ more) = Return k
  /\ scan st d i (take (Z.to_nat (k - i + 1)) buf) = Return k.
Proof.
  induction buf as [|ch buf IH]; intros st d i k; cbn [scan].
  { intros [= <-]. lia. }
  intros Hk Hi Hk0.
  assert (Hle : i <= k).
  { change (match scan_char st d ch with
            | Return (st', d') =>
                if is_object st' && (d' =? 0) then Return i
                else scan st' d' (i + 1) buf
            | Raise e => Raise e
            end) with (scan st d i (ch :: buf)) in Hk.
    apply scan_range in Hk. lia. }
  replace (Z.to_nat (k - i + 1)) with (S (Z.to_nat (k - i))) by lia.
  cbn [app take scan].
  destruct (scan_char st d ch) as [[st' d']|e]; [|discriminate].
  destruct (is_object st' && (d' =? 0)) eqn:Hend.
  - now split.
  - assert (Hlt : i + 1 <= k) by (apply scan_range in Hk; lia).
    destruct (IH st' d' (i + 1) k Hk ltac:(lia) Hk0) as [Happ Htake].
    split; [exact Happ|].
    now replace (Z.to_nat (k - i)) with (Z.to_nat (k - (i + 1) + 1)) by lia.
Qed.

Lemma scan_raises more buf : forall st d i e,
  scan st d i buf = Raise e -> scan st d i (buf ++ more) = Raise e.
Proof.
  induction buf as [|ch buf IH]; intros st d i e; cbn [scan app];
    [discriminate|].
  destruct (scan_char st d ch) as [[st' d']|e']; [|trivial].
  destruct (is_object st' && (d' =? 0)); [discriminate|apply IH].
Qed.

(** X1: [find_message_end] is stable under more input.  An end that it
    finds in [buf] is found at the same index when more characters
    follow, and in the prefix of [buf] that stops there, and it lies
    inside [buf]; an error that it raises on [buf] is raised on every
    extension of [buf]; and when an extension holds no complete
    message, [buf] holds none either. *)
Theorem find_message_end_stable (buf more : list ascii) :
  (forall i, find_message_end buf = Return i -> 0 <= i ->
     find_message_end (buf ++ more) = Return i
     /\ find_message_end (take (Z.to_nat (i + 1)) buf) = Return i
     /\ (i < Z.of_nat (length buf)))
  /\ (forall e, find_message_end buf = Raise e ->
        find_message_end (buf ++ more) = Raise e)
  /\ (find_message_end (buf ++ more) = Return (-1) ->
        find_message_end buf = Return (-1)).
Proof.
  unfold find_message_end. split; [|split].
  - intros i Hi Hpos.
    destruct (scan_found more buf _ _ _ _ Hi ltac:(lia) Hpos) as [Ha Ht].
    split; [exact Ha|]. split.
    + now replace (i + 1) with (i - 0 + 1) by lia.
    + apply scan_range in Hi. lia.
  - intros e. apply scan_raises.
  - intros Hmore. destruct (scan s_preamble 0 0 buf) as [k|e] eqn:Hk.
    + destruct (scan_range _ _ _ _ _ Hk) as [->|Hr]; [reflexivity|].
      destruct (scan_found more buf _ _ _ _ Hk ltac:(lia) ltac:(lia)) as [Ha _].
      rewrite Ha in Hmore. injection Hmore as ->. lia.
    + rewrite (scan_raises more buf _ _ _ _ Hk) in Hmore. discriminate.
Qed.

End ScannerStream.

(** ** The read pump *)

Module PumpFacts.
Import Bus Views BusFacts Scanner ScannerFacts ScannerStream Streams.

Section Read.
Context `{library}.

Lemma traced_app inc e1 e2 : traced inc (e1 ++ e2) = traced inc e1 ++ traced inc e2.
Proof.
  induction e1 as [|[] e1 IH]; cbn; try assumption; [reflexivity|].
  destruct (Bool.eqb incoming inc); cbn; now rewrite IH.
Qed.

Lemma traced_lifecycle inc nm l :
  traced inc ((fun callback => ev_lifecycle callback nm) <$> l) = [].
Proof. induction l as [|x l IH]; cbn; [reflexivity|assumption]. Qed.

(** [close] touches the [closed] flag and the two watches, and traces
    nothing. *)
Lemma close_fields c :
  let c' := state_of (close c) in
  _inbuf c' = _inbuf c /\ _incoming c' = _incoming c
  /\ _outbuf c' = _outbuf c /\ _outgoing c' = _outgoing c
  /\ tracefile c' = tracefile c
  /\ max_message_size c' = max_message_size c
  /\ max_incoming_messages c' = max_incoming_messages c
  /\ _reading c' = _reading c /\ _writing c' = _writing c
  /\ hub_callbacks c' = hub_callbacks c
  /\ (forall inc, traced inc (events_of (close c)) = [])
  /\ result_of (close c) = Return tt
  /\ closed c' = true
  /\ (closed c = false -> _read_event c' = false /\ _write_event c' = false)
  /\ (closed c = true -> c' = c).
Proof.
  unfold close, _run_callbacks, disable_watch_read, disable_watch_write,
    bind, get, modify, emit, ret, state_of, events_of, result_of.
  cbn. destruct (closed c) eqn:Hc; cbn; [repeat split; auto; discriminate|].
  destruct (_read_event c) eqn:Hr; cbn; destruct (_write_event c) eqn:Hw; cbn;
    repeat split; auto; try discriminate; intros inc; apply traced_lifecycle.
Qed.

Lemma complete_frame_take buf pos :
  find_message_end buf = Return pos -> pos <> -1 ->
  0 <= pos < Z.of_nat (length buf)
  /\ complete_frame (take (Z.to_nat (pos + 1)) buf) = true.
Proof.
  intros Hpos Hne. unfold find_message_end in Hpos.
  destruct (scan_range _ _ _ _ _ Hpos) as [?|Hr]; [contradiction|].
  split; [lia|].
  destruct (scan_found [] buf _ _ _ _ Hpos ltac:(lia) ltac:(lia)) as [_ Ht].
  unfold complete_frame, find_message_end.
  replace (pos - 0 + 1) with (pos + 1) in Ht by lia. rewrite Ht.
  rewrite length_take. apply andb_true_intro. split; [lia|].
  apply Z.eqb_eq. lia.
Qed.

(** The inner loop of the read pump cuts complete frames off the front
    of the buffer, in order, and traces them when tracing is on; it
    leaves a buffer in which the scanner finds no frame, or one that the
    scanner rejects. *)
Lemma extract_messages_frames fuel : forall c,
  exists new,
    state_of (extract_messages fuel c)
    = set_inbuf (_inbuf (state_of (extract_messages fuel c)))
        (set_incoming (_incoming c ++ new) c)
    /\ concat new ++ _inbuf (state_of (extract_messages fuel c)) = _inbuf c
    /\ Forall (fun f => complete_frame f = true) new
    /\ traced true (events_of (extract_messages fuel c))
       = match tracefile c with Some _ => new | None => [] end
    /\ traced false (events_of (extract_messages fuel c)) = []
    /\ closed_events (events_of (extract_messages fuel c)) = []
    /\ ((length (_inbuf c) <= fuel)%nat ->
        result_of (extract_messages fuel c) = Return tt ->
        find_message_end (_inbuf (state_of (extract_messages fuel c)))
        = Return (-1))
    /\ (forall e, result_of (extract_messages fuel c) = Raise e ->
        e = ValueError
        /\ find_message_end (_inbuf (state_of (extract_messages fuel c)))
           = Raise ValueError).
Proof.
  assert (Hself : forall c : conn,
    c = set_inbuf (_inbuf c) (set_incoming (_incoming c ++ []) c))
    by (intros c; rewrite app_nil_r; now destruct c).
  induction fuel as [|fuel IH]; intros c; cbn [extract_messages].
  { exists []. cbn. split; [apply Hself|].
    repeat split; try reflexivity; try discriminate.
    - constructor.
    - now destruct (tracefile c).
    - intros Hl _. destruct (_inbuf c); [reflexivity|cbn in Hl; lia]. }
  unfold bind, get, lift, modify, _do_trace, emit, ret, state_of, events_of,
    result_of in *.
  cbn -[extract_messages find_message_end].
  destruct (_inbuf c) as [|ch buf] eqn:Hbuf.
  { exists []. cbn. split; [apply Hself|]. rewrite Hbuf.
    repeat split; try reflexivity; try discriminate.
    - constructor.
    - now destruct (tracefile c). }
  destruct (find_message_end (ch :: buf)) as [pos|e] eqn:Hpos;
    cbn -[extract_messages find_message_end].
  2:{ exists []. cbn -[find_message_end]. split; [apply Hself|]. rewrite Hbuf.
      apply find_message_end_raises in Hpos as Hv.
      repeat split; try reflexivity; try discriminate; try assumption.
      - constructor.
      - now destruct (tracefile c).
      - congruence. }
  destruct (Z.eqb_spec pos (-1)) as [->|Hne];
    cbn -[extract_messages find_message_end].
  { exists []. cbn -[find_message_end]. split; [apply Hself|]. rewrite Hbuf.
    repeat split; try reflexivity; try discriminate; try assumption.
    - constructor.
    - now destruct (tracefile c).
    - intros _ _. exact Hpos. }
  destruct (complete_frame_take _ _ Hpos Hne) as [Hr Hcomplete].
  set (msg := take (Z.to_nat (pos + 1)) (ch :: buf)) in *.
  set (rest := drop (Z.to_nat (pos + 1)) (ch :: buf)) in *.
  assert (Hsplit : msg ++ rest = ch :: buf) by apply take_drop.
  assert (Hlen : (length rest < length (ch :: buf))%nat).
  { subst rest. rewrite length_drop. lia. }
  destruct (tracefile c) eqn:Htr; cbn -[extract_messages find_message_end];
    match goal with
    | |- context [extract_messages fuel ?c2] =>
        destruct (IH c2) as (new & Hst & Hcat & Hall & Htt & Htf & Hce & Hret & Hraise);
        destruct (extract_messages fuel c2) as [[r c3] e3] eqn:Hrun
    end;
    cbn -[find_message_end] in *; rewrite ?Htr in *;
    rewrite Hbuf in Hcat, Hret; fold rest in Hcat, Hret;
    exists (msg :: new); cbn -[find_message_end];
    (split; [rewrite Hst at 1; cbn; now rewrite <- app_assoc|]);
    (split; [rewrite <- app_assoc, Hcat; exact Hsplit|]);
    (split; [now constructor|]);
    (split; [congruence|]);
    (split; [assumption|]);
    (split; [assumption|]);
    (split; [intros Hfuel; apply Hret; lia|assumption]).
Qed.

Lemma pumped_quiet c chunks new c1 e1 c2 e2 :
  pumped c chunks new c1 e1 ->
  _incoming c2 = _incoming c1 -> _inbuf c2 = _inbuf c1 ->
  tracefile c2 = tracefile c1 -> max_message_size c2 = max_message_size c1 ->
  traced true e2 = [] -> traced false e2 = [] ->
  pumped c chunks new c2 (e1 ++ e2).
Proof.
  intros (P1 & P2 & P3 & P4 & P5 & P6 & P7) H1 H2 H3 H4 H5 H6.
  unfold pumped. rewrite !traced_app, H1, H2, H3, H4, H5, H6, !app_nil_r.
  now repeat split.
Qed.

Lemma read_loop_frames recvs : forall c, read_outcome c recvs (read_loop recvs c).
Proof.
  assert (Hclose : forall c chunks new c1 e1 e rest,
    pumped c chunks new c1 e1 -> traced true e = [] -> traced false e = [] ->
    find_message_end (_inbuf c1) = Return (-1) ->
    read_outcome c ((recv_data <$> chunks) ++ rest)
      (result_of (close c1), state_of (close c1), e1 ++ e ++ events_of (close c1))).
  { intros c chunks new c1 e1 e rest P Ht Hf Hres.
    destruct (close_fields c1)
      as (C1 & C2 & _ & _ & C5 & C6 & _ & _ & _ & _ & C11 & C12 & C13 & _).
    exists chunks, rest, new. split; [reflexivity|].
    cbn [state_of events_of result_of fst snd].
    split; [|split; [|now left]].
    - apply (pumped_quiet _ _ _ _ _ _ _ P); try assumption;
        now rewrite traced_app, C11, ?Ht, ?Hf.
    - unfold residue. rewrite C1, C13. split; [now left|discriminate]. }
  induction recvs as [|x recvs IH]; intros c; cbn [read_loop].
  all: destruct (extract_messages_frames (length (_inbuf c)) c)
         as (new1 & Hst & Hcat & Hall & Htt & Htf & _ & Hret & Hraise).
  all: unfold bind at 1 2, get at 1.
  all: unfold state_of, events_of, result_of in Hst, Hcat, Htt, Htf, Hret, Hraise.
  all: destruct (extract_messages (length (_inbuf c)) c) as [[[[]|x1] c1] e1];
         cbn [fst snd] in *.
  all: assert (P1 : pumped c [] new1 c1 e1)
         by (unfold pumped; rewrite app_nil_r, Hst; cbn; now repeat split).
  all: cbn [app].
  (* the scanner rejected the buffer *)
  2,4: destruct (Hraise x1 eq_refl) as [-> Hv];
       match goal with |- read_outcome _ ?rs _ => exists [], rs, new1 end;
       cbn [state_of events_of result_of fst snd];
       (split; [reflexivity|split; [exact P1|split; [|now right; left]]]);
       (split; [now right|now right]).
  all: specialize (Hret ltac:(lia) eq_refl).
  all: unfold bind at 1, get at 1.
  all: destruct (max_message_size c1 <? Z.of_nat (length (_inbuf c1))) eqn:Hsize.
  (* the message is too large *)
  1,3: match goal with |- read_outcome _ ?rs _ =>
         pose proof (Hclose c [] new1 c1 e1 [] rs P1 eq_refl eq_refl Hret) as Hc
       end;
       unfold state_of, events_of, result_of in Hc; cbn [fmap list_fmap app] in Hc;
       destruct (close c1) as [[r2 c2] e2]; exact Hc.
  all: apply Z.ltb_ge in Hsize.
  all: assert (Hres1 : forall c2, _inbuf c2 = _inbuf c1 ->
         max_message_size c2 = max_message_size c1 -> residue c2)
         by (intros c2 E1 E2; unfold residue; rewrite E1, E2;
             split; [now left|intros _; left; lia]).
  all: destruct (max_incoming_messages c1 <? Z.of_nat (length (_incoming c1))) eqn:Hmany.
  (* the queue is full *)
  1,3: match goal with |- read_outcome _ ?rs _ => exists [], rs, new1 end;
       unfold disable_watch_read, bind, modify; cbn;
       (split; [reflexivity|split; [|split; [|now left]]]);
       [ apply (pumped_quiet _ _ _ _ _ _ _ P1); destruct (_read_event c1); reflexivity
       | apply Hres1; destruct (_read_event c1); reflexivity ].
  all: unfold bind at 1, emit at 1.
  { exists [], [], new1. cbn.
    split; [reflexivity|split; [|split; [|now left]]].
    - now apply (pumped_quiet _ _ _ _ _ _ _ P1).
    - now apply Hres1. }
  assert (Hclose1 : read_outcome c (x :: recvs)
            (result_of (close c1), state_of (close c1),
             e1 ++ [ev_recv] ++ events_of (close c1)))
    by exact (Hclose c [] new1 c1 e1 [ev_recv] (x :: recvs) P1 eq_refl eq_refl Hret).
  unfold state_of, events_of, result_of in Hclose1.
  destruct x as [[|ch buf]| |].
  - destruct (close c1) as [[r2 c2] e2]. exact Hclose1.
  - unfold bind at 1, lift at 1, decode_ascii.
    destruct (forallb _ (ch :: buf)).
    2:{ exists [], (recv_data (ch :: buf) :: recvs), new1. cbn.
        split; [reflexivity|split; [|split; [|now right; right]]].
        - now apply (pumped_quiet _ _ _ _ _ _ _ P1).
        - now apply Hres1. }
    unfold bind at 1, modify at 1.
    destruct (IH (set_inbuf (_inbuf c1 ++ ch :: buf) c1))
      as (chunks & rest & new & -> & P2 & R2 & Hresult).
    unfold state_of, events_of, result_of in P2, R2, Hresult.
    destruct (read_loop _ (set_inbuf (_inbuf c1 ++ ch :: buf) c1))
      as [[r3 c3] e3].
    cbn [fst snd] in *.
    exists ((ch :: buf) :: chunks), rest, (new1 ++ new).
    cbn [state_of events_of result_of fst snd app].
    split; [reflexivity|split; [|split; assumption]].
    destruct P1 as (Q1 & Q2 & Q3 & Q4 & Q5 & Q6 & Q7).
    destruct P2 as (S1 & S2 & S3 & S4 & S5 & S6 & S7).
    cbn in S1, S2, S4, S6, S7. rewrite app_nil_r in Q2.
    unfold pumped.
    change (e1 ++ ev_recv :: e3) with (e1 ++ [ev_recv] ++ e3).
    rewrite !traced_app, Q4, Q5, S4, S5, S1, Q1, S6, S7, Q6, Q7.
    cbn [traced app concat].
    repeat split.
    + now rewrite app_assoc.
    + rewrite concat_app, <- app_assoc, S2, <- Q2. now rewrite <- !app_assoc.
    + now apply Forall_app.
    + now destruct (tracefile c).
  - exists [], (recv_wouldblock :: recvs), new1. cbn.
    split; [reflexivity|split; [|split; [|now left]]].
    + now apply (pumped_quiet _ _ _ _ _ _ _ P1).
    + now apply Hres1.
  - destruct (close c1) as [[r2 c2] e2]. exact Hclose1.
Qed.

(** The read pump: [_do_read] schedules [dispatch]. *)
Lemma do_read_frames recvs c : read_outcome c recvs (_do_read recvs c).
Proof.
  destruct (read_loop_frames recvs c)
    as (chunks & rest & new & -> & P & R & Hresult).
  unfold _do_read, bind, get, create_callback, modify, ret.
  unfold state_of, events_of, result_of in *.
  destruct (read_loop _ c) as [[[[]|x] c1] e1]; cbn [fst snd] in *.
  2:{ exists chunks, rest, new.
      split; [reflexivity|split; [exact P|split; [exact R|exact Hresult]]]. }
  exists chunks, rest, new. split; [reflexivity|].
  destruct (_incoming c1) eqn:Hin;
    cbn [state_of events_of result_of fst snd]; rewrite app_nil_r.
  - split; [exact P|split; [exact R|now left]].
  - split; [|split; [exact R|now left]].
    rewrite <- (app_nil_r e1). apply (pumped_quiet _ _ _ _ _ _ _ P); reflexivity.
Qed.

Lemma in_refl c : in_frame c c [].
Proof. now repeat split. Qed.

Lemma in_trans c c1 c2 e1 e2 :
  in_frame c c1 e1 -> in_frame c1 c2 e2 -> in_frame c c2 (e1 ++ e2).
Proof.
  intros (A1 & A2 & A3) (B1 & B2 & B3). unfold in_frame.
  rewrite B1, B2, A1, A2. repeat split. now transitivity (_incoming c1).
Qed.

Ltac in_leaf :=
  let c := fresh "c" in
  intros c; unfold modify, emit, state_of, events_of; cbn;
  repeat match goal with
         | |- context [if ?b then _ else _] => destruct b eqn:?
         | |- context [match ?b with Some _ => _ | None => _ end] =>
             destruct b eqn:?
         end;
  unfold in_frame; cbn; repeat split; try reflexivity.

Ltac in_go := respects_go in_refl in_trans; try in_leaf.

Lemma in_close : respects in_frame close.
Proof.
  intros c. destruct (close_fields c) as (C1 & C2 & _ & _ & _ & C6 & _).
  unfold in_frame. now rewrite C1, C2, C6.
Qed.

#[local] Hint Resolve in_close : respects.

Lemma in_push_outgoing m : respects in_frame (push_outgoing m).
Proof. unfold push_outgoing, enable_watch_write. in_go. Qed.

#[local] Hint Resolve in_push_outgoing : respects.

Lemma in_pop_incoming : respects in_frame pop_incoming.
Proof.
  intros c. unfold pop_incoming, bind, get, modify, ret, state_of, events_of.
  cbn -[close]. destruct (_incoming c) as [|frame rest] eqn:Hin; cbn -[close];
    [apply in_refl|].
  assert (Hc : in_frame c (state_of (close (set_incoming rest c))) []).
  { destruct (close_fields (set_incoming rest c)) as (C1 & C2 & _ & _ & _ & C6 & _).
    unfold in_frame. rewrite C1, C2, C6, Hin. cbn.
    repeat split. now apply suffix_cons_r. }
  unfold state_of in Hc.
  destruct (try_loads frame) as [m|]; cbn -[close].
  2:{ destruct (close (set_incoming rest c)) as [[[] c2] e2]; cbn; apply Hc. }
  destruct (check_message m); cbn -[close].
  2:{ destruct (close (set_incoming rest c)) as [[[] c2] e2]; cbn; apply Hc. }
  unfold enable_watch_read, modify.
  destruct (negb (_reading c) && negb (closed c)
            && (Z.of_nat (length rest) <? max_incoming_messages c)); cbn;
    [destruct (_read_event c); cbn|];
    unfold in_frame; cbn; rewrite Hin; repeat split; now apply suffix_cons_r.
Qed.

#[local] Hint Resolve in_pop_incoming : respects.

Lemma in_write_loop sends : respects in_frame (write_loop sends).
Proof.
  induction sends as [|x sends IH]; cbn [write_loop]; unfold _do_trace; in_go.
Qed.

#[local] Hint Resolve in_write_loop : respects.

Lemma in_do_write sends : respects in_frame (_do_write sends).
Proof. unfold _do_write, disable_watch_write. in_go. Qed.

Lemma in_send_method_return m value : respects in_frame (send_method_return m value).
Proof. unfold send_method_return. in_go. Qed.

Lemma in_send_error m e : respects in_frame (send_error m e).
Proof. unfold send_error. in_go. Qed.

#[local] Hint Resolve in_do_write in_send_method_return in_send_error : respects.

Lemma in_handler_actions m actions : forall sent,
  respects in_frame (handler_actions m actions sent).
Proof.
  induction actions as [|[] actions IH]; intros sent; cbn [handler_actions];
    unfold early_response, delay_response; in_go.
Qed.

#[local] Hint Resolve in_handler_actions : respects.

Lemma in_handler_dispatch reg m : respects in_frame (handler_dispatch reg m).
Proof.
  unfold handler_dispatch, _dispatch_method_call, _dispatch_signal, invoke.
  in_go.
Qed.

#[local] Hint Resolve in_handler_dispatch : respects.

Lemma in_dispatch_loop fuel : respects in_frame (dispatch_loop fuel).
Proof.
  induction fuel as [|fuel IH]; cbn [dispatch_loop];
    unfold method_calls_pop, create_callback, spawn; in_go.
Qed.

#[local] Hint Resolve in_dispatch_loop : respects.

Lemma in_step o : (forall recvs, o <> op_do_read recvs) ->
  respects in_frame (step o).
Proof.
  intros Ho. destruct o; cbn [step]; [now destruct (Ho recvs)|..];
    unfold fire_timer, run_callback, dispatch, method_return_callback_run,
      method_calls_del, cancel_timer, call_method, create_timer, send_signal,
      add_callback, set_trace, create_callback;
    in_go.
Qed.

Lemma read_inv_step o c : read_inv c -> read_inv (state_of (step o c)).
Proof.
  intros [Hq [Hres Hlen]].
  assert (Hother : (forall recvs, o <> op_do_read recvs) ->
            read_inv (state_of (step o c))).
  { intros Ho. destruct (in_step o Ho c) as (I1 & I2 & I3).
    destruct (life_step_op o c) as (_ & Hclosed & _).
    split; [|split].
    - destruct I3 as [l Hl]. rewrite Hl in Hq. now apply Forall_app in Hq.
    - now rewrite I1.
    - rewrite I1, I2. intros Hc'. apply Hlen.
      destruct (closed c) eqn:Hc; [|reflexivity].
      destruct (Hclosed eq_refl) as [Hc2 _]. congruence. }
  destruct o; try (apply Hother; discriminate).
  cbn [step].
  destruct (do_read_frames recvs c) as (chunks & rest & new & _ & P & R & _).
  destruct P as (P1 & _ & P3 & _).
  split; [|exact R]. rewrite P1. now apply Forall_app.
Qed.

Lemma read_inv_run ops : forall c, read_inv c -> read_inv (fst (run ops c)).
Proof.
  induction ops as [|o ops IH]; intros c Hc; cbn [run fst]; [exact Hc|].
  apply IH, read_inv_step, Hc.
Qed.

Lemma read_inv_init h nm peer : read_inv (init h nm peer).
Proof.
  split; [constructor|]. split; [now left|]. intros _. left. cbn. lia.
Qed.

Lemma max_message_size_run ops : forall c,
  max_message_size (fst (run ops c)) = max_message_size c.
Proof.
  induction ops as [|o ops IH]; intros c; cbn [run fst]; [reflexivity|].
  rewrite IH. destruct o; try (apply in_step; discriminate).
  cbn [step].
  destruct (do_read_frames recvs c) as (chunks & rest & new & _ & P & _).
  apply P.
Qed.


(** X3: whatever is done to a connection after its construction, every
    entry of [_incoming] is one complete frame: the scanner finds the
    end of a message at its last character, and no earlier. *)
Theorem queued_frames_complete ops h nm peer :
  Forall (fun f => complete_frame f = true)
    (_incoming (fst (run ops (init h nm peer)))).
Proof. apply (read_inv_run ops _ (read_inv_init h nm peer)). Qed.

(** X4: whatever is done to a connection after its construction,
    [_inbuf] holds no complete message: the scanner answers -1 on it or
    rejects it.  While the connection is open the buffer is no longer
    than [max_message_size], 1024000 characters, unless the scanner
    rejects it. *)
Theorem buffer_bounded ops h nm peer :
  let c := fst (run ops (init h nm peer)) in
  (find_message_end (_inbuf c) = Return (-1)
   \/ find_message_end (_inbuf c) = Raise ValueError)
  /\ (closed c = false ->
      Z.of_nat (length (_inbuf c)) <= 1024000
      \/ find_message_end (_inbuf c) = Raise ValueError).
Proof.
  cbn zeta.
  destruct (read_inv_run ops _ (read_inv_init h nm peer)) as [_ [R1 R2]].
  split; [exact R1|]. intros Hc. specialize (R2 Hc).
  now rewrite max_message_size_run in R2.
Qed.

(** X5: a buffer that the scanner rejects stays.  [_do_read] then raises
    [ValueError] before it asks the socket for anything, whatever the
    socket holds, and leaves the connection as it is, open; and no
    operation of the connection changes the buffer afterwards. *)
Theorem garbage_wedges_reader c e :
  find_message_end (_inbuf c) = Raise e ->
  (forall recvs, _do_read recvs c = (Raise ValueError, c, []))
  /\ (forall ops, _inbuf (fst (run ops c)) = _inbuf c).
Proof.
  assert (Hread : forall c e recvs,
    find_message_end (_inbuf c) = Raise e ->
    _do_read recvs c = (Raise ValueError, c, [])).
  { clear. intros c e recvs He. apply find_message_end_raises in He.
    unfold _do_read. destruct recvs as [|x recvs]; cbn [read_loop];
      unfold bind at 1 2 3, get at 1;
      (destruct (_inbuf c) as [|ch buf] eqn:Hbuf; [discriminate|]);
      cbn [length extract_messages]; unfold bind at 1, get at 1; rewrite Hbuf;
      unfold bind at 1, lift at 1; now rewrite He. }
  intros He. split; [intros recvs; now apply (Hread c e)|].
  intros ops. revert c e He.
  induction ops as [|o ops IH]; intros c e He; cbn [run fst]; [reflexivity|].
  assert (Hstep : _inbuf (state_of (step o c)) = _inbuf c).
  { destruct o; try (apply in_step; discriminate).
    cbn [step]. now rewrite (Hread c e recvs He). }
  rewrite (IH _ e); [exact Hstep|]. now rewrite Hstep.
Qed.

(** X6: [_do_read] traces what it queues.  With a trace file set, the
    messages written to it by one [_do_read] are those that this call
    added to [_incoming], in order and marked as incoming; with none
    set nothing is written; and nothing is ever marked as outgoing. *)
Theorem do_read_traces recvs c :
  exists new,
    _incoming (state_of (_do_read recvs c)) = _incoming c ++ new
    /\ traced true (events_of (_do_read recvs c))
       = match tracefile c with Some _ => new | None => [] end
    /\ traced false (events_of (_do_read recvs c)) = [].
Proof.
  destruct (do_read_frames recvs c) as (chunks & rest & new & _ & P & _).
  destruct P as (P1 & _ & _ & P4 & P5 & _). now exists new.
Qed.

End Read.
End PumpFacts.

(** ** The write pump and the watches *)

Module WriteFacts.
Import Bus Views BusFacts Streams Outbound PumpFacts.

Section Write.
Context `{library}.

Lemma transmitted_lifecycle nm l evs sends :
  transmitted (((fun callback => ev_lifecycle callback nm) <$> l) ++ evs) sends
  = transmitted evs sends.
Proof. induction l as [|x l IH]; cbn; [reflexivity|assumption]. Qed.

Lemma transmitted_close c sends : transmitted (events_of (close c)) sends = [].
Proof.
  unfold close, _run_callbacks, disable_watch_read, disable_watch_write,
    bind, get, modify, emit, ret, state_of, events_of.
  cbn. destruct (closed c); cbn; [reflexivity|].
  destruct (_read_event c); cbn; destruct (_write_event c); cbn;
    rewrite <- (app_nil_r (_ <$> _)); apply transmitted_lifecycle.
Qed.

Lemma write_outcome_stop c c1 e0 moved sends :
  c1 = set_outbuf (_outbuf c1) (set_outgoing (_outgoing c1) c) ->
  _outgoing c = moved ++ _outgoing c1 ->
  pending c1 = pending c ->
  transmitted e0 sends = [] ->
  traced false e0 = match tracefile c with Some _ => moved | None => [] end ->
  traced true e0 = [] ->
  (Forall (fun m => m <> []) (_outgoing c) ->
   _outbuf c1 = [] -> _outgoing c1 = []) ->
  write_outcome c sends (Return tt, c1, e0).
Proof.
  intros Hst Hmoved Hpending Htr Htf Htt Hexit. exists moved.
  cbn [state_of events_of result_of fst snd].
  rewrite Htr. cbn [app].
  assert (Hcl : closed c1 = closed c) by (rewrite Hst; reflexivity).
  repeat split; try assumption; try (rewrite Hst; reflexivity);
    congruence.
Qed.

Lemma write_outcome_close c c1 e0 moved sends :
  c1 = set_outbuf (_outbuf c1) (set_outgoing (_outgoing c1) c) ->
  _outgoing c = moved ++ _outgoing c1 ->
  pending c1 = pending c ->
  transmitted (e0 ++ events_of (close c1)) sends = [] ->
  traced false e0 = match tracefile c with Some _ => moved | None => [] end ->
  traced true e0 = [] ->
  write_outcome c sends
    (result_of (close c1), state_of (close c1), e0 ++ events_of (close c1)).
Proof.
  intros Hst Hmoved Hpending Htr Htf Htt. exists moved.
  destruct (close_fields c1)
    as (C1 & C2 & C3 & C4 & C5 & C6 & C7 & C8 & C9 & C10 & C11 & C12 & C13 & C14 & C15).
  cbn [state_of events_of result_of fst snd] in *.
  rewrite Htr, !traced_app, !C11, !app_nil_r. cbn [app].
  unfold pending in *. rewrite C3, C4, C5, C9.
  assert (Hcl : closed c1 = closed c) by (rewrite Hst; reflexivity).
  assert (Htf1 : tracefile c1 = tracefile c) by (rewrite Hst; reflexivity).
  assert (Hw1 : _writing c1 = _writing c) by (rewrite Hst; reflexivity).
  repeat split; try assumption; try congruence.
  - intros Hc. rewrite C15 by congruence. exact Hst.
  - apply C14. congruence.
  - apply C14. congruence.
Qed.

Lemma write_outcome_next c c2 e0 moved0 n d sends r :
  c2 = set_outbuf (_outbuf c2) (set_outgoing (_outgoing c2) c) ->
  _outgoing c = moved0 ++ _outgoing c2 ->
  take n d ++ pending c2 = pending c ->
  traced false e0 = match tracefile c with Some _ => moved0 | None => [] end ->
  traced true e0 = [] ->
  (forall evs s, transmitted (e0 ++ evs) s = transmitted evs s) ->
  (Forall (fun m => m <> []) (_outgoing c) ->
   Forall (fun m => m <> []) (_outgoing c2)) ->
  write_outcome c2 sends r ->
  write_outcome c (send_ok n :: sends)
    (result_of r, state_of r, e0 ++ ev_send d :: events_of r).
Proof.
  intros Hst Hmoved Hpending Htf Htt Hquiet Hall
    (moved & W1 & W2 & W3 & W4 & W5 & W6 & W7 & W8 & W9 & W10).
  assert (Hcl : closed c2 = closed c) by (rewrite Hst; reflexivity).
  assert (Htr : tracefile c2 = tracefile c) by (rewrite Hst; reflexivity).
  assert (Hw : _writing c2 = _writing c) by (rewrite Hst; reflexivity).
  assert (Hwe : _write_event c2 = _write_event c) by (rewrite Hst; reflexivity).
  assert (Hre : _read_event c2 = _read_event c) by (rewrite Hst; reflexivity).
  exists (moved0 ++ moved).
  cbn [state_of events_of result_of fst snd].
  rewrite Hquiet. cbn [transmitted]. rewrite !traced_app. cbn [traced Bool.eqb].
  rewrite W3, W4, Htf, Htt, Htr.
  split; [rewrite Hmoved, W1; now rewrite app_assoc|].
  split; [rewrite <- app_assoc, W2; exact Hpending|].
  split; [now destruct (tracefile c)|].
  split; [reflexivity|].
  split; [assumption|].
  split; [congruence|].
  split; [congruence|].
  split; [|split].
  - intros Hc. destruct (W8 Hc) as (? & ? & ? & Hexit).
    repeat split; try congruence.
    intros Hnon. apply Hexit, Hall, Hnon.
  - intros Hc. rewrite W9 at 1 by congruence. rewrite Hst at 1. reflexivity.
  - intros Hc Hc'. apply W10; congruence.
Qed.

Lemma self_outgoing (c : conn) :
  c = set_outbuf (_outbuf c) (set_outgoing (_outgoing c) c).
Proof. now destruct c. Qed.

Lemma write_loop_outcome sends : forall c,
  write_outcome c sends (write_loop sends c).
Proof.
  induction sends as [|x sends IH]; intros c; cbn [write_loop].
  all: unfold bind at 1, get at 1.
  all: destruct (_outbuf c) as [|ch ob] eqn:Hob, (_outgoing c) as [|msg rest] eqn:Hog.
  (* nothing to write *)
  1,5: cbn; apply (write_outcome_stop c c _ []);
       [apply self_outgoing|now rewrite Hog|reflexivity|reflexivity
       |now destruct (tracefile c)|reflexivity|now rewrite Hog].
  (* the socket would block *)
  1: destruct (tracefile c) eqn:Htr;
     unfold bind, get, modify, emit, ret, _do_trace; cbn;
     apply (write_outcome_stop c _ _ [msg]);
     cbn; rewrite ?Hob, ?Hog, ?Htr; try reflexivity;
     try (unfold pending; cbn; now rewrite ?Hob, ?Hog);
     try (intros Hall; inversion Hall; subst; intros; congruence).
  1,2: unfold bind, get, modify, emit, ret, _do_trace; cbn;
       apply (write_outcome_stop c _ _ []);
       cbn; rewrite ?Hob, ?Hog; try reflexivity;
       try (rewrite (self_outgoing c) at 1; now rewrite Hob, Hog);
       try (now destruct (tracefile c));
       try discriminate.
  all: destruct x as [n| |].
  (* the queue's first message is loaded *)
  1: destruct (tracefile c) eqn:Htr;
     [ set (e0 := [ev_trace msg false]) | set (e0 := @nil event) ];
     unfold bind, get, modify, emit, ret, _do_trace; cbn -[write_loop];
     match goal with
     | |- context [write_loop sends ?c2] =>
         pose proof (IH c2) as Hih;
         pose proof (write_outcome_next c c2 e0 [msg] n msg
                       sends (write_loop sends c2)) as Hx;
         unfold state_of, events_of, result_of in Hx;
         destruct (write_loop sends c2) as [[r3 c3] e3]
     end;
     apply Hx; clear Hx; cbn; rewrite ?Hob, ?Hog, ?Htr; try reflexivity;
     try assumption;
     try (unfold pending; cbn; now rewrite ?Hob, ?Hog, app_assoc, take_drop);
     try (intros Hall; now inversion Hall).
  1: destruct (tracefile c) eqn:Htr;
     unfold bind, get, modify, emit, ret, _do_trace; cbn;
     apply (write_outcome_stop c _ _ [msg]);
     cbn; rewrite ?Hob, ?Hog, ?Htr; try reflexivity;
     try (unfold pending; cbn; now rewrite ?Hob, ?Hog);
     try (intros Hall; inversion Hall; subst; intros; congruence).
  1: destruct (tracefile c) eqn:Htr;
     [ set (e0 := [ev_trace msg false; ev_send msg])
     | set (e0 := [ev_send msg]) ];
     unfold bind, get, modify, emit, ret, _do_trace; cbn -[close];
     match goal with
     | |- context [close ?c1] =>
         pose proof (write_outcome_close c c1 e0 [msg]
                       (send_failed :: sends)) as Hx;
         unfold state_of, events_of, result_of in Hx;
         destruct (close c1) as [[r3 c3] e3]
     end;
     apply Hx; clear Hx; cbn; rewrite ?Hob, ?Hog, ?Htr; try reflexivity;
     try (unfold pending; cbn; now rewrite ?Hob, ?Hog).
  (* a message is being sent *)
  all: set (e0 := @nil event).
  1,4: unfold bind, get, modify, emit, ret; cbn -[write_loop];
     match goal with
     | |- context [write_loop ?ss ?c2] =>
         pose proof (IH c2) as Hih;
         pose proof (write_outcome_next c c2 e0 [] n (ch :: ob)
                       ss (write_loop ss c2)) as Hx;
         unfold state_of, events_of, result_of in Hx;
         destruct (write_loop ss c2) as [[r3 c3] e3]
     end;
     rewrite Hob in *;
     apply Hx; clear Hx; cbn; rewrite ?Hob, ?Hog; try reflexivity;
     try assumption;
     try (unfold pending; cbn; now rewrite ?Hob, ?Hog, app_assoc, take_drop);
     try (rewrite (self_outgoing c) at 1; now rewrite Hob, Hog);
     try (now destruct (tracefile c));
     try (intros Hall; exact Hall).
  1,3: unfold bind, get, modify, emit, ret, _do_trace; cbn;
       apply (write_outcome_stop c _ _ []);
       cbn; rewrite ?Hob, ?Hog; try reflexivity;
       try (rewrite (self_outgoing c) at 1; now rewrite Hob, Hog);
       try (now destruct (tracefile c));
       try discriminate.
  all: unfold bind, get, modify, emit, ret; cbn -[close];
     match goal with
     | |- write_outcome _ ?ss _ =>
     match goal with
     | |- context [close ?c1] =>
         pose proof (write_outcome_close c c1 [ev_send (ch :: ob)] []
                       ss) as Hx;
         unfold state_of, events_of, result_of in Hx;
         destruct (close c1) as [[r3 c3] e3]
     end end;
     rewrite Hob in *;
     apply Hx; clear Hx; cbn; rewrite ?Hob, ?Hog; try reflexivity;
     try (rewrite (self_outgoing c) at 1; now rewrite Hob, Hog);
     try (now destruct (tracefile c)).
Qed.

(** X7: [_do_write] sends the pending output in order, the queued
    messages being ASCII text, which [encode('ascii')] gives back as it
    is.  What the socket has taken, followed by what is still pending,
    is what was pending before; the messages moved from [_outgoing] to
    the buffer are the first ones of the queue, and are the ones traced
    as outgoing when a trace file is set; the call does not raise; and
    once the buffer is empty the write watch is off. *)
Theorem do_write_keeps_order sends c :
  let r := _do_write sends c in
  Forall (fun msg => decode_ascii msg = Return msg) (_outgoing c) ->
  exists moved,
    transmitted (events_of r) sends ++ pending (state_of r) = pending c
    /\ _outgoing c = moved ++ _outgoing (state_of r)
    /\ traced false (events_of r)
       = match tracefile c with Some _ => moved | None => [] end
    /\ result_of r = Return tt
    /\ (_outbuf (state_of r) = [] ->
        _write_event (state_of r) = false /\ _writing (state_of r) = false).
Proof.
  cbn zeta. intros _.
  destruct (write_loop_outcome sends c)
    as (moved & W1 & W2 & W3 & W4 & W5 & _).
  exists moved. unfold _do_write, bind, get, disable_watch_write, modify, ret.
  unfold state_of, events_of, result_of, pending in *.
  destruct (write_loop sends c) as [[r1 c1] e1]; cbn [fst snd] in *. subst r1.
  destruct (_outbuf c1) as [|ch ob] eqn:Hob; cbn; rewrite ?app_nil_r.
  - destruct (_write_event c1) eqn:Hw; cbn; rewrite Hob; now repeat split.
  - rewrite Hob. repeat split; try assumption; discriminate.
Qed.

(** *** A closed connection stays away from its socket *)

Lemma quiet_refl c : quiet_ok c c [].
Proof. now intros ?. Qed.

Lemma quiet_trans c c1 c2 e1 e2 :
  quiet_ok c c1 e1 -> quiet_ok c1 c2 e2 -> quiet_ok c c2 (e1 ++ e2).
Proof. unfold quiet_ok. auto. Qed.

Ltac quiet_leaf :=
  let c := fresh "c" in
  intros c; unfold modify, emit, state_of, events_of; cbn;
  repeat match goal with
         | |- context [if ?b then _ else _] => destruct b eqn:?
         | |- context [match ?b with Some _ => _ | None => _ end] =>
             destruct b eqn:?
         end;
  unfold quiet_ok, quiet_inv; cbn; intuition congruence.

Ltac quiet_go := respects_go quiet_refl quiet_trans; try quiet_leaf.

Lemma quiet_close : respects quiet_ok close.
Proof.
  intros c Hq Hc.
  destruct (close_fields c) as (_ & _ & _ & _ & _ & _ & _ & _ & _ & _ & _ & _ & _ & C14 & C15).
  destruct (closed c) eqn:Hcl.
  - rewrite C15 by reflexivity. now apply Hq.
  - now apply C14.
Qed.

#[local] Hint Resolve quiet_close : respects.

Lemma quiet_push_outgoing m : respects quiet_ok (push_outgoing m).
Proof.
  intros c. unfold push_outgoing, enable_watch_write, bind, get, modify, ret,
    state_of, events_of. cbn.
  destruct (closed c) eqn:Hc, (_writing c); cbn; try (intros Hq; exact Hq).
  destruct (_write_event c); cbn; unfold quiet_ok, quiet_inv; cbn;
    intros; congruence.
Qed.

Lemma quiet_pop_incoming : respects quiet_ok pop_incoming.
Proof.
  intros c. unfold pop_incoming, bind, get, modify, ret, state_of, events_of.
  cbn -[close]. destruct (_incoming c) as [|frame rest] eqn:Hin; cbn -[close];
    [apply quiet_refl|].
  assert (Hc : quiet_ok c (state_of (close (set_incoming rest c))) []).
  { intros Hq. apply quiet_close. exact Hq. }
  unfold state_of in Hc.
  destruct (try_loads frame) as [m|]; cbn -[close].
  2:{ destruct (close (set_incoming rest c)) as [[[] c2] e2]; cbn; apply Hc. }
  destruct (check_message m); cbn -[close].
  2:{ destruct (close (set_incoming rest c)) as [[[] c2] e2]; cbn; apply Hc. }
  unfold enable_watch_read, modify.
  destruct (_reading c), (closed c) eqn:Hcl; cbn; try (intros Hq; exact Hq).
  destruct (Z.of_nat (length rest) <? max_incoming_messages c); cbn;
    [destruct (_read_event c); cbn|];
    unfold quiet_ok, quiet_inv; cbn; intros; congruence.
Qed.

#[local] Hint Resolve quiet_push_outgoing quiet_pop_incoming : respects.

Lemma quiet_extract_messages fuel : respects quiet_ok (extract_messages fuel).
Proof.
  induction fuel as [|fuel IH]; cbn [extract_messages]; unfold _do_trace;
    quiet_go.
Qed.

#[local] Hint Resolve quiet_extract_messages : respects.

Lemma quiet_read_loop recvs : respects quiet_ok (read_loop recvs).
Proof.
  induction recvs as [|x recvs IH]; cbn [read_loop];
    unfold disable_watch_read; quiet_go.
Qed.

Lemma quiet_write_loop sends : respects quiet_ok (write_loop sends).
Proof.
  induction sends as [|x sends IH]; cbn [write_loop]; unfold _do_trace;
    quiet_go.
Qed.

#[local] Hint Resolve quiet_read_loop quiet_write_loop : respects.

Lemma quiet_send_method_return m value :
  respects quiet_ok (send_method_return m value).
Proof. unfold send_method_return. quiet_go. Qed.

Lemma quiet_send_error m e : respects quiet_ok (send_error m e).
Proof. unfold send_error. quiet_go. Qed.

#[local] Hint Resolve quiet_send_method_return quiet_send_error : respects.

Lemma quiet_handler_actions m actions : forall sent,
  respects quiet_ok (handler_actions m actions sent).
Proof.
  induction actions as [|[] actions IH]; intros sent; cbn [handler_actions];
    unfold early_response, delay_response; quiet_go.
Qed.

#[local] Hint Resolve quiet_handler_actions : respects.

Lemma quiet_handler_dispatch reg m : respects quiet_ok (handler_dispatch reg m).
Proof.
  unfold handler_dispatch, _dispatch_method_call, _dispatch_signal, invoke.
  quiet_go.
Qed.

#[local] Hint Resolve quiet_handler_dispatch : respects.

Lemma quiet_dispatch_loop fuel : respects quiet_ok (dispatch_loop fuel).
Proof.
  induction fuel as [|fuel IH]; cbn [dispatch_loop];
    unfold method_calls_pop, create_callback, spawn; quiet_go.
Qed.

#[local] Hint Resolve quiet_dispatch_loop : respects.

Lemma quiet_step o : respects quiet_ok (step o).
Proof.
  destruct o; cbn [step];
    unfold _do_read, _do_write, disable_watch_write, fire_timer, run_callback,
      dispatch, method_return_callback_run,
      method_calls_del, cancel_timer, call_method, create_timer, send_signal,
      add_callback, set_trace, create_callback;
    quiet_go.
Qed.

Lemma quiet_run ops : forall c, quiet_inv c -> quiet_inv (fst (run ops c)).
Proof.
  induction ops as [|o ops IH]; intros c Hc; cbn [run fst]; [exact Hc|].
  apply IH, quiet_step, Hc.
Qed.

(** X8: whatever is done to a connection after its construction, once
    it is closed neither the read watch nor the write watch is
    enabled. *)
Theorem closed_never_watches ops h nm peer :
  let c := fst (run ops (init h nm peer)) in
  closed c = true -> _read_event c = false /\ _write_event c = false.
Proof. cbn zeta. apply quiet_run. intros Hc. discriminate. Qed.

End Write.

(** *** The write watch is on while there is something to write *)

Section Watch.
Context `{library}.

(** The encoder writes text that is not empty and that [encode('ascii')]
    gives back, as [json.dumps] does. *)
Hypothesis dumps_text : forall m,
  json_dumps m <> [] /\ decode_ascii (json_dumps m) = Return (json_dumps m).

Lemma dumps_nonempty m : json_dumps m <> [].
Proof. apply dumps_text. Qed.

Lemma write_refl c : write_ok c c [].
Proof. now intros ?. Qed.

Lemma write_trans c c1 c2 e1 e2 :
  write_ok c c1 e1 -> write_ok c1 c2 e2 -> write_ok c c2 (e1 ++ e2).
Proof. unfold write_ok. auto. Qed.

Ltac write_leaf :=
  let c := fresh "c" in
  intros c; unfold modify, emit, state_of, events_of; cbn;
  repeat match goal with
         | |- context [if ?b then _ else _] => destruct b eqn:?
         | |- context [match ?b with Some _ => _ | None => _ end] =>
             destruct b eqn:?
         end;
  unfold write_ok, write_inv; cbn; intuition congruence.

Ltac write_go := respects_go write_refl write_trans; try write_leaf.

Lemma write_close : respects write_ok close.
Proof.
  intros c _ Hc.
  destruct (close_fields c) as (_ & _ & _ & _ & _ & _ & _ & _ & _ & _ & _ & _ & C13 & _).
  congruence.
Qed.

#[local] Hint Resolve write_close : respects.

Lemma write_push_outgoing m : respects write_ok (push_outgoing m).
Proof.
  intros c. unfold push_outgoing, enable_watch_write, bind, get, modify, ret,
    state_of, events_of. cbn.
  destruct (closed c) eqn:Hc; cbn; [intros _; unfold write_inv; cbn; congruence|].
  destruct (_writing c) eqn:Hw; cbn.
  - intros Hinv _. cbn. destruct (Hinv Hc) as (W1 & W2 & W3).
    split; [congruence|]. split.
    + apply Forall_app. split; [exact W2|]. constructor; [apply dumps_nonempty|constructor].
    + intros _. congruence.
  - intros Hinv. destruct (Hinv Hc) as (W1 & W2 & W3).
    destruct (_write_event c) eqn:He; [congruence|]. cbn.
    intros _. cbn. split; [reflexivity|]. split; [|reflexivity].
    apply Forall_app. split; [exact W2|]. constructor; [apply dumps_nonempty|constructor].
Qed.

#[local] Hint Resolve write_push_outgoing : respects.

Lemma write_pop_incoming : respects write_ok pop_incoming.
Proof. unfold pop_incoming, enable_watch_read. write_go. Qed.

#[local] Hint Resolve write_pop_incoming : respects.

Lemma write_extract_messages fuel : respects write_ok (extract_messages fuel).
Proof.
  induction fuel as [|fuel IH]; cbn [extract_messages]; unfold _do_trace;
    write_go.
Qed.

#[local] Hint Resolve write_extract_messages : respects.

Lemma write_read_loop recvs : respects write_ok (read_loop recvs).
Proof.
  induction recvs as [|x recvs IH]; cbn [read_loop];
    unfold disable_watch_read; write_go.
Qed.

#[local] Hint Resolve write_read_loop : respects.

Lemma write_do_write sends : respects write_ok (_do_write sends).
Proof.
  intros c Hinv.
  destruct (write_loop_outcome sends c)
    as (moved & W1 & W2 & W3 & W4 & W5 & W6 & W7 & W8 & W9 & W10).
  unfold _do_write, bind, get, disable_watch_write, modify, ret.
  unfold state_of, events_of, result_of, pending in *.
  destruct (write_loop sends c) as [[r1 c1] e1]; cbn [fst snd] in *. subst r1.
  destruct (_outbuf c1) as [|ch ob] eqn:Hob; cbn.
  - destruct (_write_event c1) eqn:Hw; cbn; intros Hc; cbn in Hc;
      destruct (W8 Hc) as (Hc0 & E1 & E2 & Hexit);
      destruct (Hinv Hc0) as (I1 & I2 & I3);
      specialize (Hexit I2 eq_refl);
      cbn; rewrite ?Hob, Hexit; repeat split; try congruence;
      try constructor; intros [?|?]; congruence.
  - intros Hc. destruct (W8 Hc) as (Hc0 & E1 & E2 & Hexit).
    destruct (Hinv Hc0) as (I1 & I2 & I3).
    split; [congruence|]. split.
    + rewrite W1 in I2. now apply Forall_app in I2.
    + intros _. rewrite E1. apply I3.
      destruct (_outbuf c) eqn:Hob0; [right|left; discriminate].
      intros Hog. rewrite Hog in W2. cbn in W2.
      apply app_eq_nil in W2 as [_ W2]. discriminate.
Qed.

#[local] Hint Resolve write_do_write : respects.

Lemma write_send_method_return m value :
  respects write_ok (send_method_return m value).
Proof. unfold send_method_return. write_go. Qed.

Lemma write_send_error m e : respects write_ok (send_error m e).
Proof. unfold send_error. write_go. Qed.

#[local] Hint Resolve write_send_method_return write_send_error : respects.

Lemma write_handler_actions m actions : forall sent,
  respects write_ok (handler_actions m actions sent).
Proof.
  induction actions as [|[] actions IH]; intros sent; cbn [handler_actions];
    unfold early_response, delay_response; write_go.
Qed.

#[local] Hint Resolve write_handler_actions : respects.

Lemma write_handler_dispatch reg m : respects write_ok (handler_dispatch reg m).
Proof.
  unfold handler_dispatch, _dispatch_method_call, _dispatch_signal, invoke.
  write_go.
Qed.

#[local] Hint Resolve write_handler_dispatch : respects.

Lemma write_dispatch_loop fuel : respects write_ok (dispatch_loop fuel).
Proof.
  induction fuel as [|fuel IH]; cbn [dispatch_loop];
    unfold method_calls_pop, create_callback, spawn; write_go.
Qed.

#[local] Hint Resolve write_dispatch_loop : respects.

Lemma write_step o : respects write_ok (step o).
Proof.
  destruct o; cbn [step];
    unfold _do_read, fire_timer, run_callback,
      dispatch, method_return_callback_run,
      method_calls_del, cancel_timer, call_method, create_timer, send_signal,
      add_callback, set_trace, create_callback;
    write_go.
Qed.

Lemma write_run ops : forall c, write_inv c -> write_inv (fst (run ops c)).
Proof.
  induction ops as [|o ops IH]; intros c Hc; cbn [run fst]; [exact Hc|].
  apply IH, write_step, Hc.
Qed.

(** X9: with an encoder that writes ASCII text and never an empty
    one, and whatever is done to a connection after its construction:
    while it is open, [_writing] says whether the write watch is
    enabled, and the watch is enabled whenever output is pending in
    [_outbuf] or [_outgoing]. *)
Theorem write_watch_follows_queue ops h nm peer :
  let c := fst (run ops (init h nm peer)) in
  closed c = false ->
  _writing c = _write_event c
  /\ (_outbuf c <> [] \/ _outgoing c <> [] -> _write_event c = true).
Proof.
  cbn zeta. intros Hc.
  assert (Hinit : write_inv (init h nm peer)).
  { intros _. cbn. repeat split. constructor. }
  destruct (write_run ops _ Hinit Hc) as (W1 & _ & W3). now split.
Qed.

End Watch.
End WriteFacts.

(** ** The handler and its replies *)

Module HandlerFacts.
Import Bus Views BusFacts Replies.

Section Handler.
Context `{library}.


(** With an [id] in the message, every early response of the handler is
    queued as a reply of its own. *)
Lemma handler_actions_queue m id actions : forall sent c,
  m !! "id" = Some id ->
  result_of (handler_actions m actions sent c)
  = Return (match actions with [] => sent | _ :: _ => true end)
  /\ _outgoing (state_of (handler_actions m actions sent c))
     = _outgoing c
       ++ ((fun v => json_dumps (<["result" := v]> (<["id" := id]> jsonrpc_header)))
             <$> early_values actions).
Proof.
  induction actions as [|a actions IH]; intros sent c Hid.
  { cbn. now rewrite app_nil_r. }
  assert (Hhas : has_key m "id" = true) by (unfold has_key; now rewrite Hid).
  destruct a as [value|]; cbn [handler_actions early_values];
    unfold early_response, delay_response; rewrite Hhas; cbn [negb].
  - unfold bind. rewrite (send_method_return_eq m id value c Hid).
    destruct (push_outgoing_returns
                (<["result" := value]> (<["id" := id]> jsonrpc_header)) c)
      as [Hr Hq].
    unfold result_of, state_of in Hr, Hq.
    destruct (push_outgoing _ c) as [[r c1] e1]. cbn in Hr, Hq. subst r.
    unfold ret. cbn [app].
    destruct (IH true c1 Hid) as [I1 I2].
    unfold result_of, state_of in *.
    destruct (handler_actions m actions true c1) as [[r2 c2] e2].
    cbn in *. rewrite I1, I2, Hq, <- app_assoc. split; [now destruct actions|reflexivity].
  - unfold bind, ret. cbn [app].
    destruct (IH true c Hid) as [I1 I2].
    unfold result_of, state_of in *.
    destruct (handler_actions m actions true c) as [[r2 c2] e2].
    cbn in *. rewrite I1, I2. split; [now destruct actions|reflexivity].
Qed.

(** X11: the replies to a method call whose handler is found and takes
    the arguments.  The connection's queue grows by one result for
    every [early_response] of the handler, in order, and then by the
    final reply: the returned value when the handler sent no early and
    asked for no delayed response, an error when it raised, and
    nothing otherwise.  So a handler that responds early and then
    raises is answered twice. *)
Theorem handler_replies reg m id name h c :
  m !! "id" = Some id -> m !! "method" = Some name ->
  lookup_handler (methods reg) name = Return (Some h) ->
  _check_callable h (default (JList []) (m !! "params")) = Return true ->
  let run := h_call h (py_star (default (JList []) (m !! "params"))) in
  let result v :=
    json_dumps (<["result" := v]> (<["id" := id]> jsonrpc_header)) in
  let error e :=
    json_dumps (<["error" := error_member e]> (<["id" := id]> jsonrpc_header)) in
  result_of (_dispatch_method_call reg m c) = Return tt
  /\ _outgoing (state_of (_dispatch_method_call reg m c))
     = _outgoing c ++ (result <$> early_values (run_actions run))
       ++ match run_end run with
          | handler_returns response =>
              match run_actions run with
              | [] => [result response]
              | _ :: _ => []
              end
          | handler_raises_structured e => [error e]
          | handler_raises_other =>
              [error (MessageBusError (JStr "UncaughtException") None)]
          end.
Proof.
  intros Hid Hname Hfound Hok. cbn zeta.
  rewrite (dispatch_method_call_invoked reg m id name h c Hid Hname Hfound Hok).
  set (run := h_call h (py_star (default (JList []) (m !! "params")))).
  destruct (handler_actions_queue m id (run_actions run) false c Hid) as [A1 A2].
  unfold bind, result_of, state_of in *.
  destruct (handler_actions m (run_actions run) false c) as [[r1 c1] e1].
  cbn [fst snd] in *. subst r1.
  destruct (run_end run) as [response|e|];
    [destruct (run_actions run) as [|a acts] eqn:Hacts|..].
  2:{ cbn. rewrite A2. now rewrite app_nil_r. }
  all: match goal with
       | |- context [push_outgoing ?x ?c1] =>
           destruct (push_outgoing_returns x c1) as [Hr Hq];
           unfold result_of, state_of in Hr, Hq;
           destruct (push_outgoing x c1) as [[r2 c2] e2]
       end;
       cbn in *; subst r2; rewrite Hq, A2; split;
       [reflexivity|now rewrite <- ?app_assoc].
Qed.

(** X12: a method call whose [params] have no length, a number for
    one, gets no reply: [_check_callable] raises [TypeError] out of the
    handler's [dispatch], and the connection is left as it is. *)
Theorem unsized_params_unanswered reg m id name h e c :
  m !! "id" = Some id -> m !! "method" = Some name ->
  lookup_handler (methods reg) name = Return (Some h) ->
  h_callable h = true ->
  py_len (default (JList []) (m !! "params")) = Raise e ->
  handler_dispatch reg m c = (Raise TypeError, c, []).
Proof.
  intros Hid Hname Hfound Hcall Hlen.
  assert (He : e = TypeError).
  { destruct (default (JList []) (m !! "params")); try discriminate;
      cbn in Hlen; now injection Hlen as <-. }
  subst e.
  unfold handler_dispatch, has_key. rewrite Hid, Hname. cbn [andb].
  unfold _dispatch_method_call, getitem, bind, lift. rewrite Hname, Hfound.
  unfold _check_callable. rewrite Hcall. cbn [negb]. now rewrite Hlen.
Qed.

End Handler.

Section Dispatch.
Context `{library}.


End Dispatch.
End HandlerFacts.

(** ** From the socket to the handler and to the callback *)

Module RoundTrip.
Import Bus Views BusFacts Scanner ScannerFacts ScannerStream Streams PumpFacts Arrivals.

Section RoundTrip.
Context `{library}.

Lemma idle_self (c : conn) :
  _inbuf c = [] -> _incoming c = [] -> hub_callbacks c = [] ->
  set_hub_callbacks [] (set_inbuf [] (set_incoming [] c)) = c.
Proof. destruct c; cbn; intros; now subst. Qed.

Lemma extract_messages_empty fuel c :
  _inbuf c = [] -> extract_messages fuel c = (Return tt, c, []).
Proof.
  intros Hbuf. destruct fuel; [reflexivity|]. cbn [extract_messages].
  unfold bind, get. now rewrite Hbuf.
Qed.

Lemma extract_messages_one fuel c frame :
  _inbuf c = frame -> complete_frame frame = true ->
  extract_messages (S fuel) c
  = (Return tt, set_inbuf [] (set_incoming (_incoming c ++ [frame]) c),
     match tracefile c with Some _ => [ev_trace frame true] | None => [] end).
Proof.
  intros Hbuf Hframe. unfold complete_frame in Hframe.
  destruct (find_message_end frame) as [pos|] eqn:Hpos; [|discriminate].
  apply andb_prop in Hframe as [Hpos0 Hlast].
  apply Z.leb_le in Hpos0. apply Z.eqb_eq in Hlast.
  destruct frame as [|ch frame]; [cbn in Hlast; lia|].
  cbn [extract_messages]. unfold bind at 1, get at 1. rewrite Hbuf.
  unfold bind at 1, lift at 1. rewrite Hpos.
  destruct (Z.eqb_spec pos (-1)) as [?|_]; [lia|].
  replace (Z.to_nat (pos + 1)) with (length (ch :: frame)) by lia.
  rewrite firstn_all.
  unfold bind at 1, modify at 1.
  unfold bind at 1.
  destruct (tracefile c) eqn:Htr; unfold _do_trace, emit, ret;
    unfold bind at 1, modify at 1;
    rewrite extract_messages_empty
      by (cbn [_inbuf set_inbuf set_incoming]; rewrite Hbuf;
          now apply drop_ge);
    cbn [_inbuf set_inbuf set_incoming app]; rewrite Hbuf, drop_ge by reflexivity;
    cbn; reflexivity.
Qed.

(** An idle connection reads one frame: the frame is queued, and
    [dispatch] is scheduled. *)
Lemma do_read_one_frame c frame :
  idle c -> complete_frame frame = true -> decode_ascii frame = Return frame ->
  _do_read [recv_data frame] c
  = (Return tt,
     set_hub_callbacks [run_dispatch] (set_inbuf [] (set_incoming [frame] c)),
     arrival c frame).
Proof.
  intros (Hc & Hbuf & Hin & Hcb & Hsize & Hmany & Hreading) Hframe Hascii.
  assert (Hne : frame <> []).
  { intros ->. unfold complete_frame in Hframe. cbn in Hframe. discriminate. }
  unfold _do_read. cbn [read_loop].
  unfold bind at 1 2 3, get at 1.
  rewrite extract_messages_empty by assumption.
  unfold bind at 1, get at 1. rewrite Hbuf. cbn [length].
  destruct (Z.ltb_spec (max_message_size c) (Z.of_nat 0)) as [?|_]; [lia|].
  rewrite Hin. cbn [length].
  destruct (Z.ltb_spec (max_incoming_messages c) (Z.of_nat 0)) as [?|_]; [lia|].
  unfold bind at 1, emit at 1.
  destruct frame as [|ch frame]; [contradiction|].
  unfold bind at 1, lift at 1. rewrite Hascii.
  unfold bind at 1, modify at 1. rewrite Hbuf. cbn [app].
  (* the second pass *)
  unfold bind at 1 2, get at 1. cbn [_inbuf set_inbuf length].
  rewrite (extract_messages_one _ _ (ch :: frame)) by (reflexivity || assumption).
  unfold bind at 1, get at 1. cbn [_inbuf set_inbuf length max_message_size
    _incoming set_incoming max_incoming_messages].
  destruct (Z.ltb_spec (max_message_size c) (Z.of_nat 0)) as [?|_]; [lia|].
  rewrite Hin. cbn [app length].
  destruct (Z.ltb_spec (max_incoming_messages c) (Z.of_nat 1)) as [?|_]; [lia|].
  unfold arrival, create_callback, modify, emit, ret. cbn.
  rewrite Hcb. destruct (tracefile c); reflexivity.
Qed.

(** The hub runs [dispatch] on a queue that holds one request or
    signal: the message is handed to a new greenlet. *)
Lemma run_dispatch_spawns c reg frame m :
  idle c -> handler c = Some reg ->
  try_loads frame = Some m -> check_message m = true ->
  has_key m "result" = false -> has_key m "error" = false ->
  run_callback
    (set_hub_callbacks [run_dispatch] (set_inbuf [] (set_incoming [frame] c)))
  = (Return tt, set_hub_callbacks [run_greenlet m] c, []).
Proof.
  intros (Hc & Hbuf & Hin & Hcb & Hsize & Hmany & Hreading) Hreg Hm Hok Hres Herr.
  unfold run_callback. unfold bind at 1, get at 1.
  cbn [hub_callbacks set_hub_callbacks]. unfold bind at 1, modify at 1.
  unfold dispatch, bind at 1, get at 1.
  cbn [_incoming set_hub_callbacks set_inbuf set_incoming length dispatch_loop].
  set (c1 := set_hub_callbacks [] (set_hub_callbacks [run_dispatch]
               (set_inbuf [] (set_incoming [frame] c)))).
  assert (Hpop : pop_incoming c1 = (Return (Some m), c, [])).
  { unfold pop_incoming, enable_watch_read, bind, get, modify, ret. cbn.
    rewrite Hm. cbn. rewrite Hok. cbn. rewrite Hreading. cbn. f_equal. f_equal.
    subst c1.
    destruct c; cbn in *; now subst. }
  unfold bind at 1. rewrite Hpop.
  rewrite (check_message_nonempty m Hok), Hres, Herr. cbn [orb].
  unfold bind at 1 2, get at 1. rewrite Hreg.
  unfold spawn, create_callback, modify.
  assert (Hnone : forall c2, _incoming c2 = [] ->
            pop_incoming c2 = (Return None, c2, []))
    by (intros c2 H2; unfold pop_incoming, bind, get; now rewrite H2).
  unfold bind at 1. rewrite Hnone by (cbn; exact Hin).
  cbn. rewrite Hcb. reflexivity.
Qed.

(** The hub runs the greenlet of a message. *)
Lemma run_greenlet_dispatches c reg m :
  hub_callbacks c = [] -> handler c = Some reg ->
  run_callback (set_hub_callbacks [run_greenlet m] c) = handler_dispatch reg m c.
Proof.
  intros Hcb Hreg. unfold run_callback, bind, get, modify. cbn.
  rewrite Hreg.
  replace (set_hub_callbacks [] (set_hub_callbacks [run_greenlet m] c)) with c
    by (destruct c; cbn in *; now subst).
  now destruct (handler_dispatch reg m c) as [[r c2] e2].
Qed.

Lemma request_handled c reg frame m :
  idle c -> handler c = Some reg ->
  complete_frame frame = true -> decode_ascii frame = Return frame ->
  try_loads frame = Some m -> check_message m = true ->
  has_key m "result" = false -> has_key m "error" = false ->
  run [op_do_read [recv_data frame]; op_run_callback; op_run_callback] c
  = (state_of (handler_dispatch reg m c),
     arrival c frame ++ events_of (handler_dispatch reg m c)).
Proof.
  intros Hidle Hreg Hframe Hascii Hm Hok Hres Herr.
  cbn [run step].
  rewrite (do_read_one_frame c frame Hidle Hframe Hascii).
  cbn [state_of events_of fst snd].
  rewrite (run_dispatch_spawns c reg frame m Hidle Hreg Hm Hok Hres Herr).
  cbn [state_of events_of fst snd].
  rewrite (run_greenlet_dispatches c reg m) by (assumption || apply Hidle).
  now rewrite !app_nil_r.
Qed.

(** X14: one request that arrives at an idle connection with a handler
    is read, queued, dispatched and handled: after the read and two
    turns of the hub the connection is where the handler's [dispatch]
    of the decoded message leaves it, and the effects are the two
    [recv] calls, the trace entry if a trace file is set, and the
    handler's own. *)
Theorem request_reaches_handler c reg frame m :
  idle c -> handler c = Some reg ->
  complete_frame frame = true -> decode_ascii frame = Return frame ->
  try_loads frame = Some m -> check_message m = true ->
  has_key m "result" = false -> has_key m "error" = false ->
  run [op_do_read [recv_data frame]; op_run_callback; op_run_callback] c
  = (state_of (handler_dispatch reg m c),
     arrival c frame ++ events_of (handler_dispatch reg m c)).
Proof. apply request_handled. Qed.

(** The hub runs [dispatch] on a queue that holds the response to an
    outstanding call: the entry leaves the table, and the call of its
    closure is scheduled. *)
Lemma run_dispatch_resolves c frame m key k f :
  idle c ->
  try_loads frame = Some m -> check_message m = true ->
  has_key m "result" || has_key m "error" = true ->
  m !! "id" = Some key -> hash_key key = Return (key_int k) ->
  method_calls c !! k = Some f ->
  run_callback
    (set_hub_callbacks [run_dispatch] (set_inbuf [] (set_incoming [frame] c)))
  = (Return tt,
     set_hub_callbacks [run_method_return f m]
       (set_method_calls (delete k (method_calls c)) c), []).
Proof.
  intros (Hc & Hbuf & Hin & Hcb & Hsize & Hmany & Hreading) Hm Hok Hkind Hid
    Hkey Hf.
  unfold run_callback. unfold bind at 1, get at 1.
  cbn [hub_callbacks set_hub_callbacks]. unfold bind at 1, modify at 1.
  unfold dispatch, bind at 1, get at 1.
  cbn [_incoming set_hub_callbacks set_inbuf set_incoming length dispatch_loop].
  set (c1 := set_hub_callbacks [] (set_hub_callbacks [run_dispatch]
               (set_inbuf [] (set_incoming [frame] c)))).
  assert (Hpop : pop_incoming c1 = (Return (Some m), c, [])).
  { unfold pop_incoming, enable_watch_read, bind, get, modify, ret. cbn.
    rewrite Hm. cbn. rewrite Hok. cbn. rewrite Hreading. cbn. f_equal. f_equal.
    subst c1. destruct c; cbn in *; now subst. }
  unfold bind at 1. rewrite Hpop.
  rewrite (check_message_nonempty m Hok), Hkind.
  unfold bind at 1 2, lift at 1, getitem. rewrite Hid.
  unfold method_calls_pop. unfold bind at 1 2, lift at 1. rewrite Hkey.
  unfold bind at 1, get at 1. rewrite Hf.
  unfold bind at 1, modify at 1, ret at 1.
  unfold create_callback, modify.
  assert (Hnone : forall c2, _incoming c2 = [] ->
            pop_incoming c2 = (Return None, c2, []))
    by (intros c2 H2; unfold pop_incoming, bind, get; now rewrite H2).
  unfold bind at 1. rewrite Hnone by (cbn; exact Hin).
  cbn. rewrite Hcb. reflexivity.
Qed.

Lemma reply_handled c frame m key k f :
  idle c ->
  complete_frame frame = true -> decode_ascii frame = Return frame ->
  try_loads frame = Some m -> check_message m = true ->
  has_key m "result" || has_key m "error" = true ->
  m !! "id" = Some key -> hash_key key = Return (key_int k) ->
  method_calls c !! k = Some f ->
  run [op_do_read [recv_data frame]; op_run_callback; op_run_callback] c
  = (set_hub_timers (delete (mrc_timer f) (hub_timers c))
       (set_method_calls (delete k (method_calls c)) c),
     arrival c frame ++ [ev_reply (mrc_callback f) m]).
Proof.
  intros Hidle Hframe Hascii Hm Hok Hkind Hid Hkey Hf.
  cbn [run step].
  rewrite (do_read_one_frame c frame Hidle Hframe Hascii).
  cbn [state_of events_of fst snd].
  rewrite (run_dispatch_resolves c frame m key k f Hidle Hm Hok Hkind Hid Hkey Hf).
  cbn [state_of events_of fst snd].
  destruct Hidle as (Hc & Hbuf & Hin & Hcb & Hsize & Hmany & Hreading).
  unfold run_callback, method_return_callback_run, cancel_timer, bind, get,
    modify, emit. cbn. rewrite ?app_nil_r. f_equal.
  destruct c; cbn in *; now subst.
Qed.

(** X15: one response that arrives at an idle connection for a pending
    call reaches that call's callback once, with the decoded message;
    the call and its timer are removed, and nothing else changes. *)
Theorem reply_reaches_callback c frame m key k f :
  idle c ->
  complete_frame frame = true -> decode_ascii frame = Return frame ->
  try_loads frame = Some m -> check_message m = true ->
  has_key m "result" || has_key m "error" = true ->
  m !! "id" = Some key -> hash_key key = Return (key_int k) ->
  method_calls c !! k = Some f ->
  run [op_do_read [recv_data frame]; op_run_callback; op_run_callback] c
  = (set_hub_timers (delete (mrc_timer f) (hub_timers c))
       (set_method_calls (delete k (method_calls c)) c),
     arrival c frame ++ [ev_reply (mrc_callback f) m]).
Proof. apply reply_handled. Qed.

End RoundTrip.
End RoundTrip.

(** ** The life of the server *)

Module ServerLife.
Import Bus Views BusFacts Server ServerFacts ServerOps.

Section Hooks.
Context `{library}.

Lemma hook_refl c : hook_step c c [].
Proof. split; [reflexivity|constructor]. Qed.

Lemma hook_trans c c1 c2 e1 e2 :
  hook_step c c1 e1 -> hook_step c1 c2 e2 -> hook_step c c2 (e1 ++ e2).
Proof.
  intros [A1 A2] [B1 B2]. split; [congruence|now apply Forall_app].
Qed.

Ltac hook_leaf :=
  let c := fresh "c" in
  intros c; unfold modify, emit, state_of, events_of; cbn;
  repeat match goal with
         | |- context [if ?b then _ else _] => destruct b eqn:?
         | |- context [match ?b with Some _ => _ | None => _ end] =>
             destruct b eqn:?
         end;
  unfold hook_step, hooks; cbn; (split; [reflexivity|]);
  repeat first [apply Forall_nil_2 | apply Forall_cons_2];
  try exact I; try reflexivity.

Ltac hook_go := respects_go hook_refl hook_trans; try hook_leaf.

Lemma hook_close : respects hook_step close.
Proof.
  intros c. unfold close, _run_callbacks, disable_watch_read,
    disable_watch_write, bind, get, modify, emit, ret, state_of, events_of.
  cbn. destruct (closed c) eqn:Hc; cbn; [apply hook_refl|].
  destruct (_read_event c); cbn; destruct (_write_event c); cbn;
    (split; [reflexivity|]); repeat constructor;
    apply Forall_fmap, Forall_true; now intros.
Qed.

#[local] Hint Resolve hook_close : respects.

Lemma hook_push_outgoing m : respects hook_step (push_outgoing m).
Proof. unfold push_outgoing, enable_watch_write. hook_go. Qed.

Lemma hook_pop_incoming : respects hook_step pop_incoming.
Proof. unfold pop_incoming, enable_watch_read. hook_go. Qed.

#[local] Hint Resolve hook_push_outgoing hook_pop_incoming : respects.

Lemma hook_extract_messages fuel : respects hook_step (extract_messages fuel).
Proof.
  induction fuel as [|fuel IH]; cbn [extract_messages]; unfold _do_trace;
    hook_go.
Qed.

#[local] Hint Resolve hook_extract_messages : respects.

Lemma hook_read_loop recvs : respects hook_step (read_loop recvs).
Proof.
  induction recvs as [|x recvs IH]; cbn [read_loop];
    unfold disable_watch_read; hook_go.
Qed.

Lemma hook_write_loop sends : respects hook_step (write_loop sends).
Proof.
  induction sends as [|x sends IH]; cbn [write_loop]; unfold _do_trace;
    hook_go.
Qed.

#[local] Hint Resolve hook_read_loop hook_write_loop : respects.

Lemma hook_send_method_return m value :
  respects hook_step (send_method_return m value).
Proof. unfold send_method_return. hook_go. Qed.

Lemma hook_send_error m e : respects hook_step (send_error m e).
Proof. unfold send_error. hook_go. Qed.

#[local] Hint Resolve hook_send_method_return hook_send_error : respects.

Lemma hook_handler_actions m actions : forall sent,
  respects hook_step (handler_actions m actions sent).
Proof.
  induction actions as [|[] actions IH]; intros sent; cbn [handler_actions];
    unfold early_response, delay_response; hook_go.
Qed.

#[local] Hint Resolve hook_handler_actions : respects.

Lemma hook_handler_dispatch reg m : respects hook_step (handler_dispatch reg m).
Proof.
  unfold handler_dispatch, _dispatch_method_call, _dispatch_signal, invoke.
  hook_go.
Qed.

#[local] Hint Resolve hook_handler_dispatch : respects.

Lemma hook_dispatch_loop fuel : respects hook_step (dispatch_loop fuel).
Proof.
  induction fuel as [|fuel IH]; cbn [dispatch_loop];
    unfold method_calls_pop, create_callback, spawn; hook_go.
Qed.

#[local] Hint Resolve hook_dispatch_loop : respects.

Lemma hook_call_method method args callback timeout_kw :
  respects hook_step (call_method method args callback timeout_kw).
Proof. unfold call_method, create_timer. hook_go. Qed.

Lemma hook_send_signal signal args : respects hook_step (send_signal signal args).
Proof. unfold send_signal. hook_go. Qed.

Lemma hook_set_trace file : respects hook_step (set_trace file).
Proof. unfold set_trace. hook_go. Qed.

#[local] Hint Resolve hook_call_method hook_send_signal hook_set_trace : respects.

Lemma hook_step_op o : tame_op o = true -> respects hook_step (step o).
Proof.
  intros Ho. destruct o; cbn [step];
    unfold _do_read, _do_write, disable_watch_write, fire_timer, run_callback,
      dispatch, method_return_callback_run,
      method_calls_del, cancel_timer, create_callback;
    try solve [hook_go].
  intros c. unfold add_callback, modify, state_of, events_of. cbn.
  split; [|constructor]. unfold hooks. cbn.
  rewrite filter_app, length_app. cbn in Ho.
  apply negb_true_iff, Nat.eqb_neq in Ho.
  rewrite filter_cons_False by (cbn; exact Ho). cbn. lia.
Qed.

End Hooks.

Section Listing.
Context `{library}.

Lemma list_remove_spec i l :
  NoDup l ->
  NoDup (list_remove i l)
  /\ forall j, j ∈ list_remove i l <-> j ∈ l /\ j <> i.
Proof.
  induction l as [|k l IH]; intros Hnd.
  { split; [constructor|]. intros j. cbn. split; [|tauto].
    intros Hj. now apply elem_of_nil in Hj. }
  apply NoDup_cons in Hnd as [Hk Hnd]. cbn.
  destruct (Nat.eqb_spec i k) as [->|Hne].
  - split; [exact Hnd|]. intros j. rewrite elem_of_cons. split.
    + intros Hj. split; [now right|]. now intros ->.
    + intros [[->|Hj] Hne]; [congruence|exact Hj].
  - destruct (IH Hnd) as [I1 I2]. split.
    + apply NoDup_cons. split; [|exact I1]. rewrite I2. tauto.
    + intros j. rewrite !elem_of_cons, I2. split; [|tauto].
      intros [->|[? ?]]; [split; [now left|congruence]|tauto].
Qed.

Lemma list_remove_absent i l : i ∉ l -> list_remove i l = l.
Proof.
  induction l as [|k l IH]; intros Hi; [reflexivity|]. cbn.
  apply not_elem_of_cons in Hi as [Hne Hi].
  destruct (Nat.eqb_spec i k); [contradiction|]. now rewrite IH.
Qed.

Lemma list_remove_middle i l1 l2 :
  i ∉ l1 -> list_remove i (l1 ++ i :: l2) = l1 ++ l2.
Proof.
  induction l1 as [|k l1 IH]; intros Hi; cbn.
  - now rewrite Nat.eqb_refl.
  - apply not_elem_of_cons in Hi as [Hne Hi].
    destruct (Nat.eqb_spec i k); [contradiction|]. now rewrite IH.
Qed.

(** What [_connection_event] does to the list and tells the server's
    callbacks depends on the list and the callbacks alone. *)
Lemma connection_event_ext nm i s s' :
  connections s' = connections s -> server_callbacks s' = server_callbacks s ->
  connections (_connection_event nm i s').1
  = connections (_connection_event nm i s).1
  /\ (_connection_event nm i s').2 = (_connection_event nm i s).2.
Proof.
  intros Hc Hs. unfold _connection_event, Server._run_callbacks.
  destruct (String.eqb nm "ConnectionClosed"); cbn; rewrite Hc, Hs; now split.
Qed.

Lemma connection_event_fields nm i s :
  objects (_connection_event nm i s).1 = objects s
  /\ server_callbacks (_connection_event nm i s).1 = server_callbacks s
  /\ client_count (_connection_event nm i s).1 = client_count s
  /\ server_lifecycles (_connection_event nm i s).2
     = ((fun callback => (callback, nm)) <$> server_callbacks s)
       ++ match connections (_connection_event nm i s).1 with
          | [] => (fun callback => (callback, "LastConnectionClosed"%string))
                    <$> server_callbacks s
          | _ :: _ => []
          end.
Proof.
  assert (Hl : forall nm' l,
    server_lifecycles ((fun callback => server_lifecycle callback nm') <$> l)
    = (fun callback => (callback, nm')) <$> l)
    by (intros nm' l; induction l as [|x l IH]; cbn; [|rewrite IH]; reflexivity).
  assert (Happ : forall o1 o2,
    server_lifecycles (o1 ++ o2) = server_lifecycles o1 ++ server_lifecycles o2).
  { intros o1 o2. induction o1 as [|[] o1 IH]; cbn; [reflexivity|assumption|].
    now rewrite IH. }
  unfold _connection_event, Server._run_callbacks.
  destruct (String.eqb nm "ConnectionClosed"); cbn;
    (repeat split; [rewrite Happ, Hl; f_equal;
      match goal with |- context [match ?l with [] => _ | _ :: _ => _ end] =>
        destruct l end; [apply Hl|reflexivity]]).
Qed.

Lemma react_all_hook i evs : forall s,
  objects (react_all i evs s).1 = objects s
  /\ server_callbacks (react_all i evs s).1 = server_callbacks s
  /\ client_count (react_all i evs s).1 = client_count s
  /\ match hook_events evs with
     | [] => connections (react_all i evs s).1 = connections s
             /\ server_lifecycles (react_all i evs s).2 = []
     | [nm] =>
         connections (react_all i evs s).1
         = connections (_connection_event nm i s).1
         /\ server_lifecycles (react_all i evs s).2
            = server_lifecycles (_connection_event nm i s).2
     | _ => True
     end.
Proof.
  induction evs as [|e evs IH]; intros s; [now cbn|].
  cbn [react_all].
  destruct (react i e s) as [s1 out] eqn:Hreact.
  destruct (IH s1) as (I1 & I2 & I3 & I4).
  destruct (react_all i evs s1) as [s2 outs] eqn:Hrest. cbn [fst snd] in *.
  assert (Happ : forall o1 o2,
    server_lifecycles (o1 ++ o2) = server_lifecycles o1 ++ server_lifecycles o2).
  { intros o1 o2. induction o1 as [|[] o1 IHo]; cbn; [reflexivity|assumption|].
    now rewrite IHo. }
  assert (Hquiet : hook_events (e :: evs) = hook_events evs ->
    objects s1 = objects s -> server_callbacks s1 = server_callbacks s ->
    client_count s1 = client_count s ->
    connections s1 = connections s -> server_lifecycles out = [] ->
    objects s2 = objects s /\ server_callbacks s2 = server_callbacks s
    /\ client_count s2 = client_count s
    /\ match hook_events (e :: evs) with
       | [] => connections s2 = connections s
               /\ server_lifecycles (conn_event i e :: out ++ outs) = []
       | [nm] =>
           connections s2 = connections (_connection_event nm i s).1
           /\ server_lifecycles (conn_event i e :: out ++ outs)
              = server_lifecycles (_connection_event nm i s).2
       | _ => True
       end).
  { intros -> Ho Hs Hn Hc Hout. cbn [server_lifecycles].
    rewrite Happ, Hout. cbn [app].
    repeat split; try congruence.
    destruct (hook_events evs) as [|nm [|]]; [| |exact I].
    - destruct I4. split; congruence.
    - destruct I4 as [J1 J2].
      destruct (connection_event_ext nm i s s1 Hc Hs) as [E1 E2].
      split; congruence. }
  destruct e as [| | |data|callback nm0|callback msg|msg inc];
    try (injection Hreact as <- <-; now apply Hquiet).
  - (* a lifecycle event *)
    cbn [react] in Hreact. cbn [hook_events] in *.
    destruct (Nat.eqb callback _connection_event_id) eqn:Hcb.
    2:{ injection Hreact as <- <-. now apply Hquiet. }
    destruct (connection_event_fields nm0 i s) as (F1 & F2 & F3 & F4).
    rewrite Hreact in F1, F2, F3. cbn [fst snd] in *.
    repeat split; try congruence.
    destruct (hook_events evs) as [|nm [|]]; [|exact I|exact I].
    destruct I4 as [J1 J2]. cbn [server_lifecycles].
    rewrite Happ, J2, app_nil_r, Hreact. cbn [fst snd]. now split.
  - (* a reply *)
    cbn [react] in Hreact. destruct callback;
      injection Hreact as <- <-; now apply Hquiet.
Qed.

Lemma count_prefix (l1 l2 : list nat) :
  l1 `prefix_of` l2 ->
  (length (filter (fun x => x = _connection_event_id) l1)
   <= length (filter (fun x => x = _connection_event_id) l2))%nat.
Proof. intros [k ->]. rewrite filter_app, length_app. lia. Qed.

Lemma hook_events_closed evs :
  Forall (fun e => match e with
                   | ev_lifecycle _ nm => nm = "ConnectionClosed"%string
                   | _ => True
                   end) evs ->
  hook_events evs
  = replicate (length (filter (fun x => x = _connection_event_id)
                         (closed_events evs)))
      "ConnectionClosed"%string.
Proof.
  induction 1 as [|e evs He Hall IH]; [reflexivity|].
  destruct e as [| | |data|callback nm0|callback msg|msg inc];
    cbn [hook_events closed_events]; try exact IH. subst nm0.
  rewrite String.eqb_refl.
  destruct (Nat.eqb_spec callback _connection_event_id) as [->|Hne].
  - rewrite filter_cons_True by reflexivity. cbn [length replicate].
    now rewrite IH.
  - rewrite filter_cons_False by exact Hne. exact IH.
Qed.

(** A step of a connection calls the server back once if it closes the
    connection, and not at all otherwise. *)
Lemma step_hook_events c c' evs :
  life_step c c' evs -> hook_step c c' evs -> hooks c = 1%nat ->
  hook_events evs
  = if negb (closed c) && closed c' then ["ConnectionClosed"%string] else [].
Proof.
  intros (L1 & L2 & L3) [H1 H2] Hone.
  rewrite (hook_events_closed evs H2).
  destruct (closed c) eqn:Hc; cbn [negb andb].
  - destruct (L2 eq_refl) as [_ ->]. reflexivity.
  - destruct (L3 eq_refl) as [[-> ->]|(-> & P1 & P2)]; [reflexivity|].
    apply count_prefix in P1, P2. unfold hooks in *.
    replace (length (filter _ (closed_events evs))) with 1%nat by lia.
    reflexivity.
Qed.

Lemma server_inv_ext s s' :
  connections s' = connections s -> objects s' = objects s ->
  server_inv s -> server_inv s'.
Proof.
  intros Hc Ho [I1 I2 I3]. split; rewrite ?Hc, ?Ho; assumption.
Qed.

(** An operation on one connection keeps the server and its
    connections together; the list loses the connection if the
    operation closed it, and is left alone if not. *)
Lemma on_connection_inv i (m : M unit) s :
  respects life_step m -> respects hook_step m -> server_inv s ->
  server_inv (on_connection i m s).1
  /\ server_callbacks (on_connection i m s).1 = server_callbacks s
  /\ client_count (on_connection i m s).1 = client_count s
  /\ match objects s !! i with
     | None => on_connection i m s = (s, [])
     | Some c =>
         objects (on_connection i m s).1 = <[i := state_of (m c)]> (objects s)
         /\ connections (on_connection i m s).1
            = (if negb (closed c) && closed (state_of (m c))
               then list_remove i (connections s) else connections s)
         /\ server_lifecycles (on_connection i m s).2
            = (if negb (closed c) && closed (state_of (m c))
               then server_lifecycles
                      (_connection_event "ConnectionClosed" i s).2
               else [])
     end.
Proof.
  intros Hlife Hhook Hinv. unfold on_connection.
  destruct (objects s !! i) as [c|] eqn:Hi;
    [|split; [exact Hinv|now repeat split]].
  specialize (Hlife c). specialize (Hhook c).
  pose proof (step_hook_events _ _ _ Hlife Hhook (hooked_once s Hinv i c Hi))
    as Hev.
  set (s1 := set_objects (<[i := state_of (m c)]> (objects s)) s).
  destruct (react_all_hook i (events_of (m c)) s1) as (R1 & R2 & R3 & R4).
  rewrite Hev in R4.
  destruct (connection_event_ext "ConnectionClosed" i s s1 eq_refl eq_refl)
    as [E1 E2].
  destruct Hlife as (L1 & L2 & L3). destruct Hhook as [H1 H2].
  destruct Hinv as [I1 I2 I3].
  assert (Hconns : connections (react_all i (events_of (m c)) s1).1
            = if negb (closed c) && closed (state_of (m c))
              then list_remove i (connections s) else connections s).
  { destruct (negb (closed c) && closed (state_of (m c))); destruct R4 as [-> _];
      [|reflexivity].
    unfold _connection_event. cbn. reflexivity. }
  split; [|split; [exact R2|split; [exact R3|split; [exact R1|split; [exact Hconns|]]]]].
  2:{ destruct (negb (closed c) && closed (state_of (m c)));
        destruct R4 as [_ ->]; [now rewrite E2|reflexivity]. }
  split.
  - rewrite Hconns. destruct (negb (closed c) && closed (state_of (m c)));
      [now apply list_remove_spec|exact I1].
  - intros j. rewrite Hconns, R1. cbn.
    destruct (decide (j = i)) as [->|Hne].
    + rewrite lookup_insert_eq.
      destruct (closed c) eqn:Hc; cbn [negb andb].
      * destruct (L2 eq_refl) as [Hc' _]. rewrite I2, Hi.
        split; [intros (? & [= <-] & ?); congruence|].
        intros (? & [= <-] & ?); congruence.
      * destruct (closed (state_of (m c))) eqn:Hc'.
        -- destruct (list_remove_spec i (connections s) I1) as [_ Hrem].
           rewrite Hrem. split; [tauto|]. intros (? & [= <-] & ?); congruence.
        -- rewrite I2, Hi. split; intros _; eauto.
    + rewrite lookup_insert_ne by congruence.
      destruct (negb (closed c) && closed (state_of (m c))); [|apply I2].
      destruct (list_remove_spec i (connections s) I1) as [_ Hrem].
      rewrite Hrem, I2. tauto.
  - intros j cj. rewrite R1. cbn.
    destruct (decide (j = i)) as [->|Hne].
    + rewrite lookup_insert_eq. intros [= <-]. rewrite H1. now apply (I3 i).
    + rewrite lookup_insert_ne by congruence. apply I3.
Qed.

Lemma handle_connection_inv peer s :
  server_inv s ->
  server_inv (handle_connection peer s)
  /\ connections (handle_connection peer s) = connections s ++ [fresh (objects s)]
  /\ client_count (handle_connection peer s) = client_count s + 1
  /\ server_callbacks (handle_connection peer s) = server_callbacks s.
Proof.
  intros [I1 I2 I3]. unfold handle_connection. cbn.
  assert (Hfresh : fresh (objects s) ∉ connections s).
  { intros Hin. apply I2 in Hin as (c & Hc & _).
    now rewrite fresh_unused in Hc. }
  split; [|now repeat split]. split.
  - cbn. apply NoDup_app. repeat split; [exact I1| |apply NoDup_singleton].
    intros j Hj Hj'. apply list_elem_of_singleton in Hj' as ->. contradiction.
  - intros i. cbn. split.
    + intros Hin. apply elem_of_app in Hin as [Hin|Hin].
      * apply I2 in Hin as (c & Hc & Hopen). exists c. split; [|exact Hopen].
        rewrite lookup_insert_ne; [exact Hc|].
        intros <-. now rewrite fresh_unused in Hc.
      * apply list_elem_of_singleton in Hin as ->. rewrite lookup_insert_eq. eauto.
    + intros (c & Hc & Hopen). apply elem_of_app.
      destruct (decide (i = fresh (objects s))) as [->|Hne].
      * right. now apply list_elem_of_singleton.
      * left. rewrite lookup_insert_ne in Hc by congruence. apply I2. eauto.
  - intros i c. cbn.
    destruct (decide (i = fresh (objects s))) as [->|Hne].
    + rewrite lookup_insert_eq. now intros [= <-].
    + rewrite lookup_insert_ne by congruence. apply I3.
Qed.

(** A loop that works on one connection after the other. *)
Lemma each_inv (f : nat -> server -> server * list server_event) ids :
  (forall i s, server_inv s ->
     server_inv (f i s).1
     /\ server_callbacks (f i s).1 = server_callbacks s
     /\ client_count (f i s).1 = client_count s) ->
  forall s, server_inv s ->
  server_inv (foldl (fun s i => (f i s).1) s ids)
  /\ server_callbacks (foldl (fun s i => (f i s).1) s ids) = server_callbacks s
  /\ client_count (foldl (fun s i => (f i s).1) s ids) = client_count s.
Proof.
  intros Hf. induction ids as [|i ids IH]; intros s Hs;
    [split; [exact Hs|now split]|].
  cbn [foldl]. destruct (Hf i s Hs) as (F1 & F2 & F3).
  destruct (IH _ F1) as (J1 & J2 & J3).
  split; [exact J1|split; congruence].
Qed.

Lemma on_connection_keeps i (m : M unit) s :
  respects life_step m -> respects hook_step m -> server_inv s ->
  server_inv (on_connection i m s).1
  /\ server_callbacks (on_connection i m s).1 = server_callbacks s
  /\ client_count (on_connection i m s).1 = client_count s.
Proof.
  intros Hl Hh Hs.
  destruct (on_connection_inv i m s Hl Hh Hs) as (I1 & I2 & I3 & _).
  split; [exact I1|now split].
Qed.

Lemma call_each_inv client name args cb timeout_kw ids : forall s,
  server_inv s ->
  server_inv (call_each client name args cb timeout_kw ids s).1
  /\ server_callbacks (call_each client name args cb timeout_kw ids s).1
     = server_callbacks s
  /\ client_count (call_each client name args cb timeout_kw ids s).1
     = client_count s.
Proof.
  induction ids as [|i ids IH]; intros s Hs;
    [split; [exact Hs|now split]|].
  cbn [call_each]. destruct (objects s !! i) as [c|]; [|now apply IH].
  destruct (matches client c); [|now apply IH].
  destruct (on_connection_keeps i
              (call_method name args (Some cb) timeout_kw) s)
    as (O1 & O2 & O3); [eauto with respects|apply hook_call_method|exact Hs|].
  destruct (on_connection i _ s) as [s1 out]. cbn [fst] in *.
  destruct (IH s1 O1) as (J1 & J2 & J3).
  destruct (call_each client name args cb timeout_kw ids s1) as [s2 outs].
  cbn [fst] in *. split; [exact J1|split; congruence].
Qed.

Lemma signal_each_inv client name args ids : forall s,
  server_inv s ->
  server_inv (signal_each client name args ids s).1
  /\ server_callbacks (signal_each client name args ids s).1
     = server_callbacks s
  /\ client_count (signal_each client name args ids s).1 = client_count s.
Proof.
  induction ids as [|i ids IH]; intros s Hs;
    [split; [exact Hs|now split]|].
  cbn [signal_each]. destruct (objects s !! i) as [c|]; [|now apply IH].
  destruct (matches client c); [|now apply IH].
  destruct (on_connection_keeps i (send_signal name args) s)
    as (O1 & O2 & O3); [eauto with respects|apply hook_send_signal|exact Hs|].
  destruct (on_connection i _ s) as [s1 out]. cbn [fst] in *.
  destruct (IH s1 O1) as (J1 & J2 & J3).
  destruct (signal_each client name args ids s1) as [s2 outs].
  cbn [fst] in *. split; [exact J1|split; congruence].
Qed.

Lemma odds_cons_subset {A} (l : list A) x :
  (x ∈ odds l -> x ∈ l) /\ (forall a, x ∈ odds (a :: l) -> x ∈ l).
Proof.
  induction l as [|b l [IH1 IH2]].
  - split; [intros Hx|intros a Hx]; cbn in Hx; now apply elem_of_nil in Hx.
  - split; [intros Hx; right; now apply (IH2 b)|].
    intros a Hx. cbn [odds] in Hx. apply elem_of_cons in Hx as [->|Hx];
      [now left|right; now apply IH1].
Qed.

Lemma odds_subset {A} (l : list A) x : x ∈ odds l -> x ∈ l.
Proof. apply odds_cons_subset. Qed.

Lemma on_connection_close i s c :
  server_inv s -> i ∈ connections s -> objects s !! i = Some c ->
  closed c = false ->
  server_inv (on_connection i close s).1
  /\ connections (on_connection i close s).1 = list_remove i (connections s)
  /\ objects (on_connection i close s).1 = <[i := state_of (close c)]> (objects s)
  /\ server_callbacks (on_connection i close s).1 = server_callbacks s
  /\ client_count (on_connection i close s).1 = client_count s.
Proof.
  intros Hs Hi Hc Hopen.
  destruct (on_connection_inv i close s) as (O1 & O2 & O3 & O4);
    [eauto with respects|apply hook_close|exact Hs|].
  rewrite Hc in O4. destruct O4 as (O4 & O5 & _).
  rewrite Hopen, close_closed in O5. split; [exact O1|now repeat split].
Qed.

(** The loop of [stop] at index [length kept], with the connections
    [todo] not yet visited: it closes the first, the third, ... of them
    and skips the others. *)
Lemma stop_loop_spec fuel : forall kept todo s,
  server_inv s -> connections s = kept ++ todo ->
  (length todo <= fuel)%nat ->
  let s' := (stop_loop fuel (length kept) s).1 in
  server_inv s'
  /\ connections s' = kept ++ odds todo
  /\ server_callbacks s' = server_callbacks s
  /\ client_count s' = client_count s
  /\ (forall j, j ∉ todo \/ j ∈ odds todo -> objects s' !! j = objects s !! j)
  /\ (forall j, j ∈ todo -> j ∉ odds todo ->
        exists c, objects s' !! j = Some c /\ closed c = true).
Proof.
  induction fuel as [|fuel IH]; intros kept todo s Hs Hconn Hlen; cbn zeta.
  { destruct todo; [|cbn in Hlen; lia]. cbn. rewrite app_nil_r in *.
    split; [exact Hs|]. repeat split; try assumption.
    intros j Hj. now apply elem_of_nil in Hj. }
  cbn [stop_loop]. rewrite Hconn.
  destruct todo as [|a t].
  { rewrite app_nil_r, lookup_ge_None_2 by lia. cbn. rewrite app_nil_r in *.
    split; [exact Hs|]. repeat split; try assumption.
    intros j Hj. now apply elem_of_nil in Hj. }
  rewrite lookup_app_r, Nat.sub_diag by lia. cbn [lookup list_lookup].
  pose proof (listed_once s Hs) as Hnd. rewrite Hconn in Hnd.
  apply NoDup_app in Hnd as (Hkept & Hdisj & Htodo).
  apply NoDup_cons in Htodo as [Hat Ht].
  assert (Ha : a ∈ connections s)
    by (rewrite Hconn, elem_of_app, elem_of_cons; now right; left).
  assert (Hak : a ∉ kept) by (intros Hk; apply (Hdisj a Hk); now left).
  destruct (proj1 (listed_open s Hs a) Ha) as (c & Hc & Hopen).
  destruct (on_connection_close a s c Hs Ha Hc Hopen)
    as (O1 & O2 & O3 & O4 & O5).
  rewrite Hconn, (list_remove_middle a kept t Hak) in O2.
  destruct (on_connection a close s) as [s1 out]. cbn [fst] in *.
  assert (Haclosed : exists c', objects s1 !! a = Some c' /\ closed c' = true).
  { exists (state_of (close c)). rewrite O3, lookup_insert_eq.
    split; [reflexivity|apply close_closed]. }
  destruct t as [|b t'].
  - (* the last one *)
    assert (Hend : stop_loop fuel (S (length kept)) s1 = (s1, [])).
    { destruct fuel; [reflexivity|]. cbn [stop_loop].
      rewrite O2, app_nil_r, lookup_ge_None_2 by lia. reflexivity. }
    rewrite Hend. cbn [fst odds]. rewrite app_nil_r in *.
    split; [exact O1|]. repeat split; try assumption.
    + intros j [Hj|Hj]; [|now apply elem_of_nil in Hj].
      rewrite O3, lookup_insert_ne; [reflexivity|].
      intros <-. apply Hj. now left.
    + intros j Hj _. apply list_elem_of_singleton in Hj as ->. exact Haclosed.
  - (* one is skipped *)
    apply NoDup_cons in Ht as [Hbt Ht'].
    specialize (IH (kept ++ [b]) t' s1 O1).
    rewrite length_app in IH. cbn [length] in IH.
    replace (length kept + 1)%nat with (S (length kept)) in IH by lia.
    destruct IH as (J1 & J2 & J3 & J4 & J5 & J6);
      [rewrite O2; now rewrite <- app_assoc|cbn in Hlen; lia|].
    destruct (stop_loop fuel (S (length kept)) s1) as [s2 outs].
    cbn [fst odds] in *.
    assert (Hab : a <> b) by (intros ->; apply Hat; now left).
    assert (Hat' : a ∉ t') by (intros Hin; apply Hat; now right).
    split; [exact J1|]. repeat split; try congruence.
    + rewrite J2. now rewrite <- app_assoc.
    + intros j Hj. rewrite J5.
      * rewrite O3, lookup_insert_ne; [reflexivity|].
        intros <-. destruct Hj as [Hj|Hj]; [apply Hj; now left|].
        apply elem_of_cons in Hj as [?|Hj]; [congruence|].
        apply Hat'. now apply odds_subset.
      * destruct Hj as [Hj|Hj].
        -- left. intros Hin. apply Hj. now right; right.
        -- apply elem_of_cons in Hj as [->|Hj]; [now left|now right].
    + intros j Hj Hodd. apply elem_of_cons in Hj as [->|Hj].
      * rewrite J5 by (now left). exact Haclosed.
      * apply elem_of_cons in Hj as [->|Hj]; [destruct Hodd; now left|].
        apply J6; [exact Hj|]. intros Hin. apply Hodd. now right.
Qed.

Lemma stop_inv s :
  server_inv s ->
  server_inv (stop s).1
  /\ server_callbacks (stop s).1 = server_callbacks s
  /\ client_count (stop s).1 = client_count s.
Proof.
  intros Hs.
  destruct (stop_loop_spec (length (connections s)) [] (connections s) s Hs
              eq_refl (le_n _)) as (S1 & S2 & S3 & S4 & _).
  split; [exact S1|now split].
Qed.

Lemma serve_step_inv r s :
  tame r = true -> server_inv s ->
  server_inv (serve_step r s).1
  /\ server_callbacks (serve_step r s).1
     = match r with
       | ask_add_callback callback => server_callbacks s ++ [callback]
       | _ => server_callbacks s
       end
  /\ client_count (serve_step r s).1
     = match r with
       | serve (accept _) => client_count s + 1
       | _ => client_count s
       end.
Proof.
  intros Hr Hs. destruct r as [o|file|callback|client name args|];
    cbn [serve_step].
  - destruct o as [peer|i o|client name args timeout_kw|i method args timeout_kw];
      cbn [server_step].
    + destruct (handle_connection_inv peer s Hs) as (A1 & A2 & A3 & A4).
      split; [exact A1|now split].
    + apply on_connection_keeps; [apply life_step_op|now apply hook_step_op|exact Hs].
    + unfold call_method_server.
      match goal with
      | |- context [call_each ?cl ?nm ?ar ?cb ?tk ?ids ?s0] =>
          destruct (call_each_inv cl nm ar cb tk ids s0) as (C1 & C2 & C3);
          [now apply (server_inv_ext s)|];
          destruct (call_each cl nm ar cb tk ids s0) as [s1 out]
      end.
      cbn [fst] in *. split; [|now split].
      now apply (server_inv_ext s1).
    + unfold call_method_blocking.
      match goal with
      | |- context [on_connection ?j ?m ?s0] =>
          destruct (on_connection_keeps j m s0) as (C1 & C2 & C3);
          [eauto with respects|apply hook_call_method
          |now apply (server_inv_ext s)|];
          destruct (on_connection j m s0) as [s1 out]
      end.
      cbn [fst] in *. split; [|now split].
      now apply (server_inv_ext s1).
  - unfold server_set_trace.
    apply (each_inv (fun i s => on_connection i (set_trace file) s)).
    + intros i s0 Hs0. apply on_connection_keeps;
        [eauto with respects|apply hook_set_trace|exact Hs0].
    + now apply (server_inv_ext s).
  - split; [now apply (server_inv_ext s)|now split].
  - apply signal_each_inv, Hs.
  - apply stop_inv, Hs.
Qed.

Lemma serve_run_inv rs : forall s,
  Forall (fun r => tame r = true) rs -> server_inv s ->
  server_inv (serve_run rs s).1
  /\ client_count (serve_run rs s).1 = client_count s + Z.of_nat (accepted rs).
Proof.
  induction rs as [|r rs IH]; intros s Hrs Hs; cbn [serve_run accepted].
  { split; [exact Hs|cbn; lia]. }
  apply Forall_cons in Hrs as [Hr Hrs].
  destruct (serve_step_inv r s Hr Hs) as (S1 & _ & S3).
  destruct (serve_step r s) as [s1 out]. cbn [fst] in *.
  destruct (IH s1 Hrs S1) as [J1 J2].
  destruct (serve_run rs s1) as [s2 outs]. cbn [fst] in *.
  split; [exact J1|]. rewrite J2, S3.
  destruct r as [[]| | | |]; cbn [accepted]; lia.
Qed.

Lemma server_inv_init h : server_inv (server_init h).
Proof.
  split; cbn.
  - constructor.
  - intros i. split; [intros Hi; now apply elem_of_nil in Hi|].
    intros (c & Hc & _). now rewrite lookup_empty in Hc.
  - intros i c Hc. now rewrite lookup_empty in Hc.
Qed.

(** X16: the server's list of connections.  After any history of the
    server in which nobody else registers the server's own callback on
    a connection, the list has no duplicates, holds exactly the
    connections that are open, and [client_count] is the number of
    connections ever accepted. *)
Theorem server_lists_open_connections rs h :
  Forall (fun r => tame r = true) rs ->
  let s := (serve_run rs (server_init h)).1 in
  NoDup (connections s)
  /\ (forall i,
        i ∈ connections s
        <-> exists c, objects s !! i = Some c /\ closed c = false)
  /\ client_count s = Z.of_nat (accepted rs).
Proof.
  intros Hrs. cbn zeta.
  destruct (serve_run_inv rs _ Hrs (server_inv_init h)) as [[I1 I2 I3] Hn].
  split; [exact I1|split; [exact I2|]]. rewrite Hn. cbn. lia.
Qed.

(** X17: [stop] closes every other connection.  Each [close] removes
    the connection from the list that the loop runs over, so the loop
    skips the next one: the connections at the second, fourth, ...
    place stay open and listed, the others are closed. *)
Theorem stop_skips_every_other rs h :
  Forall (fun r => tame r = true) rs ->
  let s := (serve_run rs (server_init h)).1 in
  connections (stop s).1 = odds (connections s)
  /\ (forall j, j ∈ odds (connections s) ->
        exists c, objects (stop s).1 !! j = Some c /\ closed c = false)
  /\ (forall j, j ∈ connections s -> j ∉ odds (connections s) ->
        exists c, objects (stop s).1 !! j = Some c /\ closed c = true).
Proof.
  intros Hrs. cbn zeta.
  destruct (serve_run_inv rs _ Hrs (server_inv_init h)) as [Hs _].
  set (s := (serve_run rs (server_init h)).1) in *.
  destruct (stop_loop_spec (length (connections s)) [] (connections s) s Hs
              eq_refl (le_n _)) as (S1 & S2 & S3 & S4 & S5 & S6).
  cbn zeta in *. cbn [app length] in *. fold (stop s) in *.
  split; [exact S2|split; [|exact S6]].
  intros j Hj. rewrite S5 by now right.
  apply (listed_open s Hs). now apply odds_subset.
Qed.

Lemma get_client_loop_spec name ids s :
  match get_client_loop name ids s with
  | Some i =>
      exists l1 l2 c,
        ids = l1 ++ i :: l2 /\ objects s !! i = Some c
        /\ fnmatch (peer_name c) name = true
        /\ forall j cj, j ∈ l1 -> objects s !! j = Some cj ->
             fnmatch (peer_name cj) name = false
  | None =>
      forall j cj, j ∈ ids -> objects s !! j = Some cj ->
        fnmatch (peer_name cj) name = false
  end.
Proof.
  induction ids as [|i ids IH]; cbn [get_client_loop].
  { intros j cj Hj. now apply elem_of_nil in Hj. }
  assert (Hskip : (forall c, objects s !! i = Some c ->
                     fnmatch (peer_name c) name = false) ->
    match get_client_loop name ids s with
    | Some i0 =>
        exists l1 l2 c,
          i :: ids = l1 ++ i0 :: l2 /\ objects s !! i0 = Some c
          /\ fnmatch (peer_name c) name = true
          /\ forall j cj, j ∈ l1 -> objects s !! j = Some cj ->
               fnmatch (peer_name cj) name = false
    | None =>
        forall j cj, j ∈ i :: ids -> objects s !! j = Some cj ->
          fnmatch (peer_name cj) name = false
    end).
  { intros Hno. destruct (get_client_loop name ids s) as [i0|].
    - destruct IH as (l1 & l2 & c & -> & Hc & Hm & Hfirst).
      exists (i :: l1), l2, c. repeat split; try assumption.
      intros j cj Hj Hcj. apply elem_of_cons in Hj as [->|Hj]; eauto.
    - intros j cj Hj Hcj. apply elem_of_cons in Hj as [->|Hj]; eauto. }
  destruct (objects s !! i) as [c|] eqn:Hi; [|apply Hskip; discriminate].
  destruct (fnmatch (peer_name c) name) eqn:Hm.
  - exists [], ids, c. repeat split; try assumption.
    intros j cj Hj. now apply elem_of_nil in Hj.
  - apply Hskip. now intros ? [= <-].
Qed.

(** X18: [get_client] returns the first listed connection whose peer
    name matches; it is open, and no connection listed before it
    matches.  When it returns [None], no open connection matches. *)
Theorem get_client_first_open rs h name :
  Forall (fun r => tame r = true) rs ->
  let s := (serve_run rs (server_init h)).1 in
  match get_client name s with
  | Some i =>
      exists l1 l2 c,
        connections s = l1 ++ i :: l2
        /\ objects s !! i = Some c /\ closed c = false
        /\ fnmatch (peer_name c) name = true
        /\ forall j cj, j ∈ l1 -> objects s !! j = Some cj ->
             fnmatch (peer_name cj) name = false
  | None =>
      forall j cj, objects s !! j = Some cj -> closed cj = false ->
        fnmatch (peer_name cj) name = false
  end.
Proof.
  intros Hrs. cbn zeta.
  destruct (serve_run_inv rs _ Hrs (server_inv_init h)) as [Hs _].
  set (s := (serve_run rs (server_init h)).1) in *.
  pose proof (get_client_loop_spec name (connections s) s) as Hspec.
  unfold get_client. destruct (get_client_loop name (connections s) s) as [i|].
  - destruct Hspec as (l1 & l2 & c & Hl & Hc & Hm & Hfirst).
    exists l1, l2, c. repeat split; try assumption.
    assert (Hi : i ∈ connections s) by (rewrite Hl; set_solver).
    apply (listed_open s Hs) in Hi as (c' & Hc' & Hopen). congruence.
  - intros j cj Hcj Hopen. apply (Hspec j cj); [|exact Hcj].
    apply (listed_open s Hs). eauto.
Qed.

Lemma list_remove_last i l :
  NoDup l -> i ∈ l -> list_remove i l = [] <-> l = [i].
Proof.
  intros Hnd Hi. split; [|intros ->; cbn; now rewrite Nat.eqb_refl].
  destruct l as [|k l]; [now apply elem_of_nil in Hi|]. cbn.
  destruct (Nat.eqb_spec i k) as [->|Hne]; [now intros ->|discriminate].
Qed.

(** X19: what the server's callbacks hear of an operation on an open
    connection.  When the operation closes it, each callback is told
    [ConnectionClosed], and after that each is told
    [LastConnectionClosed] if it was the only one listed; when it does
    not close it, they are told nothing. *)
Theorem last_connection_closed rs h i o c :
  Forall (fun r => tame r = true) rs -> tame_op o = true ->
  let s := (serve_run rs (server_init h)).1 in
  objects s !! i = Some c -> closed c = false ->
  server_lifecycles (serve_step (serve (connection_op i o)) s).2
  = if closed (state_of (step o c)) then
      ((fun callback => (callback, "ConnectionClosed"%string))
         <$> server_callbacks s)
      ++ (if bool_decide (connections s = [i]) then
            (fun callback => (callback, "LastConnectionClosed"%string))
              <$> server_callbacks s
          else [])
    else [].
Proof.
  intros Hrs Ho. cbn zeta. intros Hc Hopen.
  destruct (serve_run_inv rs _ Hrs (server_inv_init h)) as [Hs _].
  set (s := (serve_run rs (server_init h)).1) in *.
  cbn [serve_step server_step].
  destruct (on_connection_inv i (step o) s) as (_ & _ & _ & O4);
    [apply life_step_op|now apply hook_step_op|exact Hs|].
  rewrite Hc in O4. destruct O4 as (_ & _ & ->).
  rewrite Hopen. cbn [negb andb].
  destruct (closed (state_of (step o c))); [|reflexivity].
  destruct (connection_event_fields "ConnectionClosed" i s) as (_ & _ & _ & ->).
  f_equal. unfold _connection_event. cbn.
  assert (Hi : i ∈ connections s) by (apply (listed_open s Hs); eauto).
  pose proof (list_remove_last i (connections s) (listed_once s Hs) Hi) as Hlast.
  case_bool_decide as Hone.
  - now rewrite (proj2 Hlast Hone).
  - destruct (list_remove i (connections s)) eqn:Hrem; [|reflexivity].
    destruct Hone. now apply Hlast.
Qed.

Lemma on_connection_signal i name args s c :
  objects s !! i = Some c ->
  on_connection i (send_signal name args) s
  = (set_objects (<[i := state_of (send_signal name args c)]> (objects s)) s, []).
Proof.
  intros Hc. unfold on_connection. rewrite Hc.
  assert (Hev : events_of (send_signal name args c) = []).
  { unfold send_signal, push_outgoing, enable_watch_write, bind, get, modify,
      ret, events_of. cbn.
    destruct (negb (closed c) && negb (_writing c)); cbn; [|reflexivity].
    now destruct (_write_event c). }
  now rewrite Hev.
Qed.

Lemma signal_each_objects client name args ids : forall s,
  NoDup ids ->
  (signal_each client name args ids s).2 = []
  /\ connections (signal_each client name args ids s).1 = connections s
  /\ forall i,
       objects (signal_each client name args ids s).1 !! i
       = (fun c => if bool_decide (i ∈ ids) && matches client c
                   then state_of (send_signal name args c)
                   else c) <$> objects s !! i.
Proof.
  induction ids as [|i0 ids IH]; intros s Hnd; cbn [signal_each].
  { cbn. repeat split. intros i. now destruct (objects s !! i). }
  apply NoDup_cons in Hnd as [Hnotin Hnd].
  assert (Hskip :
            (forall c, objects s !! i0 = Some c -> matches client c = false) ->
            (signal_each client name args ids s).2 = []
            /\ connections (signal_each client name args ids s).1
               = connections s
            /\ forall i,
                 objects (signal_each client name args ids s).1 !! i
                 = (fun c => if bool_decide (i ∈ i0 :: ids) && matches client c
                             then state_of (send_signal name args c)
                             else c) <$> objects s !! i).
  { intros Hno. destruct (IH s Hnd) as (I1 & I2 & I4).
    repeat split; [assumption..|]. intros i. rewrite I4.
    destruct (objects s !! i) as [c|] eqn:Hi; [|reflexivity]. cbn. f_equal.
    destruct (decide (i = i0)) as [->|Hne].
    - rewrite (Hno c Hi), !andb_false_r. reflexivity.
    - rewrite (bool_decide_ext (i ∈ i0 :: ids) (i ∈ ids)); [reflexivity|].
      rewrite elem_of_cons. tauto. }
  destruct (objects s !! i0) as [c0|] eqn:H0.
  2:{ apply Hskip. intros c [=]. }
  destruct (matches client c0) eqn:Hmatch.
  2:{ apply Hskip. now intros c [= <-]. }
  clear Hskip.
  rewrite (on_connection_signal i0 name args s c0 H0). cbv beta iota.
  destruct (IH (set_objects
                  (<[i0 := state_of (send_signal name args c0)]> (objects s)) s)
              Hnd) as (I1 & I3 & I4).
  destruct (signal_each client name args ids _) as [s2 out2].
  cbn [fst snd] in *. subst out2. repeat split; [assumption|].
  intros i. rewrite I4. cbn.
  destruct (decide (i = i0)) as [->|Hne].
  - rewrite lookup_insert_eq, H0. cbn. f_equal.
    rewrite (bool_decide_eq_false_2 (i0 ∈ ids)) by assumption.
    rewrite (bool_decide_eq_true_2 (i0 ∈ i0 :: ids)) by apply list_elem_of_here.
    cbn. now rewrite Hmatch.
  - rewrite lookup_insert_ne by congruence.
    destruct (objects s !! i) as [c|]; [|reflexivity]. cbn. f_equal.
    rewrite (bool_decide_ext (i ∈ i0 :: ids) (i ∈ ids)); [reflexivity|].
    rewrite elem_of_cons. tauto.
Qed.

(** X20: the server's [send_signal] queues the signal, a message
    without [id], at the end of the output of every open connection
    whose peer matches [client], registers no call, consumes no serial
    number, and leaves every other connection and the list as they
    are. *)
Theorem send_signal_reaches_matching rs h client name args :
  Forall (fun r => tame r = true) rs ->
  let s := (serve_run rs (server_init h)).1 in
  let s' := (server_send_signal client name args s).1 in
  (server_send_signal client name args s).2 = []
  /\ connections s' = connections s
  /\ forall i c,
       objects s !! i = Some c ->
       if negb (closed c) && matches client c then
         exists c',
           objects s' !! i = Some c'
           /\ _outgoing c'
              = _outgoing c
                ++ [json_dumps
                      (<["params" := JList args]>
                         (<["method" := JStr name]> jsonrpc_header))]
           /\ method_calls c' = method_calls c
           /\ next_serial c' = next_serial c
           /\ closed c' = false
       else objects s' !! i = Some c.
Proof.
  intros Hrs. cbn zeta.
  destruct (serve_run_inv rs _ Hrs (server_inv_init h)) as [Hs _].
  set (s := (serve_run rs (server_init h)).1) in *.
  unfold server_send_signal.
  destruct (signal_each_objects client name args (connections s) s
              (listed_once s Hs)) as (S1 & S2 & S3).
  split; [exact S1|split; [exact S2|]].
  intros i c Hc. rewrite S3, Hc. cbn.
  assert (Hlisted : bool_decide (i ∈ connections s) = negb (closed c)).
  { destruct (closed c) eqn:Hopen; cbn.
    - apply bool_decide_eq_false_2. intros Hi.
      apply (listed_open s Hs) in Hi as (c' & Hc' & Hopen'). congruence.
    - apply bool_decide_eq_true_2. apply (listed_open s Hs). eauto. }
  rewrite Hlisted.
  destruct (negb (closed c) && matches client c) eqn:Hm; [|reflexivity].
  eexists. split; [reflexivity|].
  destruct (push_outgoing_returns
              (<["params" := JList args]>
                 (<["method" := JStr name]> jsonrpc_header)) c) as [_ Hq].
  destruct (base_send_signal name args c) as (Hl & Hcall & _).
  destruct Hcall as (C1 & C2 & _).
  apply andb_prop in Hm as [Hopen _]. apply negb_true_iff in Hopen.
  split; [exact Hq|split; [exact C2|split; [exact C1|]]].
  unfold send_signal, push_outgoing, enable_watch_write, bind, get, modify,
    ret, state_of. cbn.
  destruct (negb (closed c) && negb (_writing c)); cbn; [|exact Hopen].
  now destruct (_write_event c).
Qed.

End Listing.
End ServerLife.

(** ** A call and its answer *)

Module ExchangeFacts.
Import Bus Views BusFacts Streams Outbound Arrivals PumpFacts WriteFacts
  HandlerFacts RoundTrip Exchange.

Section Exchange.
Context `{library}.

(** The write pump sends the one message that is queued. *)
Lemma flush_one c frame :
  _outbuf c = [] -> _outgoing c = [frame] ->
  flush c
  = (set_writing false (set_write_event false (set_outgoing [] c)),
     frame,
     match tracefile c with Some _ => [ev_trace frame false] | None => [] end
     ++ [ev_send frame]).
Proof.
  intros Hob Hog. unfold flush, pending. rewrite Hob, Hog. cbn [concat app].
  rewrite app_nil_r.
  assert (Hrun : _do_write [send_ok (length frame)] c
    = (Return tt, set_writing false (set_write_event false (set_outgoing [] c)),
       match tracefile c with Some _ => [ev_trace frame false] | None => [] end
       ++ [ev_send frame])).
  { unfold _do_write. cbn [write_loop].
    unfold bind at 1 2, get at 1. rewrite Hob, Hog.
    destruct (tracefile c) eqn:Htr;
      unfold _do_trace, disable_watch_write, bind, get, modify, emit, ret;
      cbn; rewrite drop_all; cbn;
      (destruct (_write_event c) eqn:Hw; cbn; f_equal; f_equal;
       destruct c; cbn in *; now subst). }
  rewrite Hrun. cbn [state_of events_of fst snd]. f_equal. f_equal.
  destruct (tracefile c); cbn; rewrite firstn_all; now rewrite app_nil_r.
Qed.

Lemma idle_ext c c' :
  idle c -> closed c' = closed c -> _inbuf c' = _inbuf c ->
  _incoming c' = _incoming c -> hub_callbacks c' = hub_callbacks c ->
  max_message_size c' = max_message_size c ->
  max_incoming_messages c' = max_incoming_messages c ->
  _reading c' = _reading c -> idle c'.
Proof. unfold idle. intros (? & ? & ? & ? & ? & ? & ?). intros. repeat split; congruence. Qed.

(** [call_method] with a callback, on a connection with nothing to
    write. *)
Lemma call_method_wire method args cb timeout_kw c :
  let c' := state_of (call_method method args (Some cb) timeout_kw c) in
  closed c' = closed c /\ _inbuf c' = _inbuf c /\ _incoming c' = _incoming c
  /\ hub_callbacks c' = hub_callbacks c
  /\ max_message_size c' = max_message_size c
  /\ max_incoming_messages c' = max_incoming_messages c
  /\ _reading c' = _reading c /\ _outbuf c' = _outbuf c
  /\ tracefile c' = tracefile c /\ next_serial c' = next_serial c + 1
  /\ _outgoing c'
     = _outgoing c
       ++ [json_dumps
             (<["params" := JList args]>
                (<["method" := JStr method]>
                   (<["id" := JInt (next_serial c)]> jsonrpc_header)))]
  /\ method_calls c'
     = <[next_serial c :=
           {| mrc_id := next_serial c; mrc_callback := cb;
              mrc_timer := next_timer c |}]> (method_calls c)
  /\ events_of (call_method method args (Some cb) timeout_kw c) = [].
Proof.
  unfold call_method, create_timer, push_outgoing, enable_watch_write, bind,
    get, modify, ret, state_of, events_of.
  cbn. destruct (negb (closed c) && negb (_writing c)); cbn;
    [destruct (_write_event c); cbn|]; now repeat split.
Qed.

Lemma push_outgoing_wire m c :
  let c' := state_of (push_outgoing m c) in
  closed c' = closed c /\ _outbuf c' = _outbuf c
  /\ _outgoing c' = _outgoing c ++ [json_dumps m]
  /\ tracefile c' = tracefile c
  /\ events_of (push_outgoing m c) = [].
Proof.
  unfold push_outgoing, enable_watch_write, bind, get, modify, ret, state_of,
    events_of.
  cbn. destruct (negb (closed c) && negb (_writing c)); cbn;
    [destruct (_write_event c); cbn|]; now repeat split.
Qed.

Lemma replies_arrival c frame : replies (arrival c frame) = [].
Proof. unfold arrival. now destruct (tracefile c). Qed.

(** X21: a call from one connection to its peer and back.  When both
    ends are idle, the peer's handler has the method, takes the
    arguments and returns [response], and the encoder and the decoder
    agree on the request and on the answer, then the caller's callback
    gets the answer with the call's [id] and [response] as result,
    once, the peer's callbacks get none; the call is no longer pending,
    one serial number is used, both ends stay open and their queues
    are empty. *)
Theorem call_round_trip a b reg h method args cb timeout_kw response :
  let id := next_serial a in
  let request :=
    <["params" := JList args]>
      (<["method" := JStr method]> (<["id" := JInt id]> jsonrpc_header)) in
  let answer := <["result" := response]> (<["id" := JInt id]> jsonrpc_header) in
  idle a -> _outbuf a = [] -> _outgoing a = [] ->
  idle b -> _outbuf b = [] -> _outgoing b = [] -> handler b = Some reg ->
  methods reg !! method = Some h ->
  _check_callable h (JList args) = Return true ->
  h_call h args = {| run_actions := []; run_end := handler_returns response |} ->
  codec request -> codec answer ->
  let '(a', b', evs_a, evs_b) := round_trip a b method args cb timeout_kw in
  replies evs_a = [(cb, answer)]
  /\ replies evs_b = []
  /\ method_calls a' !! id = None
  /\ next_serial a' = id + 1
  /\ closed a' = false /\ closed b' = false
  /\ _outgoing a' = [] /\ _outgoing b' = [].
Proof.
  cbn zeta.
  intros Ha Haob Haog Hb Hbob Hbog Hreg Hh Hcheck Hcall
    (Rl & Rf & Ra) (Al & Af & Aa).
  set (id := next_serial a) in *.
  set (request := <["params" := JList args]>
                    (<["method" := JStr method]>
                       (<["id" := JInt id]> jsonrpc_header))) in *.
  set (answer := <["result" := response]> (<["id" := JInt id]> jsonrpc_header))
    in *.
  (* the shapes of the two messages *)
  assert (Rjson : check_message request = true)
    by (apply check_message_spec; subst request; now simplify_map_eq).
  assert (Ajson : check_message answer = true)
    by (apply check_message_spec; subst answer; now simplify_map_eq).
  assert (Rid : request !! "id" = Some (JInt id))
    by (subst request; now simplify_map_eq).
  assert (Rmethod : request !! "method" = Some (JStr method))
    by (subst request; now simplify_map_eq).
  assert (Rparams : request !! "params" = Some (JList args))
    by (subst request; now simplify_map_eq).
  assert (Rres : has_key request "result" = false)
    by (unfold has_key; subst request; now simplify_map_eq).
  assert (Rerr : has_key request "error" = false)
    by (unfold has_key; subst request; now simplify_map_eq).
  assert (Aid : answer !! "id" = Some (JInt id))
    by (subst answer; now simplify_map_eq).
  assert (Ares : has_key answer "result" || has_key answer "error" = true)
    by (unfold has_key; subst answer; now simplify_map_eq).
  (* the call *)
  unfold round_trip.
  destruct (call_method_wire method args cb timeout_kw a)
    as (C1 & C2 & C3 & C4 & C5 & C6 & C7 & C8 & C9 & C10 & C11 & C12 & C13).
  set (a1 := state_of (call_method method args (Some cb) timeout_kw a)) in *.
  rewrite Haog in C11. cbn [app] in C11. fold id request in C11, C12.
  rewrite C13, (flush_one a1 (json_dumps request)) by congruence.
  set (a2 := set_writing false (set_write_event false (set_outgoing [] a1))).
  assert (Ha2 : idle a2)
    by (apply (idle_ext a a2 Ha); unfold a2; cbn; congruence).
  (* the peer *)
  unfold hear.
  rewrite (request_handled b reg (json_dumps request) request)
    by assumption.
  assert (Hserve : handler_dispatch reg request b = push_outgoing answer b).
  { unfold handler_dispatch, has_key. rewrite Rid, Rmethod. cbn [andb].
    rewrite (dispatch_method_call_invoked reg request (JInt id) (JStr method) h b)
      by first [ assumption
               | rewrite Rparams; exact Hcheck
               | cbn; now rewrite Hh ].
    rewrite Rparams. cbn -[push_outgoing handler_actions h_call].
    rewrite Hcall. cbn -[push_outgoing].
    unfold bind, ret. fold answer.
    destruct (push_outgoing answer b) as [[r c2] e2]. reflexivity. }
  rewrite Hserve.
  destruct (push_outgoing_wire answer b) as (P1 & P2 & P3 & P4 & P5).
  set (b1 := state_of (push_outgoing answer b)) in *.
  rewrite Hbog in P3. cbn [app] in P3.
  rewrite P5, (flush_one b1 (json_dumps answer)) by congruence.
  (* the answer *)
  rewrite (reply_handled a2 (json_dumps answer) answer (JInt id) id
             {| mrc_id := id; mrc_callback := cb; mrc_timer := next_timer a |})
    by (try assumption; try reflexivity;
        cbn; rewrite C12; apply lookup_insert_eq).
  cbn [mrc_callback mrc_timer].
  rewrite !replies_app, !replies_arrival.
  destruct Ha as (Ha & _). destruct Hb as (Hb & _).
  repeat split.
  - destruct (tracefile a1); reflexivity.
  - destruct (tracefile b1); reflexivity.
  - cbn. rewrite C12. apply lookup_delete_eq.
  - cbn. exact C10.
  - cbn. congruence.
  - cbn. congruence.
Qed.

End Exchange.
End ExchangeFacts.

(** ** The blocking call *)

Module BlockingFacts.
Import Bus Views BusFacts Server ServerFacts.

Section Blocking.
Context `{library}.

(** X22: a blocking call that is not answered.  The call parks the
    calling greenlet on a fresh waiter and registers the call and its
    timer; when the timer fires the waiter is resumed with the timeout
    error, the call and the timer are gone, and the caller raises
    [MessageBusError] with code [Timeout]. *)
Theorem blocking_call_times_out s i c method args timeout_kw :
  objects s !! i = Some c ->
  let w := fresh (waiters s) in
  let id := next_serial c in
  let t := next_timer c in
  let called := call_method_blocking i method args timeout_kw s in
  let s1 := called.1.2 in
  let s2 := (server_step (connection_op i (op_fire_timer t)) s1).1 in
  called.1.1 = w
  /\ waiters s1 !! w
     = Some {| greenlet := true; value := None; returned := None |}
  /\ (exists c1,
        objects s1 !! i = Some c1
        /\ method_calls c1
           = <[id := {| mrc_id := id; mrc_callback := waiter_switch w;
                        mrc_timer := t |}]> (method_calls c)
        /\ hub_timers c1 !! t
           = Some {| timer_delay := default (timeout c) timeout_kw;
                     timer_callback :=
                       {| mrc_id := id; mrc_callback := waiter_switch w;
                          mrc_timer := t |} |})
  /\ waiters s2 !! w
     = Some {| greenlet := false; value := None;
               returned := Some (timeout_error id) |}
  /\ (exists c2,
        objects s2 !! i = Some c2
        /\ method_calls c2 !! id = None /\ hub_timers c2 !! t = None)
  /\ call_outcome (timeout_error id)
     = Raise (StructuredError (MessageBusError (JStr "Timeout") (Some JNull))).
Proof.
  intros Hc. cbn zeta.
  set (w := fresh (waiters s)). set (id := next_serial c).
  set (t := next_timer c).
  set (f := {| mrc_id := id; mrc_callback := waiter_switch w; mrc_timer := t |}).
  unfold call_method_blocking. fold w.
  rewrite (on_connection_call i method args (waiter_switch w) timeout_kw _ c)
    by exact Hc.
  cbn [fst snd].
  set (c1 := state_of (call_method method args (Some (waiter_switch w))
                         timeout_kw c)).
  assert (Hcalls : method_calls c1 = <[id := f]> (method_calls c))
    by apply call_method_entry.
  assert (Htimer : hub_timers c1 !! t
            = Some {| timer_delay := default (timeout c) timeout_kw;
                      timer_callback := f |}).
  { unfold c1, call_method, create_timer, push_outgoing, enable_watch_write,
      bind, get, modify, ret, state_of. cbn.
    destruct (negb (closed c) && negb (_writing c)); cbn;
      [destruct (_write_event c); cbn|]; apply lookup_insert_eq. }
  split; [reflexivity|]. split.
  { cbn. rewrite lookup_alter_eq, lookup_insert_eq. reflexivity. }
  split.
  { exists c1. cbn. rewrite lookup_insert_eq. now repeat split. }
  assert (Hfire : fire_timer t c1
    = (Return tt,
       set_method_calls (delete id (method_calls c1))
         (set_hub_timers (delete t (hub_timers c1)) c1),
       [ev_reply (waiter_switch w) (timeout_error id)])).
  { unfold fire_timer, method_return_callback_run, method_calls_del, bind, get,
      modify, emit. cbn. rewrite Htimer. cbn.
    assert (Hlook : method_calls c1 !! id = Some f)
      by (rewrite Hcalls; apply lookup_insert_eq).
    rewrite Hlook. reflexivity. }
  cbn [server_step step]. unfold on_connection. cbn [objects set_objects set_waiters].
  rewrite lookup_insert_eq, Hfire. cbn [state_of events_of fst snd react_all react].
  cbn. rewrite lookup_alter_eq, lookup_alter_eq, lookup_insert_eq. cbn.
  split; [reflexivity|]. split; [|reflexivity].
  eexists. rewrite lookup_insert_eq. split; [reflexivity|]. cbn.
  split; apply lookup_delete_eq.
Qed.

End Blocking.
End BlockingFacts.

(** ** The order of dispatch, and tracing *)

Module OrderFacts.
Import Bus Views BusFacts Server ServerFacts Arrivals ServerOps ServerLife.

Section Order.
Context `{library}.

Lemma dispatch_loop_spawns reg : forall frames msgs fuel c,
  (length frames < fuel)%nat -> handler c = Some reg ->
  _incoming c = frames -> Forall2 carries frames msgs ->
  result_of (dispatch_loop fuel c) = Return tt
  /\ events_of (dispatch_loop fuel c) = []
  /\ _incoming (state_of (dispatch_loop fuel c)) = []
  /\ hub_callbacks (state_of (dispatch_loop fuel c))
     = hub_callbacks c ++ (run_greenlet <$> msgs)
  /\ closed (state_of (dispatch_loop fuel c)) = closed c
  /\ method_calls (state_of (dispatch_loop fuel c)) = method_calls c.
Proof.
  induction frames as [|frame frames IH]; intros msgs fuel c Hfuel Hreg Hin Hall.
  - apply Forall2_nil_inv_l in Hall as ->.
    destruct fuel as [|fuel]; [cbn in Hfuel; lia|]. cbn [dispatch_loop].
    unfold bind. rewrite (pop_incoming_empty c Hin). cbn.
    rewrite app_nil_r. now repeat split.
  - apply Forall2_cons_inv_l in Hall
      as (m & msgs' & (Hm & Hok & Hres & Herr) & Hall & ->).
    destruct fuel as [|fuel]; [cbn in Hfuel; lia|].
    destruct (pop_incoming_accepts c frame frames m Hin Hm Hok)
      as (P1 & P2 & P3 & P4 & P5 & P6 & P7 & P8).
    unfold state_of, events_of, result_of in P1, P2, P3, P4, P5, P6, P7, P8.
    destruct (pop_incoming c) as [[r c1] e1] eqn:Hpop.
    cbn [fst snd] in *. subst r e1.
    set (c2 := set_hub_callbacks (hub_callbacks c1 ++ [run_greenlet m]) c1).
    assert (Heq : dispatch_loop (S fuel) c = dispatch_loop fuel c2).
    { cbn [dispatch_loop]. unfold bind at 1. rewrite Hpop.
      rewrite (check_message_nonempty m Hok), Hres, Herr. cbn [orb].
      unfold bind at 1 2, get at 1. rewrite P8, Hreg.
      unfold spawn, create_callback, modify. fold c2.
      now destruct (dispatch_loop fuel c2) as [[r3 c3] e3]. }
    rewrite Heq.
    destruct (IH msgs' fuel c2) as (I1 & I2 & I3 & I4 & I5 & I6);
      [cbn in Hfuel; lia|cbn; congruence|exact P4|exact Hall|].
    cbn in I4, I5, I6.
    repeat split; try congruence.
    rewrite I4, P7, <- app_assoc. reflexivity.
Qed.

(** X23: [dispatch] hands the queued requests and signals to the
    handler in the order of their arrival, each in a greenlet of its
    own: the hub's callbacks grow by one per message, in order, the
    queue is empty afterwards, and nothing is handled by [dispatch]
    itself. *)
Theorem dispatch_in_order c reg msgs :
  handler c = Some reg -> Forall2 carries (_incoming c) msgs ->
  result_of (dispatch c) = Return tt
  /\ events_of (dispatch c) = []
  /\ _incoming (state_of (dispatch c)) = []
  /\ hub_callbacks (state_of (dispatch c))
     = hub_callbacks c ++ (run_greenlet <$> msgs)
  /\ closed (state_of (dispatch c)) = closed c.
Proof.
  intros Hreg Hall.
  destruct (dispatch_loop_spawns reg (_incoming c) msgs
              (S (length (_incoming c))) c (Nat.lt_succ_diag_r _) Hreg eq_refl Hall)
    as (D1 & D2 & D3 & D4 & D5 & _).
  unfold dispatch, bind, get, state_of, events_of, result_of in *.
  destruct (dispatch_loop (S (length (_incoming c))) c) as [[r c1] e1].
  cbn [fst snd] in *. now repeat split.
Qed.

End Order.

Section Trace.
Context `{library}.

Lemma set_trace_each file ids : forall s,
  server_tracefile (foldl (fun s i => (on_connection i (set_trace file) s).1) s ids)
  = server_tracefile s
  /\ connections (foldl (fun s i => (on_connection i (set_trace file) s).1) s ids)
     = connections s
  /\ forall j,
       objects (foldl (fun s i => (on_connection i (set_trace file) s).1) s ids) !! j
       = (fun c => if bool_decide (j ∈ ids) then set_tracefile file c else c)
           <$> objects s !! j.
Proof.
  induction ids as [|i ids IH]; intros s; cbn [foldl].
  { repeat split. intros j. now destruct (objects s !! j). }
  assert (Hstep : (on_connection i (set_trace file) s).1
    = match objects s !! i with
      | Some c => set_objects (<[i := set_tracefile file c]> (objects s)) s
      | None => s
      end).
  { unfold on_connection. now destruct (objects s !! i). }
  rewrite Hstep. destruct (IH (match objects s !! i with
      | Some c => set_objects (<[i := set_tracefile file c]> (objects s)) s
      | None => s
      end)) as (I1 & I2 & I3).
  split; [rewrite I1; now destruct (objects s !! i)|].
  split; [rewrite I2; now destruct (objects s !! i)|].
  intros j. rewrite I3.
  destruct (decide (j = i)) as [->|Hne].
  - rewrite (bool_decide_eq_true_2 (i ∈ i :: ids)) by apply list_elem_of_here.
    destruct (objects s !! i) as [c|] eqn:Hi; cbn; rewrite ?lookup_insert_eq, ?Hi;
      [|reflexivity].
    cbn. f_equal. now case_bool_decide.
  - assert (Hj : objects (match objects s !! i with
      | Some c => set_objects (<[i := set_tracefile file c]> (objects s)) s
      | None => s
      end) !! j = objects s !! j).
    { destruct (objects s !! i); cbn; [now rewrite lookup_insert_ne|reflexivity]. }
    rewrite Hj. destruct (objects s !! j) as [c|]; [|reflexivity]. cbn. f_equal.
    rewrite (bool_decide_ext (j ∈ i :: ids) (j ∈ ids)); [reflexivity|].
    rewrite elem_of_cons. tauto.
Qed.

(** X24: the server's [set_trace] reaches every connection.  After
    it, and after any number of connections accepted later, the trace
    file of every listed connection is the server's. *)
Theorem set_trace_reaches_all rs h file peers :
  Forall (fun r => tame r = true) rs ->
  let s := (serve_run rs (server_init h)).1 in
  let s' := foldl (fun s peer => handle_connection peer s)
              (server_set_trace file s) peers in
  server_tracefile s' = file
  /\ forall i, i ∈ connections s' ->
       exists c, objects s' !! i = Some c /\ tracefile c = file /\ closed c = false.
Proof.
  intros Hrs. cbn zeta.
  destruct (serve_run_inv rs _ Hrs (server_inv_init h)) as [Hs _].
  set (s := (serve_run rs (server_init h)).1) in *.
  assert (Hbase : server_tracefile (server_set_trace file s) = file
    /\ server_inv (server_set_trace file s)
    /\ forall i, i ∈ connections (server_set_trace file s) ->
         exists c, objects (server_set_trace file s) !! i = Some c
                   /\ tracefile c = file).
  { destruct (serve_step_inv (ask_set_trace file) s eq_refl Hs) as (Hinv & _).
    cbn [serve_step fst] in Hinv.
    unfold server_set_trace in *.
    destruct (set_trace_each file (connections (set_server_tracefile file s))
                (set_server_tracefile file s)) as (T1 & T2 & T3).
    split; [rewrite T1; reflexivity|]. split; [exact Hinv|].
    intros i Hi. rewrite T2 in Hi. cbn in Hi.
    rewrite T3. cbn.
    apply (listed_open s Hs) in Hi as Hopen. destruct Hopen as (c & Hc & _).
    rewrite Hc. cbn. eexists. split; [reflexivity|].
    rewrite bool_decide_eq_true_2 by exact Hi. reflexivity. }
  destruct Hbase as (B1 & B2 & B3).
  generalize dependent (server_set_trace file s). clear Hs s Hrs rs.
  induction peers as [|peer peers IH]; intros s0 B1 B2 B3; cbn [foldl].
  { split; [exact B1|]. intros i Hi. destruct (B3 i Hi) as (c & Hc & Ht).
    exists c. repeat split; try assumption.
    apply (listed_open s0 B2) in Hi as (c' & Hc' & Hopen). congruence. }
  destruct (handle_connection_inv peer s0 B2) as (A1 & A2 & _).
  apply IH; [reflexivity || (unfold handle_connection; cbn; exact B1)|exact A1|].
  intros i Hi. rewrite A2 in Hi. unfold handle_connection. cbn.
  apply elem_of_app in Hi as [Hi|Hi].
  - destruct (B3 i Hi) as (c & Hc & Ht). exists c. split; [|exact Ht].
    rewrite lookup_insert_ne; [exact Hc|].
    intros <-. now rewrite fresh_unused in Hc.
  - apply list_elem_of_singleton in Hi as ->. rewrite lookup_insert_eq.
    eexists. split; [reflexivity|]. cbn. exact B1.
Qed.

End Trace.
End OrderFacts.


(** ** The properties on the sample library *)

Module Witnesses.
Import Bus Views BusFacts Server ServerFacts Sample.

#[local] Existing Instance sample_library.

Lemma close_idempotent_witness :
  close (state_of (close watched)) = (Return tt, state_of (close watched), [])
  /\ closed_events (events_of (close watched)) = [1; 2]%nat
  /\ closed_events
       (snd (run [op_close; op_do_read [recv_failed]; op_close]
                 (state_of (close watched)))) = []
  /\ closed_events
       (snd (run [op_do_read [recv_data []]; op_close; op_add_callback 3;
                  op_close] watched)) = [1; 2]%nat.
Proof.
  destruct (close_idempotent (H := sample_library))
    as (Hsame & Hfirst & Hclosed & Hopen).
  split; [apply Hsame; reflexivity|].
  split; [apply (Hfirst watched); reflexivity|].
  split; [apply (Hclosed _ (state_of (close watched))); reflexivity|].
  destruct (Hopen [op_do_read [recv_data []]; op_close; op_add_callback 3;
                   op_close] watched) as [[Hc _]|(_ & Hl & Hu)];
    [reflexivity|discriminate Hc|].
  reflexivity.
Defined.

Lemma throttle_iff_counterexample :
  closed throttled = false
  /\ ~ (_read_event throttled = false
        <-> max_incoming_messages throttled
            < Z.of_nat (length (_incoming throttled))).
Proof.
  assert (Hre : _read_event throttled = false) by (vm_compute; reflexivity).
  assert (Hlen : Z.of_nat (length (_incoming throttled)) = 100)
    by (vm_compute; reflexivity).
  assert (Hmax : max_incoming_messages throttled = 100) by reflexivity.
  split; [vm_compute; reflexivity|]. intros [Hiff _].
  specialize (Hiff Hre). lia.
Qed.

Lemma throttle_hysteresis_witness :
  (_read_event throttled = false ->
   max_incoming_messages throttled <= Z.of_nat (length (_incoming throttled)))
  /\ _read_event
       (state_of (_do_read [recv_data burst] (init None "server" "peer")))
     = false
  /\ _read_event (state_of (pop_incoming throttled)) = true.
Proof.
  destruct (throttle_hysteresis (H := sample_library))
    as (Hinv & Hread & Hpop).
  split; [|split].
  - apply (Hinv [op_do_read [recv_data burst]; op_pop_incoming]
             None "server" "peer"). vm_compute; reflexivity.
  - apply (Hread [recv_data burst] (init None "server" "peer"));
      vm_compute; reflexivity.
  - rewrite (Hpop throttled frame_bare (replicate 99 frame_bare) bare);
      vm_compute; reflexivity.
Defined.



Lemma serials_unique_increasing_witness :
  allocated [op_call_method "a" [] None None; op_close;
             op_call_method "b" [] (Some (user_callback 0)) None]
            (init None "server" "peer") = [1; 2]
  /\ next_serial
       (fst (run [op_call_method "a" [] None None; op_close;
                  op_call_method "b" [] (Some (user_callback 0)) None]
                 (init None "server" "peer"))) = 3.
Proof.
  destruct (serials_unique_increasing (H := sample_library)
              [op_call_method "a" [] None None; op_close;
               op_call_method "b" [] (Some (user_callback 0)) None]
              None "server" "peer") as (Hal & Hnext & _).
  split; [exact Hal|exact Hnext].
Defined.

Lemma invalid_envelope_counterexample :
  loads frame_bare = Some (JDict bare)
  /\ has_key bare "id" = false /\ has_key bare "method" = false
  /\ has_key bare "result" = false /\ has_key bare "error" = false
  /\ _incoming shapeless = [] /\ hub_callbacks shapeless = []
  /\ closed shapeless = false.
Proof. vm_compute. repeat split. Qed.

Lemma invalid_envelope_closes_witness :
  closed (state_of (pop_incoming
            (state_of (_do_read [recv_data frame_old]
                         (init None "server" "peer"))))) = true
  /\ result_of (pop_incoming
                  (state_of (_do_read [recv_data frame_bare]
                               (init None "server" "peer"))))
     = Return (Some bare)
  /\ closed (state_of (dispatch
                         (state_of (_do_read [recv_data frame_bare]
                                      (init None "server" "peer")))))
     = false.
Proof.
  destruct (invalid_envelope_closes (H := sample_library))
    as (Hbad & Hgood & _ & Hnone).
  split; [|split].
  - apply (Hbad _ frame_old []); [reflexivity|].
    intros m Hm. vm_compute in Hm. injection Hm as <-. reflexivity.
  - apply (Hgood _ frame_bare [] bare); reflexivity.
  - destruct (Hnone (state_of (_do_read [recv_data frame_bare]
                                 (init None "server" "peer")))
                    frame_bare bare) as (_ & _ & Hc & _);
      [reflexivity..|].
    rewrite Hc. reflexivity.
Defined.

Lemma timeout_and_late_reply_witness :
  events_of (fire_timer 0 calling)
  = [ev_reply (user_callback 0) (timeout_error 1)]
  /\ method_calls (state_of (fire_timer 0 calling)) = ∅
  /\ closed (state_of (dispatch
                         (state_of (_do_read [recv_data frame_late_reply]
                                      calling)))) = false
  /\ events_of (dispatch
                  (state_of (_do_read [recv_data frame_late_reply] calling)))
     = [].
Proof.
  destruct (timeout_and_late_reply (H := sample_library))
    as (Hfire & _ & Hlate).
  rewrite (Hfire calling 0%nat
             {| timer_delay := 30%Q;
                timer_callback :=
                  {| mrc_id := 1; mrc_callback := user_callback 0;
                     mrc_timer := 0 |} |}
             {| mrc_id := 1; mrc_callback := user_callback 0; mrc_timer := 0 |})
    by reflexivity.
  split; [reflexivity|split; [vm_compute; reflexivity|]].
  destruct (Hlate (state_of (_do_read [recv_data frame_late_reply] calling))
                  frame_late_reply late_reply (JInt 7) (key_int 7))
    as (_ & He & Hc & _);
    [reflexivity..|intros z [= <-]; reflexivity|].
  rewrite Hc, He. split; reflexivity.
Defined.

(** The echo scenarios: a call of [echo] with one argument, with none,
    and a call of a method that does not exist. *)
Lemma dispatch_method_call_replies_witness :
  _dispatch_method_call echo_registry request (init None "server" "peer")
  = push_outgoing (<["result" := JStr "hi"]> (<["id" := JInt 1]> jsonrpc_header))
      (init None "server" "peer")
  /\ _dispatch_method_call echo_registry request_without_params
       (init None "server" "peer")
     = push_outgoing
         (<["error" :=
              error_member
                (MessageBusError (JStr "InvalidCall")
                   (Some (JStr "Wrong number of arguments")))]>
            (<["id" := JInt 1]> jsonrpc_header))
         (init None "server" "peer")
  /\ _dispatch_method_call echo_registry request_unknown
       (init None "server" "peer")
     = push_outgoing
         (<["error" :=
              error_member
                (MessageBusError (JStr "NotFound")
                   (Some (JStr "No such method call")))]>
            (<["id" := JInt 1]> jsonrpc_header))
         (init None "server" "peer").
Proof.
  split; [|split].
  - destruct (dispatch_method_call_replies (H := sample_library) echo_registry
                request (JInt 1) (JStr "echo") (init None "server" "peer")
                ltac:(vm_compute; reflexivity) ltac:(vm_compute; reflexivity)) as [_ Hknown].
    destruct (Hknown echo 1 ltac:(vm_compute; reflexivity) eq_refl
                ltac:(cbn; lia) ltac:(vm_compute; reflexivity))
      as [_ Hgood].
    destruct Hgood as (_ & _ & Hret); [cbn; lia|].
    apply (Hret (JStr "hi")); reflexivity.
  - destruct (dispatch_method_call_replies (H := sample_library) echo_registry
                request_without_params (JInt 1) (JStr "echo")
                (init None "server" "peer") ltac:(vm_compute; reflexivity) ltac:(vm_compute; reflexivity)) as [_ Hknown].
    destruct (Hknown echo 0 ltac:(vm_compute; reflexivity) eq_refl
                ltac:(cbn; lia) ltac:(vm_compute; reflexivity))
      as [Hbad _].
    apply Hbad. left. cbn. lia.
  - destruct (dispatch_method_call_replies (H := sample_library) echo_registry
                request_unknown (JInt 1) (JStr "nope")
                (init None "server" "peer") ltac:(vm_compute; reflexivity) ltac:(vm_compute; reflexivity)) as [Hnone _].
    apply Hnone. reflexivity.
Defined.


End Witnesses.

(** ** The further properties on the scenarios *)

Module Examples.
Import Scanner Bus Views Server Sample Streams Outbound Arrivals Replies
  ServerOps Exchange Scenarios.
Import ScannerStream PumpFacts WriteFacts HandlerFacts RoundTrip ServerLife
  ExchangeFacts BlockingFacts OrderFacts.

#[local] Existing Instance framed_library.

Lemma framed_text (m : message) :
  json_dumps m <> [] /\ decode_ascii (json_dumps m) = Return (json_dumps m).
Proof.
  cbn. unfold framed_dumps.
  destruct (has_key m "method"); [split; [discriminate|reflexivity]|].
  destruct (has_key m "result"); split; first [discriminate|reflexivity].
Qed.

Lemma find_message_end_stable_witness :
  find_message_end (frame_bare ++ frame_request) = Return 17
  /\ find_message_end (take 18 frame_bare) = Return 17
  /\ find_message_end (text "x" ++ frame_bare) = Raise ValueError.
Proof.
  destruct (find_message_end_stable frame_bare frame_request) as (Hfound & _ & _).
  destruct (Hfound 17 ltac:(vm_compute; reflexivity) ltac:(lia)) as (H1 & H2 & _).
  destruct (find_message_end_stable (text "x") frame_bare) as (_ & Hraise & _).
  split; [exact H1 | split; [exact H2 |]].
  apply Hraise. vm_compute. reflexivity.
Defined.

Lemma buffer_bounded_witness :
  Z.of_nat (length (_inbuf halfway)) <= 1024000
  \/ find_message_end (_inbuf halfway) = Raise ValueError.
Proof.
  destruct (buffer_bounded [op_do_read [recv_data (text "{'jsonrpc'")]]
              None "server" "peer") as [_ Hb].
  apply Hb. vm_compute. reflexivity.
Defined.

Lemma garbage_wedges_reader_witness :
  _do_read [recv_data frame_bare] wedged = (Raise ValueError, wedged, [])
  /\ _inbuf (fst (run [op_do_read [recv_data frame_bare]; op_dispatch] wedged))
     = _inbuf wedged.
Proof.
  destruct (garbage_wedges_reader wedged ValueError) as [Hr Hb].
  - vm_compute. reflexivity.
  - split; [apply Hr | apply Hb].
Defined.

Lemma do_write_keeps_order_witness :
  _write_event (state_of (_do_write [send_ok 18] loaded)) = false
  /\ _writing (state_of (_do_write [send_ok 18] loaded)) = false.
Proof.
  destruct (do_write_keeps_order [send_ok 18] loaded)
    as (moved & _ & _ & _ & _ & Hoff).
  - repeat constructor.
  - apply Hoff. vm_compute. reflexivity.
Defined.

Lemma closed_never_watches_witness :
  _read_event (fst (run [op_close] (init None "server" "peer"))) = false
  /\ _write_event (fst (run [op_close] (init None "server" "peer"))) = false.
Proof.
  apply (closed_never_watches [op_close] None "server" "peer").
  vm_compute. reflexivity.
Defined.

Lemma write_watch_follows_queue_witness :
  _writing (fst (run [op_send_signal "hello" []] (init None "server" "peer")))
  = _write_event (fst (run [op_send_signal "hello" []] (init None "server" "peer")))
  /\ _write_event (fst (run [op_send_signal "hello" []] (init None "server" "peer")))
     = true.
Proof.
  destruct (write_watch_follows_queue framed_text
              [op_send_signal "hello" []] None "server" "peer") as [H1 H2].
  - vm_compute. reflexivity.
  - split; [exact H1 | apply H2; right; vm_compute; discriminate].
Defined.


Lemma handler_replies_witness :
  result_of (_dispatch_method_call hasty_registry request callee) = Return tt
  /\ _outgoing (state_of (_dispatch_method_call hasty_registry request callee))
     = [frame_reply; frame_bare].
Proof.
  destruct (handler_replies hasty_registry request (JInt 1) (JStr "echo") hasty
              callee) as [Hr Hq]; try (vm_compute; reflexivity).
  split; [exact Hr | rewrite Hq; vm_compute; reflexivity].
Defined.

Lemma unsized_params_unanswered_witness :
  handler_dispatch echo_registry request_number callee
  = (Raise TypeError, callee, []).
Proof.
  apply (unsized_params_unanswered echo_registry request_number (JInt 1)
           (JStr "echo") echo TypeError callee); vm_compute; reflexivity.
Defined.


Lemma idle_caller : idle caller.
Proof. unfold idle. repeat split; try reflexivity; vm_compute; discriminate. Qed.

Lemma idle_callee : idle callee.
Proof. unfold idle. repeat split; try reflexivity; vm_compute; discriminate. Qed.

Lemma idle_asked : idle asked.
Proof. unfold idle. repeat split; try reflexivity; vm_compute; discriminate. Qed.

Lemma request_reaches_handler_witness :
  run [op_do_read [recv_data frame_request]; op_run_callback; op_run_callback]
      callee
  = (state_of (handler_dispatch echo_registry request callee),
     arrival callee frame_request
     ++ events_of (handler_dispatch echo_registry request callee)).
Proof.
  apply (request_reaches_handler callee echo_registry frame_request request);
    first [exact idle_callee | vm_compute; reflexivity].
Defined.

Lemma reply_reaches_callback_witness :
  (run [op_do_read [recv_data frame_reply]; op_run_callback; op_run_callback]
       asked).2
  = arrival asked frame_reply ++ [ev_reply (user_callback 0) reply].
Proof.
  rewrite (reply_reaches_callback asked frame_reply reply (JInt 1) 1
             {| mrc_id := 1; mrc_callback := user_callback 0; mrc_timer := 0 |});
    first [reflexivity | exact idle_asked | vm_compute; reflexivity].
Defined.

Lemma call_round_trip_witness :
  replies (round_trip caller callee "echo" [JStr "hi"] (user_callback 0) None).1.2
  = [(user_callback 0, reply)]
  /\ replies (round_trip caller callee "echo" [JStr "hi"] (user_callback 0) None).2
     = [].
Proof.
  pose proof (call_round_trip caller callee echo_registry echo "echo"
                [JStr "hi"] (user_callback 0) None (JStr "hi")) as T.
  cbv zeta in T.
  destruct (round_trip caller callee "echo" [JStr "hi"] (user_callback 0) None)
    as [[[a' b'] ea] eb].
  destruct T as (Ha & Hb & _);
    [ first [ exact idle_caller | exact idle_callee
            | split; [|split]; vm_compute; reflexivity
            | vm_compute; reflexivity ] ..
    | split; [exact Ha | exact Hb] ].
Defined.

Lemma blocking_call_times_out_witness :
  let called := call_method_blocking 1 "echo" [] None served in
  let s2 := (server_step (connection_op 1 (op_fire_timer (next_timer first_client)))
               called.1.2).1 in
  called.1.1 = 1%nat
  /\ waiters s2 !! 1%nat
     = Some {| greenlet := false; value := None;
               returned := Some (timeout_error 1) |}.
Proof.
  cbv zeta.
  assert (Ew : fresh (waiters served) = 1%nat) by (vm_compute; reflexivity).
  assert (Ei : next_serial first_client = 1) by (vm_compute; reflexivity).
  destruct (blocking_call_times_out served 1 first_client "echo" [] None)
    as (Hw & _ & _ & Hout & _).
  - vm_compute. reflexivity.
  - rewrite Ew in Hw, Hout. rewrite Ei in Hout.
    split; [exact Hw | exact Hout].
Defined.

Lemma tame_trio : Forall (fun r => tame r = true) trio.
Proof. repeat constructor. Qed.

Lemma server_lists_open_connections_witness :
  let s := (serve_run left_one (server_init echo_registry)).1 in
  NoDup (connections s)
  /\ (forall i,
        i ∈ connections s
        <-> exists c, objects s !! i = Some c /\ closed c = false)
  /\ client_count s = 2.
Proof.
  apply (server_lists_open_connections left_one echo_registry).
  repeat constructor.
Defined.

Lemma stop_skips_every_other_witness :
  connections (stop served).1 = [2%nat]
  /\ (forall j, j ∈ odds (connections served) ->
        exists c, objects (stop served).1 !! j = Some c /\ closed c = false)
  /\ (forall j, j ∈ connections served -> j ∉ odds (connections served) ->
        exists c, objects (stop served).1 !! j = Some c /\ closed c = true).
Proof.
  destruct (stop_skips_every_other trio echo_registry tame_trio)
    as (Hl & Hopen & Hshut).
  split; [|split; [exact Hopen | exact Hshut]].
  etransitivity; [exact Hl | vm_compute; reflexivity].
Defined.

Lemma get_client_first_open_witness :
  exists l1 l2 c,
    connections served = l1 ++ 2%nat :: l2
    /\ objects served !! 2%nat = Some c /\ closed c = false
    /\ fnmatch (peer_name c) "B" = true
    /\ forall j cj, j ∈ l1 -> objects served !! j = Some cj ->
         fnmatch (peer_name cj) "B" = false.
Proof.
  assert (Eg : get_client "B" served = Some 2%nat) by (vm_compute; reflexivity).
  pose proof (get_client_first_open trio echo_registry "B" tame_trio) as T.
  cbv zeta in T. fold served in T. rewrite Eg in T. exact T.
Defined.

Lemma last_connection_closed_witness :
  server_lifecycles
    (serve_step (serve (connection_op 1 op_close))
       (serve_run watched_solo (server_init echo_registry)).1).2
  = [(7%nat, "ConnectionClosed"%string); (7%nat, "LastConnectionClosed"%string)].
Proof.
  rewrite (last_connection_closed watched_solo echo_registry 1 op_close
             sole_client);
    first [ repeat constructor | vm_compute; reflexivity ].
Defined.

Lemma send_signal_reaches_matching_witness :
  let s := (serve_run trio (server_init echo_registry)).1 in
  let s' := (server_send_signal (Some "B"%string) "hello" [] s).1 in
  (server_send_signal (Some "B"%string) "hello" [] s).2 = []
  /\ connections s' = connections s
  /\ forall i c,
       objects s !! i = Some c ->
       if negb (closed c) && matches (Some "B"%string) c then
         exists c',
           objects s' !! i = Some c'
           /\ _outgoing c'
              = _outgoing c
                ++ [json_dumps
                      (<["params" := JList []]>
                         (<["method" := JStr "hello"]> jsonrpc_header))]
           /\ method_calls c' = method_calls c
           /\ next_serial c' = next_serial c
           /\ closed c' = false
       else objects s' !! i = Some c.
Proof.
  apply (send_signal_reaches_matching trio echo_registry (Some "B"%string)
           "hello" [] tame_trio).
Defined.

Lemma dispatch_in_order_witness :
  result_of (dispatch busy) = Return tt
  /\ events_of (dispatch busy) = []
  /\ _incoming (state_of (dispatch busy)) = []
  /\ hub_callbacks (state_of (dispatch busy))
     = hub_callbacks busy ++ (run_greenlet <$> [request; request])
  /\ closed (state_of (dispatch busy)) = closed busy.
Proof.
  apply (dispatch_in_order busy echo_registry [request; request]).
  - vm_compute. reflexivity.
  - change (_incoming busy) with [frame_request; frame_request].
    repeat constructor; vm_compute; reflexivity.
Defined.

Lemma set_trace_reaches_all_witness :
  let s := (serve_run trio (server_init echo_registry)).1 in
  let s' := foldl (fun s peer => handle_connection peer s)
              (server_set_trace (Some "trace"%string) s) ["D"%string] in
  server_tracefile s' = Some "trace"%string
  /\ forall i, i ∈ connections s' ->
       exists c, objects s' !! i = Some c
                 /\ tracefile c = Some "trace"%string /\ closed c = false.
Proof.
  apply (set_trace_reaches_all trio echo_registry (Some "trace"%string)
           ["D"%string] tame_trio).
Defined.

End Examples.
